(** * Goods-sort rules engine: shelves, products, matching, placement, locks

    A shallow embedding of the TypeScript sources (Product, Shelf and its
    variants, LockingShelf conditions, Level placement resolution) and the
    properties stated about them.

    Conventions of the embedding.
    - Objects with identity (products, shelves) live in stores indexed by a
      natural number; arrays hold references, so [Array.prototype.includes]
      and [===] on objects are comparisons of references.
    - A JavaScript array of type [(Product | null)[]] is a list of cells; a
      cell is a hole (never written, reads as [undefined]), [null] or a
      reference to a product.
    - Times and distances ([number]) are rationals; indices are integers
      (they may be negative); slot and match counts are natural numbers
      (level definitions give counts, and [fromData] replaces 0 by the
      default).
    - Code that can raise a [TypeError] returns a [Result].
    - Rendering state (positions, sizes, rotation, easing timers, canvases)
      is left out: no rule reads it, except through the geometric tests of
      placement resolution, which are kept abstract. *)

From Stdlib Require Import ZArith QArith Qround List Bool Lia.
From stdpp Require Import base gmap strings list fin_maps.
Import ListNotations.

Local Open Scope Z_scope.

(** * JavaScript preliminaries *)

Inductive JsError :=
  | TypeError (what : string)
  | Error (message : string).

Inductive Result (A : Type) :=
  | Ret (a : A)
  | Throw (e : JsError).
Arguments Ret {A} a.
Arguments Throw {A} e.

Definition bind {A B} (r : Result A) (k : A -> Result B) : Result B :=
  match r with
  | Ret a => k a
  | Throw e => Throw e
  end.

Notation "'do' x <- r ; k" := (bind r (fun x => k))
  (at level 10, x name, r at level 100, k at level 200).

(** References into the product store and the shelf store. *)
Definition loc := nat.
Definition sref := nat.

(** One element of a [(Product | null)[]] array. *)
Inductive cell :=
  | Hole
  | Null
  | Prod (p : loc).

Definition cell_eqb (a b : cell) : bool :=
  match a, b with
  | Hole, Hole => true
  | Null, Null => true
  | Prod p, Prod q => Nat.eqb p q
  | _, _ => false
  end.

(** [a[i] === null] and [a[i] !== null], for the value read at an index. *)
Definition is_null (c : cell) : bool :=
  match c with Null => true | _ => false end.

(** [a[i]]: a hole, or an index outside the array, reads as [undefined]. *)
Definition js_get (a : list cell) (i : Z) : cell :=
  if i <? 0 then Hole else nth (Z.to_nat i) a Hole.

(** [a[i] = v] for [0 <= i]: past the end the array grows, leaving holes. *)
Definition js_set (a : list cell) (i : nat) (v : cell) : list cell :=
  if (i <? length a)%nat then <[i := v]> a
  else a ++ repeat Hole (i - length a) ++ [v].

(** [new Array(n).fill(null)] *)
Definition js_filled_null (n : nat) : list cell := repeat Null n.

(** [peek] of the utilities library: the last element, if any. *)
Definition peek {A} (l : list A) : option A := last l.

(** [clamp(a, min, max)] of the utilities library. *)
Definition Qlt_bool (a b : Q) : bool := negb (Qle_bool b a).

Definition clamp (a lo hi : Q) : Q :=
  if Qlt_bool a lo then lo else if Qlt_bool hi a then hi else a.

(** [clamp(a, 0, Infinity)] *)
Definition clamp_from (a lo : Q) : Q :=
  if Qlt_bool a lo then lo else a.

(** * Product *)

(** The fields of a product that the rules read or write. [name], [image]
    and [points] are set by the constructor and read only for drawing. *)
Record Product := mkProduct {
  id : string;
  matches : list string;
  locked : bool;
  dragging : bool;
  disappearing : bool;
  startedDisappearing : bool;
  finishedDisappearing : bool;
  disappearingTime : Q;
  disappearingDelay : Q
}.

Definition DISAPPEARING_ANIMATION_TIME : Q := 1 # 2.

(** The product as its constructor leaves it. *)
Definition Product_new (pid : string) (pmatches : list string) : Product :=
  {| id := pid; matches := pmatches; locked := false; dragging := false;
     disappearing := false; startedDisappearing := false;
     finishedDisappearing := false; disappearingTime := 0;
     disappearingDelay := 0 |}.

(** [Product.disappear(delay)] *)
Definition Product_disappear (p : Product) (delay : Q) : Product :=
  if disappearing p then p
  else
    {| id := id p; matches := matches p; locked := locked p;
       dragging := dragging p;
       disappearing := true;
       startedDisappearing := false;
       finishedDisappearing := false;
       disappearingTime := DISAPPEARING_ANIMATION_TIME;
       disappearingDelay := delay |}.

(** The store of product objects. *)
Definition heap := loc -> Product.

Definition heap_set (h : heap) (l : loc) (p : Product) : heap :=
  fun x => if Nat.eqb x l then p else h x.

(** [self.matchesProduct(other)]: [self.matches.includes(other.id)] *)
Definition Product_matchesProduct (h : heap) (self other : loc) : bool :=
  existsb (String.eqb (id (h other))) (matches (h self)).

(** What one tick reads from the input devices. [intersects p] is the test
    of the pointer against the bounding box of product [p]. *)
Record Input := mkInput {
  dt : Q;
  mousePressed : bool;
  mouseDown : bool;
  intersects : loc -> bool
}.

(** [set positionImmediate]: of the modelled fields only [dragging] changes. *)
Definition Product_positionImmediate (p : Product) : Product :=
  {| id := id p; matches := matches p; locked := locked p;
     dragging := false;
     disappearing := disappearing p;
     startedDisappearing := startedDisappearing p;
     finishedDisappearing := finishedDisappearing p;
     disappearingTime := disappearingTime p;
     disappearingDelay := disappearingDelay p |}.

(** The disappearing animation inside [Product.update]. *)
Definition Product_updateDisappearing (d : Q) (p : Product) : Product :=
  if disappearing p then
    let delay := clamp_from (disappearingDelay p - d) 0 in
    let started := startedDisappearing p || Qle_bool delay 0 in
    let time :=
      if started
      then clamp (disappearingTime p - d) 0 DISAPPEARING_ANIMATION_TIME
      else disappearingTime p in
    let finished := finishedDisappearing p || Qle_bool time 0 in
    {| id := id p; matches := matches p; locked := locked p;
       dragging := dragging p;
       disappearing := true;
       startedDisappearing := started;
       finishedDisappearing := finished;
       disappearingTime := time;
       disappearingDelay := delay |}
  else p.

(** [Product.update(dt, level, camera, shelf, slotIndex)]. [canPickUp] is the
    answer of [shelf.canPickUpProductAtIndex(this, slotIndex)]. The second
    component tells whether [level.startDraggingProduct] was called. *)
Definition Product_update (i : Input) (self : loc) (canPickUp : bool)
    (p : Product) : Product * bool :=
  let grab := mousePressed i && intersects i self && canPickUp
              && negb (locked p) in
  let p1 :=
    {| id := id p; matches := matches p; locked := locked p;
       dragging := dragging p || grab;
       disappearing := disappearing p;
       startedDisappearing := startedDisappearing p;
       finishedDisappearing := finishedDisappearing p;
       disappearingTime := disappearingTime p;
       disappearingDelay := disappearingDelay p |} in
  (Product_updateDisappearing (dt i) p1, grab).

(** * The matching algorithm of Shelf *)

Record MatchResult := mkMatch {
  found : bool;
  (** the field [matches] of the source; [None] is [undefined] *)
  matched : option (list loc)
}.

(** [group.includes(product)] *)
Definition includes (group : list loc) (product : loc) : bool :=
  existsb (Nat.eqb product) group.

(** The candidates of one growth step. *)
Definition matchingProducts (h : heap) (currentGroup available : list loc)
    : list loc :=
  List.filter
    (fun product =>
       negb (includes currentGroup product)
       && forallb (fun groupProduct =>
                     Product_matchesProduct h product groupProduct)
                  currentGroup)
    available.

(** [growMatchingGroup], by recursion on the number of members still
    missing: [currentGroup.length >= matchCount] is [need = 0], and each
    recursive call has added one member. *)
Fixpoint grow (h : heap) (need : nat) (currentGroup available : list loc)
    : list loc :=
  match need with
  | O => currentGroup
  | S need' =>
      match matchingProducts h currentGroup available with
      | [] => currentGroup
      | first :: _ => grow h need' (currentGroup ++ [first]) available
      end
  end.

Definition Shelf_growMatchingGroup (h : heap) (matchCount : nat)
    (currentGroup available : list loc) : list loc :=
  grow h (matchCount - length currentGroup) currentGroup available.

(** The loop of [findMatchingGroups] over the start products. *)
Fixpoint findMatchingGroups_loop (h : heap) (matchCount : nat)
    (starts all : list loc) : list (list loc) :=
  match starts with
  | [] => []
  | startProduct :: rest =>
      let group := Shelf_growMatchingGroup h matchCount [startProduct] all in
      (if (matchCount <=? length group)%nat
       then [firstn matchCount group] else [])
      ++ findMatchingGroups_loop h matchCount rest all
  end.

Definition Shelf_findMatchingGroups (h : heap) (matchCount : nat)
    (products : list loc) : list (list loc) :=
  findMatchingGroups_loop h matchCount products products.

(** [products.filter(p => p !== null && !p.disappearing)]; [filter] skips
    holes. *)
Definition validProducts (h : heap) (products : list cell) : list loc :=
  flat_map
    (fun c => match c with
              | Prod p => if disappearing (h p) then [] else [p]
              | _ => []
              end)
    products.

(** * Shelves *)

(** The six conditions of a locking shelf ([LockingMode]). *)
Inductive LockingMode :=
  | ToggleTimer (period : Q) (initiallyLocked : bool)
                (finalCountdownUnlock : option Q)
  | CountdownTimer (after : Q)
  | MatchProducts (product : option loc) (n : Z)
  | CompleteShelves (n : Z)
  | CompleteShelf (shelfReference : string)
  | PlaceProduct (shelfReference : string) (slot : Z) (latch inverted : bool)
                 (product : option loc).

(** The layers and the layer transition of a deep shelf. *)
Record DeepState := mkDeep {
  layers : list (list cell);
  changingLayers : bool;
  changingLayersTime : Q
}.

(** The class of a shelf object, with the fields the class adds. The three
    wrappers hold a reference to the shelf they wrap. *)
Inductive ShelfKind :=
  | KShelf
  | KClosing (closed : bool) (closingTime : Q) (finishedClosing : bool)
  | KDisplay (allowed : list (option loc)) (completed : bool)
             (completingTime : Q) (finishedCompleting : bool)
  | KDeep (d : DeepState)
  | KSupply (shelf : sref)
  | KLocking (shelf : sref) (locking : LockingMode) (isLocked : bool)
             (lockingTime : Q)
  | KDisappearing (shelf : sref) (isDisappearing : bool)
                  (disappearingTimer : Q).

(** A wrapper replaces a capability method of the shelf it wraps by a
    closure, an own property of that object. [SupplyShelf] installs
    [() => false] for dropping; [LockingShelf] installs, for dropping and
    for picking up, a closure that answers false while the wrapper is locked
    and otherwise calls the method it replaced. Every factory-built shelf is
    wrapped at most once, so the replaced method is the one of its class. *)
Inductive DropOverride :=
  | DropNever
  | DropUnlessLocked (wrapper : sref).

Record Shelf := mkShelf {
  products : list cell;
  slotCount : nat;
  matchCount : nat;
  ignore : bool;
  reference : option string;
  statsUpdated : bool;
  disposed : bool;
  canDropOverride : option DropOverride;
  canPickUpOverride : option sref;
  kind : ShelfKind
}.

Definition DEFAULT_SLOT_COUNT : nat := 3.
Definition DEFAULT_MATCH_COUNT : nat := 3.
Definition DISAPPEAR_DELAY : Q := 1 # 5.

Definition set_products (s : Shelf) (ps : list cell) : Shelf :=
  mkShelf ps (slotCount s) (matchCount s) (ignore s) (reference s)
          (statsUpdated s) (disposed s) (canDropOverride s)
          (canPickUpOverride s) (kind s).

Definition set_statsUpdated (s : Shelf) (b : bool) : Shelf :=
  mkShelf (products s) (slotCount s) (matchCount s) (ignore s) (reference s)
          b (disposed s) (canDropOverride s) (canPickUpOverride s) (kind s).

Definition set_kind (s : Shelf) (k : ShelfKind) : Shelf :=
  mkShelf (products s) (slotCount s) (matchCount s) (ignore s) (reference s)
          (statsUpdated s) (disposed s) (canDropOverride s)
          (canPickUpOverride s) k.

Definition set_canDropOverride (s : Shelf) (o : option DropOverride) : Shelf :=
  mkShelf (products s) (slotCount s) (matchCount s) (ignore s) (reference s)
          (statsUpdated s) (disposed s) o (canPickUpOverride s) (kind s).

Definition set_canPickUpOverride (s : Shelf) (o : option sref) : Shelf :=
  mkShelf (products s) (slotCount s) (matchCount s) (ignore s) (reference s)
          (statsUpdated s) (disposed s) (canDropOverride s) o (kind s).

(** The store of shelf objects. *)
Definition store := sref -> Shelf.

Definition store_set (st : store) (r : sref) (s : Shelf) : store :=
  fun x => if Nat.eqb x r then s else st x.

(** ** Methods of the base class *)

(** [index < 0 || index >= this.slotCount] *)
Definition invalidIndex (s : Shelf) (index : Z) : bool :=
  (index <? 0) || (index >=? Z.of_nat (slotCount s)).

Definition Shelf_canPickUpProductAtIndex (s : Shelf) (_product : loc)
    (index : Z) : bool :=
  if invalidIndex s index then false
  else if is_null (js_get (products s) index) then false
  else true.

Definition Shelf_canDropProductAtIndex (s : Shelf) (_product : loc)
    (index : Z) : bool :=
  if invalidIndex s index then false
  else if negb (is_null (js_get (products s) index)) then false
  else true.

(** [layer.every(product => product === null)]; [every] skips holes. *)
Definition layerIsEmpty (layer : list cell) : bool :=
  forallb (fun c => match c with Prod _ => false | _ => true end) layer.

Definition Shelf_shelfIsEmpty (s : Shelf) : bool := layerIsEmpty (products s).

Definition Shelf_checkForMatches (h : heap) (s : Shelf) : MatchResult :=
  let allMatches :=
    Shelf_findMatchingGroups h (matchCount s) (validProducts h (products s)) in
  {| found := negb (Nat.eqb (length allMatches) 0);
     matched := head allMatches |}.

Definition Shelf_addProductAtIndex (s : Shelf) (index : Z) (product : loc)
    : bool * Shelf :=
  if invalidIndex s index then (false, s)
  else if negb (is_null (js_get (products s) index)) then (false, s)
  else
    (true,
     set_statsUpdated
       (set_products s (js_set (products s) (Z.to_nat index) (Prod product)))
       false).

(** The value returned is the one read from the slot: a product, [null], or
    [undefined] (a hole). *)
Definition Shelf_removeProductAtIndex (s : Shelf) (index : Z)
    : cell * Shelf :=
  if invalidIndex s index then (Null, s)
  else
    (js_get (products s) index,
     set_statsUpdated
       (set_products s (js_set (products s) (Z.to_nat index) Null))
       false).

Definition set_locked (p : Product) (b : bool) : Product :=
  {| id := id p; matches := matches p; locked := b;
     dragging := dragging p;
     disappearing := disappearing p;
     startedDisappearing := startedDisappearing p;
     finishedDisappearing := finishedDisappearing p;
     disappearingTime := disappearingTime p;
     disappearingDelay := disappearingDelay p |}.

(** [product.locked = locked; return product.locked] on the value read from
    an array: assigning a property of [undefined] raises a [TypeError]. *)
Definition lockCell (h : heap) (c : cell) (lockedArg : bool)
    : Result (option bool * heap) :=
  match c with
  | Null => Ret (None, h)
  | Prod p => Ret (Some lockedArg, heap_set h p (set_locked (h p) lockedArg))
  | Hole =>
      Throw (TypeError "Cannot set properties of undefined (setting 'locked')")
  end.

(** The result [None] is [null]. *)
Definition Shelf_lockProductAtIndex (h : heap) (s : Shelf) (index : Z)
    (lockedArg : bool) : Result (option bool * heap) :=
  if invalidIndex s index then Ret (None, h)
  else lockCell h (js_get (products s) index) lockedArg.

(** ** DeepShelf *)

Definition set_deep (s : Shelf) (d : DeepState) : Shelf := set_kind s (KDeep d).

(** [peek(layers)[index] = v] *)
Fixpoint set_in_top (ls : list (list cell)) (index : nat) (v : cell)
    : list (list cell) :=
  match ls with
  | [] => []
  | [top] => [js_set top index v]
  | l :: rest => l :: set_in_top rest index v
  end.

Definition DeepShelf_shelfIsEmpty (d : DeepState) : bool :=
  forallb layerIsEmpty (layers d).

Definition DeepShelf_addProductAtIndex (s : Shelf) (d : DeepState)
    (index : Z) (product : loc) : bool * Shelf :=
  if invalidIndex s index then (false, s)
  else if negb (is_null (js_get (products s) index)) then (false, s)
  else if Nat.eqb (length (layers d)) 0 then (false, s)
  else
    (true,
     set_deep
       (set_products s (js_set (products s) (Z.to_nat index) (Prod product)))
       (mkDeep (set_in_top (layers d) (Z.to_nat index) (Prod product))
               (changingLayers d) (changingLayersTime d))).

Definition DeepShelf_removeProductAtIndex (s : Shelf) (d : DeepState)
    (index : Z) : cell * Shelf :=
  if invalidIndex s index then (Null, s)
  else if Nat.eqb (length (layers d)) 0 then (Null, s)
  else
    (js_get (products s) index,
     set_deep
       (set_products s (js_set (products s) (Z.to_nat index) Null))
       (mkDeep (set_in_top (layers d) (Z.to_nat index) Null)
               (changingLayers d) (changingLayersTime d))).

(** [index] counts slots through all layers, bottom layer first. With
    [slotCount = 0] the quotient and the remainder are infinite or [NaN]:
    for [index = 0] both are [NaN], every comparison fails and
    [this.layers[NaN][NaN]] reads a property of [undefined]. *)
Definition DeepShelf_lockProductAtIndex (h : heap) (s : Shelf) (d : DeepState)
    (index : Z) (lockedArg : bool) : Result (option bool * heap) :=
  if Nat.eqb (slotCount s) 0 then
    if index =? 0
    then Throw (TypeError "Cannot read properties of undefined (reading 'NaN')")
    else Ret (None, h)
  else
    let layer := index / Z.of_nat (slotCount s) in
    let layerIndex := Z.rem index (Z.of_nat (slotCount s)) in
    if (layer <? 0) || (layer >=? Z.of_nat (length (layers d)))
       || (layerIndex <? 0) || (layerIndex >=? Z.of_nat (slotCount s))
    then Ret (None, h)
    else lockCell h (js_get (nth (Z.to_nat layer) (layers d) []) layerIndex)
                  lockedArg.

(** ** Dynamic dispatch *)

Definition addProductAtIndex (s : Shelf) (index : Z) (product : loc)
    : bool * Shelf :=
  match kind s with
  | KDeep d => DeepShelf_addProductAtIndex s d index product
  | _ => Shelf_addProductAtIndex s index product
  end.

Definition removeProductAtIndex (s : Shelf) (index : Z) : cell * Shelf :=
  match kind s with
  | KDeep d => DeepShelf_removeProductAtIndex s d index
  | _ => Shelf_removeProductAtIndex s index
  end.

Definition lockProductAtIndex (h : heap) (s : Shelf) (index : Z)
    (lockedArg : bool) : Result (option bool * heap) :=
  match kind s with
  | KDeep d => DeepShelf_lockProductAtIndex h s d index lockedArg
  | _ => Shelf_lockProductAtIndex h s index lockedArg
  end.

(** The method [canDropProductAtIndex] of the class of [s]. *)
Definition class_canDropProductAtIndex (s : Shelf) (product : loc)
    (index : Z) : bool :=
  match kind s with
  | KShelf | KDeep _ => Shelf_canDropProductAtIndex s product index
  | KClosing closed _ _ =>
      if closed then false else Shelf_canDropProductAtIndex s product index
  | KDisplay _ completed _ _ =>
      if completed then false else Shelf_canDropProductAtIndex s product index
  | KSupply _ | KLocking _ _ _ _ | KDisappearing _ _ _ => false
  end.

Definition class_canPickUpProductAtIndex (s : Shelf) (product : loc)
    (index : Z) : bool :=
  match kind s with
  | KShelf | KDeep _ => Shelf_canPickUpProductAtIndex s product index
  | KClosing closed _ _ =>
      if closed then false else Shelf_canPickUpProductAtIndex s product index
  | KDisplay _ completed _ _ =>
      if completed then false
      else Shelf_canPickUpProductAtIndex s product index
  | KSupply _ | KLocking _ _ _ _ | KDisappearing _ _ _ => false
  end.

(** [this.locked] of a locking wrapper. *)
Definition wrapperLocked (st : store) (w : sref) : bool :=
  match kind (st w) with
  | KLocking _ _ isLocked _ => isLocked
  | _ => false
  end.

(** [shelf.canDropProductAtIndex(product, index)]: the own property when a
    wrapper installed one, the class method otherwise. *)
Definition canDropProductAtIndex (st : store) (r : sref) (product : loc)
    (index : Z) : bool :=
  match canDropOverride (st r) with
  | Some DropNever => false
  | Some (DropUnlessLocked w) =>
      if wrapperLocked st w then false
      else class_canDropProductAtIndex (st r) product index
  | None => class_canDropProductAtIndex (st r) product index
  end.

Definition canPickUpProductAtIndex (st : store) (r : sref) (product : loc)
    (index : Z) : bool :=
  match canPickUpOverride (st r) with
  | Some w =>
      if wrapperLocked st w then false
      else class_canPickUpProductAtIndex (st r) product index
  | None => class_canPickUpProductAtIndex (st r) product index
  end.

(** * Level *)

(** A value of [stats.currentProductPlacement]. [Level.update] stores
    [{shelf, products}]; the constructor of [Level] stores, under the key a
    shelf object converts to, an array of [{shelf, slot, product}] rows,
    which has neither a [shelf] nor a [products] property. *)
Inductive PlacementSnapshot :=
  | Snapshot (shelf : sref) (current : list cell)
  | InitialRows (rows : list (sref * nat * cell)).

(** [level.stats]. An entry of [productMatches] is [{product, total}], one
    of [completedShelves] is [{shelf, completed}], one of
    [productPlacements] is [{shelf, slot, product}]. *)
Record Stats := mkStats {
  time : Q;
  productMatches : gmap string (loc * Z);
  totalMatches : Z;
  completedShelves : gmap string (sref * bool);
  totalCompletedShelves : Z;
  productPlacements : list (sref * Z * loc);
  (** own properties in enumeration order *)
  currentProductPlacement : list (string * PlacementSnapshot)
}.

(** The level, with the two object stores its code works on: the products
    and the shelves, each with the reference the next new object gets.
    [shelves] is the list [level.shelves] (a shelf pushed twice is twice in
    it); [draggingProduct] is [{shelf, slotIndex, product}] or [null];
    [timeLimit] is [level.data.timeLimit]. The actors and the grid only
    place shelves on the screen. *)
Record Level := mkLevel {
  productHeap : heap;
  nextProduct : loc;
  shelfHeap : store;
  nextShelf : sref;
  shelves : list sref;
  draggingProduct : option (sref * Z * loc);
  stats : Stats;
  timeLimit : option Q;
  completed : bool
}.

Definition set_productHeap (L : Level) (h : heap) : Level :=
  mkLevel h (nextProduct L) (shelfHeap L) (nextShelf L) (shelves L)
          (draggingProduct L) (stats L) (timeLimit L) (completed L).

Definition set_shelfHeap (L : Level) (st : store) : Level :=
  mkLevel (productHeap L) (nextProduct L) st (nextShelf L) (shelves L)
          (draggingProduct L) (stats L) (timeLimit L) (completed L).

Definition set_draggingProduct (L : Level) (d : option (sref * Z * loc))
    : Level :=
  mkLevel (productHeap L) (nextProduct L) (shelfHeap L) (nextShelf L)
          (shelves L) d (stats L) (timeLimit L) (completed L).

Definition set_stats (L : Level) (s : Stats) : Level :=
  mkLevel (productHeap L) (nextProduct L) (shelfHeap L) (nextShelf L)
          (shelves L) (draggingProduct L) s (timeLimit L) (completed L).

Definition set_shelf (L : Level) (r : sref) (s : Shelf) : Level :=
  set_shelfHeap L (store_set (shelfHeap L) r s).

Definition set_product (L : Level) (l : loc) (p : Product) : Level :=
  set_productHeap L (heap_set (productHeap L) l p).

Definition Level_startDraggingProduct (L : Level) (shelf : sref)
    (slotIndex : Z) (product : loc) : Level :=
  set_draggingProduct L (Some (shelf, slotIndex, product)).

(** ** Construction *)

(** [ProductFactory.createProduct(level, id)] over the product definitions
    (identifier to matching identifiers): a new object, or an [Error] for
    an unknown identifier. *)
Definition ProductFactory_createProduct (defs : gmap string (list string))
    (L : Level) (pid : string) : Result (loc * Level) :=
  match defs !! pid with
  | None => Throw (Error ("Product id not found: " ++ pid))
  | Some ms =>
      Ret (nextProduct L,
           mkLevel (heap_set (productHeap L) (nextProduct L)
                             (Product_new pid ms))
                   (S (nextProduct L)) (shelfHeap L) (nextShelf L)
                   (shelves L) (draggingProduct L) (stats L) (timeLimit L)
                   (completed L))
  end.

(** [data.products.map(id => id !== null ? createProduct(level, id) : null)] *)
Fixpoint createProducts (defs : gmap string (list string)) (L : Level)
    (ids : list (option string)) : Result (list cell * Level) :=
  match ids with
  | [] => Ret ([], L)
  | None :: rest =>
      do r <- createProducts defs L rest;
      Ret (Null :: fst r, snd r)
  | Some pid :: rest =>
      do a <- ProductFactory_createProduct defs L pid;
      do r <- createProducts defs (snd a) rest;
      Ret (Prod (fst a) :: fst r, snd r)
  end.

(** The constructor of [Shelf], with the class and the class fields of the
    object under construction: the new object gets the next free reference
    and is pushed on [level.shelves] when [addToLevel] is set. *)
Definition Shelf_constructor (L : Level) (ps : list cell)
    (slots matchN : nat) (ign : bool) (ref : option string)
    (addToLevel : bool) (k : ShelfKind) : sref * Level :=
  let self := nextShelf L in
  let obj := mkShelf ps slots matchN ign ref false false None None k in
  (self,
   mkLevel (productHeap L) (nextProduct L)
           (store_set (shelfHeap L) self obj) (S self)
           (if addToLevel then shelves L ++ [self] else shelves L)
           (draggingProduct L) (stats L) (timeLimit L) (completed L)).

Record ShelfData := mkShelfData {
  data_products : list (option string);
  data_slotCount : option nat;
  data_matchCount : option nat;
  data_ignore : option bool;
  data_reference : option string
}.

(** [x || d] on an optional number: [undefined] and [0] give [d]. *)
Definition or_default (x : option nat) (d : nat) : nat :=
  match x with
  | Some (S n) => S n
  | _ => d
  end.

(** [data.reference || undefined] *)
Definition or_undefined (x : option string) : option string :=
  match x with
  | Some EmptyString => None
  | other => other
  end.

Definition Shelf_fromData (defs : gmap string (list string)) (L : Level)
    (data : ShelfData) : Result (sref * Level) :=
  do r <- createProducts defs L (data_products data);
  Ret (Shelf_constructor (snd r) (fst r)
         (or_default (data_slotCount data) DEFAULT_SLOT_COUNT)
         (or_default (data_matchCount data) DEFAULT_MATCH_COUNT)
         (default false (data_ignore data))
         (or_undefined (data_reference data))
         true KShelf).

(** [peek(layers) ?? new Array(slotCount).fill(null)] *)
Definition topLayerOrEmpty (ls : list (list cell)) (slots : nat) : list cell :=
  match peek ls with
  | Some top => top
  | None => js_filled_null slots
  end.

Definition DeepShelf_constructor (L : Level) (ls : list (list cell))
    (slots matchN : nat) (ign : bool) (ref : option string) : sref * Level :=
  Shelf_constructor L (topLayerOrEmpty ls slots) slots matchN ign ref true
                    (KDeep (mkDeep ls false 0)).

Definition DisplayShelf_constructor (L : Level) (allowed : list (option loc))
    (ps : list cell) (slots matchN : nat) (ign : bool) (ref : option string)
    : sref * Level :=
  Shelf_constructor L ps slots matchN ign ref true (KDisplay allowed false 0 false).

Definition ClosingShelf_constructor (L : Level) (ps : list cell)
    (slots matchN : nat) (ign : bool) (ref : option string) : sref * Level :=
  Shelf_constructor L ps slots matchN ign ref true (KClosing false 0 false).

(** The three wrappers call
    [super(level, [], offset, undefined, undefined, true, undefined, false)]. *)
Definition wrapper_super (L : Level) (k : ShelfKind) : sref * Level :=
  Shelf_constructor L [] DEFAULT_SLOT_COUNT DEFAULT_MATCH_COUNT true None
                    false k.

Definition SupplyShelf_constructor (L : Level) (shelf : sref) : sref * Level :=
  let L1 :=
    set_shelf L shelf (set_canDropOverride (shelfHeap L shelf) (Some DropNever)) in
  wrapper_super L1 (KSupply shelf).

Definition LockingShelf_constructor (L : Level) (shelf : sref)
    (locking : LockingMode) : sref * Level :=
  let self := nextShelf L in
  let inner :=
    set_canPickUpOverride
      (set_canDropOverride (shelfHeap L shelf) (Some (DropUnlessLocked self)))
      (Some self) in
  wrapper_super (set_shelf L shelf inner) (KLocking shelf locking false 0).

Definition DisappearingShelf_constructor (L : Level) (shelf : sref)
    : sref * Level :=
  wrapper_super L (KDisappearing shelf false 0).

(** ** DisplayShelf.checkForMatches *)

(** The loop over [this.allowed.entries()]. [allowed] is built once from the
    definition and never written, so it has no holes. *)
Fixpoint DisplayShelf_checkLoop (h : heap) (index : nat)
    (allowed : list (option loc)) (ps : list cell) (acc : list loc)
    : MatchResult :=
  match allowed with
  | [] => {| found := true; matched := Some acc |}
  | a :: rest =>
      match a, js_get ps (Z.of_nat index) with
      | None, Null => DisplayShelf_checkLoop h (S index) rest ps acc
      | Some al, Prod p =>
          if Product_matchesProduct h p al
          then DisplayShelf_checkLoop h (S index) rest ps (acc ++ [p])
          else {| found := false; matched := Some [] |}
      | _, _ => {| found := false; matched := Some [] |}
      end
  end.

Definition DisplayShelf_checkForMatches (h : heap)
    (allowed : list (option loc)) (ps : list cell) : MatchResult :=
  DisplayShelf_checkLoop h 0 allowed ps [].

(** ** LockingShelf.shelfIsLocked *)

(** [array.some(f)] where [f] may throw. *)
Fixpoint some_r {A} (f : A -> Result bool) (l : list A) : Result bool :=
  match l with
  | [] => Ret false
  | x :: rest => do b <- f x; if b then Ret true else some_r f rest
  end.

(** [products.some((product, index) => ...)]; [some] skips holes. *)
Fixpoint some_cells (f : cell -> nat -> Result bool) (index : nat)
    (l : list cell) : Result bool :=
  match l with
  | [] => Ret false
  | Hole :: rest => some_cells f (S index) rest
  | c :: rest =>
      do b <- f c index; if b then Ret true else some_cells f (S index) rest
  end.

(** [LockingShelf] has the property [locking] and no property [mode]:
    [this.mode] is [undefined]. *)
Definition LockingShelf_mode : option LockingMode := None.

(** [m.slot]; [None] is [undefined]. *)
Definition read_slot (m : option LockingMode) : Result (option Z) :=
  match m with
  | None =>
      Throw (TypeError "Cannot read properties of undefined (reading 'slot')")
  | Some (PlaceProduct _ slot _ _ _) => Ret (Some slot)
  | Some _ => Ret None
  end.

(** [a === b] for a number and a possibly undefined number. *)
Definition strict_eq_Z (a : Z) (b : option Z) : bool :=
  match b with
  | Some x => a =? x
  | None => false
  end.

(** [shelf.reference === r] *)
Definition reference_is (st : store) (shelf : sref) (r : string) : bool :=
  match reference (st shelf) with
  | Some x => String.eqb x r
  | None => false
  end.

(** [this.locking.product === undefined || product.matchesProduct(...)] *)
Definition qualifies (h : heap) (required : option loc) (product : loc) : bool :=
  match required with
  | None => true
  | Some r => Product_matchesProduct h product r
  end.

Definition LockingShelf_shelfIsLocked (L : Level) (locking : LockingMode)
    : Result bool :=
  let st := shelfHeap L in
  let h := productHeap L in
  let s := stats L in
  match locking with
  | ToggleTimer period initiallyLocked finalCountdownUnlock =>
      if match finalCountdownUnlock, timeLimit L with
         | Some f, Some limit => Qle_bool (limit - time s) f
         | _, _ => false
         end
      then Ret false
      else if Qeq_bool period 0 then Ret false
      else Ret (Z.even (Qfloor (time s / period
                                + (if initiallyLocked then 0 else 1 # 2))))
  | CountdownTimer after => Ret (Qlt_bool after (time s))
  | MatchProducts (Some lp) n =>
      Ret (existsb
             (fun e : string * (loc * Z) =>
                Product_matchesProduct h lp (fst (snd e))
                && (snd (snd e) >=? n))
             (map_to_list (productMatches s)))
  | MatchProducts None n => Ret (totalMatches s >=? n)
  | CompleteShelves n => Ret (totalCompletedShelves s >=? n)
  | CompleteShelf shelfReference =>
      Ret match completedShelves s !! shelfReference with
          | Some (_, isComplete) => isComplete
          | None => false
          end
  | PlaceProduct shelfReference _ latch inverted required =>
      do isLocked <-
        (if latch then
           some_r
             (fun e : sref * Z * loc =>
                let '(shelf, slot, product) := e in
                if reference_is st shelf shelfReference then
                  do modeSlot <- read_slot LockingShelf_mode;
                  Ret (strict_eq_Z slot modeSlot && qualifies h required product)
                else Ret false)
             (productPlacements s)
         else
           some_r
             (fun e : string * PlacementSnapshot =>
                match snd e with
                | InitialRows _ =>
                    Throw (TypeError
                      "Cannot read properties of undefined (reading 'reference')")
                | Snapshot shelf current =>
                    if reference_is st shelf shelfReference then
                      some_cells
                        (fun c index =>
                           match c with
                           | Prod product =>
                               do modeSlot <- read_slot LockingShelf_mode;
                               Ret (strict_eq_Z (Z.of_nat index) modeSlot
                                    && qualifies h required product)
                           | _ => Ret false
                           end)
                        0%nat current
                    else Ret false
                end)
             (currentProductPlacement s));
      Ret (if inverted then negb isLocked else isLocked)
  end.

(** ** Shelf.update and DeepShelf.update *)

(** [this.products.forEach((product, index) => product?.update(...))] *)
Fixpoint updateProducts (i : Input) (self : sref) (index : nat)
    (cells : list cell) (L : Level) : Level :=
  match cells with
  | [] => L
  | c :: rest =>
      let L1 :=
        match c with
        | Prod p =>
            let r := Product_update i p
                       (canPickUpProductAtIndex (shelfHeap L) self p
                                                (Z.of_nat index))
                       (productHeap L p) in
            let L' := set_product L p (fst r) in
            if snd r
            then Level_startDraggingProduct L' self (Z.of_nat index) p
            else L'
        | _ => L
        end in
      updateProducts i self (S index) rest L1
  end.

(** [products.map(p => p && p.finishedDisappearing ? null : p)] *)
Definition removeFinished (h : heap) (ps : list cell) : list cell :=
  map (fun c => match c with
                | Prod p => if finishedDisappearing (h p) then Null else c
                | _ => c
                end) ps.

(** [matches.forEach((product, index) =>
      product.disappear(index * DISAPPEAR_DELAY))] *)
Fixpoint disappearAll (h : heap) (index : nat) (group : list loc) : heap :=
  match group with
  | [] => h
  | p :: rest =>
      disappearAll
        (heap_set h p
           (Product_disappear (h p) (inject_Z (Z.of_nat index) * DISAPPEAR_DELAY)))
        (S index) rest
  end.

(** [stats.productMatches[product.id].total++; stats.totalMatches++] *)
Definition recordMatch (h : heap) (s : Stats) (p : loc) : Result Stats :=
  match productMatches s !! id (h p) with
  | None =>
      Throw (TypeError "Cannot read properties of undefined (reading 'total')")
  | Some (proto, total) =>
      Ret (mkStats (time s)
                   (<[id (h p) := (proto, total + 1)]> (productMatches s))
                   (totalMatches s + 1) (completedShelves s)
                   (totalCompletedShelves s) (productPlacements s)
                   (currentProductPlacement s))
  end.

Fixpoint recordMatches (h : heap) (s : Stats) (group : list loc)
    : Result Stats :=
  match group with
  | [] => Ret s
  | p :: rest => do s1 <- recordMatch h s p; recordMatches h s1 rest
  end.

Definition countCompletedShelf (s : Stats) : Stats :=
  mkStats (time s) (productMatches s) (totalMatches s) (completedShelves s)
          (totalCompletedShelves s + 1) (productPlacements s)
          (currentProductPlacement s).

(** The three phases of [Shelf.update]; [shelfIsComplete] is the method of
    the class of [this]. *)
Definition Shelf_update_products (i : Input) (L : Level) (self : sref) : Level :=
  let L1 := updateProducts i self 0 (products (shelfHeap L self)) L in
  set_shelf L1 self
    (set_products (shelfHeap L1 self)
       (removeFinished (productHeap L1) (products (shelfHeap L1 self)))).

Definition Shelf_update_match (L : Level) (self : sref) : MatchResult * Level :=
  let m := Shelf_checkForMatches (productHeap L) (shelfHeap L self) in
  (m,
   if found m
   then set_productHeap L (disappearAll (productHeap L) 0 (default [] (matched m)))
   else L).

Definition Shelf_update_stats (shelfIsComplete : Shelf -> bool)
    (m : MatchResult) (L : Level) (self : sref) : Result Level :=
  if statsUpdated (shelfHeap L self) then Ret L
  else
    do L1 <-
      (if found m then
         do s1 <- recordMatches (productHeap L) (stats L) (default [] (matched m));
         Ret (set_shelf (set_stats L s1) self
                (set_statsUpdated (shelfHeap L self) true))
       else Ret L);
    if shelfIsComplete (shelfHeap L1 self) then
      Ret (set_shelf (set_stats L1 (countCompletedShelf (stats L1))) self
             (set_statsUpdated (shelfHeap L1 self) true))
    else Ret L1.

Definition Shelf_update (shelfIsComplete : Shelf -> bool) (i : Input)
    (L : Level) (self : sref) : Result Level :=
  let L1 := Shelf_update_products i L self in
  let r := Shelf_update_match L1 self in
  Shelf_update_stats shelfIsComplete (fst r) (snd r) self.

Definition CHANGING_LAYERS_ANIMATION_TIME : Q := 1 # 2.

(** [this.shelfIsComplete()] when [this] is a deep shelf. *)
Definition DeepShelf_shelfIsComplete (s : Shelf) : bool :=
  match kind s with
  | KDeep d => DeepShelf_shelfIsEmpty d
  | _ => Shelf_shelfIsEmpty s
  end.

(** The products of the layers below the top one are put in place
    ([positionImmediate]). *)
Definition placeLayer (h : heap) (layer : list cell) : heap :=
  fold_left
    (fun h' c => match c with
                 | Prod p => heap_set h' p (Product_positionImmediate (h' p))
                 | _ => h'
                 end)
    layer h.

Definition placeLowerLayers (h : heap) (ls : list (list cell)) : heap :=
  fold_left placeLayer (removelast ls) h.

(** The part of [DeepShelf.update] after [super.update]: the layers lose
    the products that finished disappearing, an empty top layer starts the
    transition, and the end of the transition removes the top layer unless
    it is the only one. *)
Definition DeepShelf_update_layers (i : Input) (h : heap) (s : Shelf)
    (d : DeepState) : Shelf :=
  let ls := map (removeFinished h) (layers d) in
  let start :=
    match peek ls with
    | Some currentLayer => layerIsEmpty currentLayer && negb (changingLayers d)
    | None => false
    end in
  let changing := if start then true else changingLayers d in
  let t0 := if start then CHANGING_LAYERS_ANIMATION_TIME
            else changingLayersTime d in
  let t := clamp (t0 - dt i) 0 CHANGING_LAYERS_ANIMATION_TIME in
  if changing && Qle_bool t 0 then
    let ls' := if (1 <? length ls)%nat then removelast ls else ls in
    set_statsUpdated
      (set_products (set_deep s (mkDeep ls' false t))
                    (topLayerOrEmpty ls' (slotCount s)))
      false
  else set_deep s (mkDeep ls changing t).

Definition DeepShelf_update (i : Input) (L : Level) (self : sref)
    : Result Level :=
  do L1 <- Shelf_update DeepShelf_shelfIsComplete i L self;
  match kind (shelfHeap L1 self) with
  | KDeep d =>
      let h := placeLowerLayers (productHeap L1) (layers d) in
      Ret (set_shelf (set_productHeap L1 h) self
             (DeepShelf_update_layers i h (shelfHeap L1 self) d))
  | _ => Ret L1
  end.

(** ** Placement resolution *)

(** A stable sort by a numeric key, as [Array.prototype.sort] with the
    comparator [(a, b) => key(a) - key(b)]. *)
Fixpoint insert_by {A} (key : A -> Q) (x : A) (l : list A) : list A :=
  match l with
  | [] => [x]
  | y :: rest =>
      if Qle_bool (key x) (key y) then x :: y :: rest
      else y :: insert_by key x rest
  end.

Fixpoint sort_by {A} (key : A -> Q) (l : list A) : list A :=
  match l with
  | [] => []
  | x :: rest => insert_by key x (sort_by key rest)
  end.

(** The result [{valid: true, slotIndex, product, distance}] of
    [findShelfSlot]; [{valid: false}] is [None]. *)
Record SlotResult := mkSlot {
  slotIndex : nat;
  occupant : cell;
  distance : Q
}.

Section Placement.

(** The geometry of the moment of release, for the dragged product and
    slot [index] of shelf [r]: whether the two bounding boxes intersect,
    and the distance between their centres. *)
Variable overlaps : loc -> sref -> nat -> bool.
Variable centreDistance : loc -> sref -> nat -> Q.

(** A slot the shelf is willing to take the product in, and that the
    product overlaps. *)
Definition eligibleSlot (st : store) (product : loc) (r : sref)
    (index : nat) : bool :=
  canDropProductAtIndex st r product (Z.of_nat index)
  && overlaps product r index.

Definition Shelf_findShelfSlot (st : store) (r : sref) (product : loc)
    : option SlotResult :=
  let shelfSlots :=
    sort_by distance
      (map (fun index =>
              mkSlot index (js_get (products (st r)) (Z.of_nat index))
                     (centreDistance product r index))
         (List.filter (fun index => overlaps product r index)
            (List.filter
               (fun index =>
                  canDropProductAtIndex st r product (Z.of_nat index))
               (seq 0 (slotCount (st r)))))) in
  head shelfSlots.

(** The wrappers answer [{valid: false}]. *)
Definition findShelfSlot (st : store) (r : sref) (product : loc)
    : option SlotResult :=
  match kind (st r) with
  | KSupply _ | KLocking _ _ _ _ | KDisappearing _ _ _ => None
  | _ => Shelf_findShelfSlot st r product
  end.

Definition Level_isValidDropPosition (L : Level) (product : loc)
    : option (sref * nat) :=
  let results :=
    flat_map
      (fun shelf =>
         match findShelfSlot (shelfHeap L) shelf product with
         | Some result => [(shelf, result)]
         | None => []
         end)
      (shelves L) in
  match sort_by (fun r : sref * SlotResult => distance (snd r)) results with
  | closestResult :: _ => Some (fst closestResult, slotIndex (snd closestResult))
  | [] => None
  end.

(** [if (shelf.reference)]: a non-empty string. *)
Definition hasReference (s : Shelf) : bool :=
  match reference s with
  | Some EmptyString | None => false
  | Some _ => true
  end.

Definition logPlacement (s : Stats) (e : sref * Z * loc) : Stats :=
  mkStats (time s) (productMatches s) (totalMatches s) (completedShelves s)
          (totalCompletedShelves s) (productPlacements s ++ [e])
          (currentProductPlacement s).

Definition set_dragging (p : Product) (b : bool) : Product :=
  {| id := id p; matches := matches p; locked := locked p;
     dragging := b;
     disappearing := disappearing p;
     startedDisappearing := startedDisappearing p;
     finishedDisappearing := finishedDisappearing p;
     disappearingTime := disappearingTime p;
     disappearingDelay := disappearingDelay p |}.

(** The two shelf mutations of a valid drop. *)
Definition moveProduct (st : store) (origin : sref) (originSlot : Z)
    (destination : sref) (destinationSlot : nat) (product : loc) : store :=
  let st1 :=
    store_set st origin (snd (removeProductAtIndex (st origin) originSlot)) in
  store_set st1 destination
    (snd (addProductAtIndex (st1 destination) (Z.of_nat destinationSlot)
                            product)).

Definition Level_finishDraggingProduct (L : Level) : Level :=
  match draggingProduct L with
  | None => L
  | Some (origin, originSlot, product) =>
      let L1 :=
        match Level_isValidDropPosition L product with
        | Some (destination, destinationSlot) =>
            let st :=
              moveProduct (shelfHeap L) origin originSlot destination
                          destinationSlot product in
            let L' := set_shelfHeap L st in
            if hasReference (st destination)
            then set_stats L'
                   (logPlacement (stats L')
                      (destination, Z.of_nat destinationSlot, product))
            else L'
        | None => L
        end in
      set_draggingProduct
        (set_product L1 product
           (set_dragging (productHeap L1 product) false))
        None
  end.

End Placement.

(** * Predicates of the specification *)

(** Every member matches every member that joined the group before it. *)
Definition eachMatchesEarlier (h : heap) (g : list loc) : Prop :=
  forall (i j : nat) (x y : loc),
    (i < j)%nat -> g !! i = Some x -> g !! j = Some y ->
    Product_matchesProduct h y x = true.

(** Every two different members match, in both directions. *)
Definition allPairsMatch (h : heap) (g : list loc) : Prop :=
  forall x y : loc, In x g -> In y g -> x <> y ->
    Product_matchesProduct h x y = true.

(** The match relation is symmetric among the products of a list. *)
Definition symmetricAmong (h : heap) (l : list loc) : Prop :=
  forall x y : loc, In x l -> In y l ->
    Product_matchesProduct h x y = true -> Product_matchesProduct h y x = true.

(** What growing a group keeps: its members are different products of the
    available ones, and each matches the earlier ones. *)
Definition groupInv (h : heap) (avail : list loc) (g : list loc) : Prop :=
  NoDup g /\ (forall p, In p g -> In p avail) /\ eachMatchesEarlier h g.

(** The match group as the specification words it: of length [matchCount],
    drawn from the products of the shelf that are not disappearing, and
    with every two members matching. *)
Definition matchGroupAllPairs : Prop :=
  forall (h : heap) (s : Shelf) (g : list loc),
    found (Shelf_checkForMatches h s) = true ->
    matched (Shelf_checkForMatches h s) = Some g ->
    length g = matchCount s
    /\ (forall p, In p g -> In (Prod p) (products s) /\ disappearing (h p) = false)
    /\ allPairsMatch h g.

(** [products.length == slotCount] *)
Definition lengthInvariant (s : Shelf) : Prop :=
  length (products s) = slotCount s.

(** * Concrete inputs *)

Definition noProduct : Product := Product_new "" [].

Definition noShelf : Shelf :=
  mkShelf [] 0 0 false None false false None None KShelf.

Definition emptyStats : Stats := mkStats 0 ∅ 0 ∅ 0 [] [].

(** A level before any actor is created. *)
Definition emptyLevel : Level :=
  mkLevel (fun _ => noProduct) 0%nat (fun _ => noShelf) 0%nat [] None
          emptyStats None false.

Definition plainShelf (ps : list cell) (slots matchN : nat) : Shelf :=
  mkShelf ps slots matchN false None false false None None KShelf.

(** Product 1 lists product 0 among its matches; product 0 lists nothing. *)
Definition oneWayHeap : heap :=
  fun l => match l with
           | O => Product_new "a" []
           | _ => Product_new "b" ["a"]
           end.

Definition oneWayShelf : Shelf := plainShelf [Prod 0%nat; Prod 1%nat] 2 2.

(** Three products of one kind, which matches itself. *)
Definition applesHeap : heap := fun _ => Product_new "apple" ["apple"].

Definition applesShelf : Shelf :=
  plainShelf [Prod 0%nat; Prod 1%nat; Prod 2%nat] 3 3.

(** A level with one empty three-slot shelf, and the same shelf wrapped in
    a supply shelf. *)
Definition oneShelfLevel : Level :=
  snd (Shelf_constructor emptyLevel [Null; Null; Null] 3 3 false None true KShelf).

Definition suppliedLevel : sref * Level :=
  SupplyShelf_constructor oneShelfLevel 0%nat.

(** The object a constructor call returns. *)
Definition constructed (r : sref * Level) : Shelf := shelfHeap (snd r) (fst r).

(** A deep shelf without layers, as [new DeepShelf(level, [])] leaves it. *)
Definition emptyDeepShelf : Shelf :=
  constructed (DeepShelf_constructor emptyLevel [] 3 3 false None).


(** A level whose statistics count [n] completed shelves. *)
Definition levelWithCompleted (n : Z) : Level :=
  set_stats emptyLevel (mkStats 0 ∅ 0 ∅ n [] []).

(** A level with one shelf, of reference "target", holding product 0 in
    slot 0; [placements] is the placement log and [current] the snapshot of
    the current placements. *)
Definition targetShelf : Shelf :=
  mkShelf [Prod 0%nat; Null; Null] 3 3 false (Some "target") false false
          None None KShelf.

Definition levelWithPlacements (placements : list (sref * Z * loc))
    (current : list (string * PlacementSnapshot)) : Level :=
  mkLevel applesHeap 1%nat (store_set (fun _ => noShelf) 0%nat targetShelf)
          1%nat [0%nat] None
          (mkStats 1 ∅ 0 ∅ 0 placements current) None false.

(** The counter [stats.productMatches[pid].total]; 0 when there is none. *)
Definition matchTotal (s : Stats) (pid : string) : Z :=
  match productMatches s !! pid with
  | Some (_, total) => total
  | None => 0
  end.

(** How many products of a group have the identifier [pid]. *)
Definition countOfId (h : heap) (pid : string) (group : list loc) : Z :=
  Z.of_nat (length (List.filter (fun p => String.eqb (id (h p)) pid) group)).

(** The identifier of product [p] has its entry in [stats.productMatches].
    The constructor of [Level] makes one entry for every identifier of the
    product definitions, from which all products are created. *)
Definition productRegistered (L : Level) (p : loc) : Prop :=
  is_Some (productMatches (stats L) !! id (productHeap L p)).

(** Two product stores that agree on what matching reads. *)
Definition sameMatching (h h' : heap) : Prop :=
  forall p : loc,
    id (h' p) = id (h p)
    /\ matches (h' p) = matches (h p)
    /\ disappearing (h' p) = disappearing (h p)
    /\ (disappearing (h p) = false ->
        finishedDisappearing (h' p) = finishedDisappearing (h p)).

(** What happens to a deep shelf: a tick, or a product placed in or taken
    from a slot of its top layer. *)
Inductive ShelfOp :=
  | Tick (i : Input)
  | AddProduct (index : Z) (product : loc)
  | RemoveProduct (index : Z).

Definition DeepShelf_step (op : ShelfOp) (L : Level) (self : sref)
    : Result Level :=
  match op with
  | Tick i => DeepShelf_update i L self
  | AddProduct index product =>
      Ret (set_shelf L self
             (snd (addProductAtIndex (shelfHeap L self) index product)))
  | RemoveProduct index =>
      Ret (set_shelf L self
             (snd (removeProductAtIndex (shelfHeap L self) index)))
  end.

Fixpoint DeepShelf_run (ops : list ShelfOp) (L : Level) (self : sref)
    : Result Level :=
  match ops with
  | [] => Ret L
  | op :: rest =>
      do L1 <- DeepShelf_step op L self; DeepShelf_run rest L1 self
  end.

(** The layers of a deep shelf. *)
Definition deepLayers (s : Shelf) : list (list cell) :=
  match kind s with
  | KDeep d => layers d
  | _ => []
  end.

Definition isDeep (s : Shelf) : Prop := exists d, kind s = KDeep d.

(** No cell of the layer holds a product. *)
Definition holdsNoProduct (layer : list cell) : Prop :=
  forall (c : cell), In c layer -> forall p, c <> Prod p.

(** The cells of a shelf: its products and, for a deep shelf, its layers. *)
Definition cellsOf (s : Shelf) : list cell :=
  products s ++ concat (deepLayers s).

(** Every product the shelf holds has its statistics entry. *)
Definition shelfRegistered (L : Level) (self : sref) : Prop :=
  forall p, In (Prod p) (cellsOf (shelfHeap L self)) -> productRegistered L p.

(** A product that is placed has its statistics entry. *)
Definition opRegistered (L : Level) (op : ShelfOp) : Prop :=
  match op with
  | AddProduct _ product => productRegistered L product
  | _ => True
  end.

(** A step keeps the identifier of every product and the entries of
    [stats.productMatches]. *)
Definition keepsProducts (L L' : Level) : Prop :=
  (forall p, id (productHeap L' p) = id (productHeap L p))
  /\ (forall pid, is_Some (productMatches (stats L) !! pid) ->
                  is_Some (productMatches (stats L') !! pid)).

(** A deep shelf of two layers whose top layer is empty. *)
Definition twoLayerShelf : Shelf :=
  mkShelf [Null; Null; Null] 3 3 false None false false None None
          (KDeep (mkDeep [[Prod 0%nat; Prod 1%nat; Null]; [Null; Null; Null]]
                         false 0)).

Definition appleStats : Stats :=
  mkStats 0 {[ "apple" := (9%nat, 0) ]} 0 ∅ 0 [] [].

Definition twoLayerLevel : Level :=
  mkLevel applesHeap 3%nat (store_set (fun _ => noShelf) 0%nat twoLayerShelf)
          1%nat [0%nat] None appleStats None false.

Definition applesLevel : Level :=
  mkLevel applesHeap 3%nat (store_set (fun _ => noShelf) 0%nat applesShelf)
          1%nat [0%nat] None appleStats None false.

(** A tick of [seconds] with the pointer at rest. *)
Definition idleTick (seconds : Q) : Input :=
  mkInput seconds false false (fun _ => false).

(** A level of two shelves: shelf 0 holds product 0 in slot 0, which is
    being dragged; shelf 1, of reference "target", is empty. *)
Definition twoShelfLevel : Level :=
  mkLevel applesHeap 3%nat
    (store_set
       (store_set (fun _ => noShelf) 0%nat
                  (plainShelf [Prod 0%nat; Null; Null] 3 3))
       1%nat
       (mkShelf [Null; Null; Null] 3 3 false (Some "target") false false
                None None KShelf))
    2%nat [0%nat; 1%nat] (Some (0%nat, 0, 0%nat)) appleStats None false.

(** The dragged product overlaps slots 1 and 2 of shelf 1, and is nearer
    to slot 1. *)
Definition overSecondShelf (_ : loc) (r : sref) (index : nat) : bool :=
  Nat.eqb r 1 && (Nat.eqb index 1 || Nat.eqb index 2).

Definition nearerToSlotOne (_ : loc) (_ : sref) (index : nat) : Q :=
  if Nat.eqb index 1 then 1 # 4 else 3 # 4.

(** The dragged product overlaps no slot. *)
Definition overNothing (_ : loc) (_ : sref) (_ : nat) : bool := false.

(** * Further code of the cited files *)

From Stdlib Require Import Lqa.

(** ** The life of a product over several ticks *)

(** The product over a sequence of ticks; each tick comes with the answer
    of [shelf.canPickUpProductAtIndex] at that moment. *)
Fixpoint Product_ticks (self : loc) (ticks : list (Input * bool))
    (p : Product) : Product :=
  match ticks with
  | [] => p
  | t :: rest =>
      Product_ticks self rest (fst (Product_update (fst t) self (snd t) p))
  end.

(** The stages of the disappearing animation: the product is
    disappearing; its animation time is within its bounds; until the
    animation has started the time is the full animation time and the
    product has not finished; the product has finished exactly when the
    time has run out; and the animation has started only when the delay
    has run out. *)
Definition disappearingInv (p : Product) : Prop :=
  disappearing p = true
  /\ (0 <= disappearingTime p <= DISAPPEARING_ANIMATION_TIME)%Q
  /\ (startedDisappearing p = false ->
      disappearingTime p = DISAPPEARING_ANIMATION_TIME
      /\ finishedDisappearing p = false)
  /\ (finishedDisappearing p = true <-> (disappearingTime p <= 0)%Q)
  /\ (startedDisappearing p = true -> (disappearingDelay p <= 0)%Q).

(** ** ClosingShelf.update and DisplayShelf.update *)

Definition CLOSING_TIME : Q := 1 # 2.
Definition COMPLETING_TIME : Q := 1 # 2.

(** [this.shelfIsComplete()] when [this] is a closing shelf. *)
Definition ClosingShelf_shelfIsComplete (s : Shelf) : bool :=
  match kind s with
  | KClosing closed _ _ => closed
  | _ => Shelf_shelfIsEmpty s
  end.

(** [ClosingShelf.update]: the products are updated, a match closes the
    shelf, the closing animation advances, and the statistics are
    refreshed as in [Shelf.update]. Nothing is removed and nothing is made
    to disappear. *)
Definition ClosingShelf_update (i : Input) (L : Level) (self : sref)
    : Result Level :=
  match kind (shelfHeap L self) with
  | KClosing closed closingTime finishedClosing =>
      let L1 := updateProducts i self 0 (products (shelfHeap L self)) L in
      let s1 := shelfHeap L1 self in
      let m := Shelf_checkForMatches (productHeap L1) s1 in
      let closed1 := if found m then true else closed in
      let t := if closed1 then clamp (closingTime + dt i) 0 CLOSING_TIME
               else closingTime in
      let fin := if closed1 && Qle_bool CLOSING_TIME t then true
                 else finishedClosing in
      Shelf_update_stats ClosingShelf_shelfIsComplete m
        (set_shelf L1 self (set_kind s1 (KClosing closed1 t fin))) self
  | _ => Ret L
  end.

(** [this.allowed.forEach(product => product.positionImmediate = ...)] *)
Definition placeAllowed (h : heap) (allowed : list (option loc)) : heap :=
  fold_left
    (fun h' a => match a with
                 | Some p => heap_set h' p (Product_positionImmediate (h' p))
                 | None => h'
                 end)
    allowed h.

(** [this.shelfIsComplete()] when [this] is a display shelf. *)
Definition DisplayShelf_shelfIsComplete (s : Shelf) : bool :=
  match kind s with
  | KDisplay _ completed _ _ => completed
  | _ => Shelf_shelfIsEmpty s
  end.

(** [DisplayShelf.update]: the allowed products are put in place, the
    products are updated, a match completes the shelf, the completing
    animation advances, and the statistics are refreshed. *)
Definition DisplayShelf_update (i : Input) (L : Level) (self : sref)
    : Result Level :=
  match kind (shelfHeap L self) with
  | KDisplay allowed completed completingTime finishedCompleting =>
      let L0 := set_productHeap L (placeAllowed (productHeap L) allowed) in
      let L1 := updateProducts i self 0 (products (shelfHeap L0 self)) L0 in
      let s1 := shelfHeap L1 self in
      let m := DisplayShelf_checkForMatches (productHeap L1) allowed
                                            (products s1) in
      let completed1 := if found m then true else completed in
      let t := if completed1
               then clamp (completingTime + dt i) 0 COMPLETING_TIME
               else completingTime in
      let fin := if completed1 && Qle_bool COMPLETING_TIME t then true
                 else finishedCompleting in
      Shelf_update_stats DisplayShelf_shelfIsComplete m
        (set_shelf L1 self (set_kind s1 (KDisplay allowed completed1 t fin)))
        self
  | _ => Ret L
  end.

(** No tick can start a drag from the shelf: it answers no to every
    pick-up. *)
Definition refusesPickUp (st : store) (r : sref) : Prop :=
  forall (product : loc) (index : Z),
    canPickUpProductAtIndex st r product index = false.

(** The shelf takes no product: it answers no to every drop. *)
Definition refusesDrop (st : store) (r : sref) : Prop :=
  forall (product : loc) (index : Z),
    canDropProductAtIndex st r product index = false.

(** ** The top layer of a deep shelf *)

(** The slots of the shelf read as those of its top layer (as [null]s when
    there is no layer). *)
Definition topLayerSynced (s : Shelf) : Prop :=
  products s = topLayerOrEmpty (deepLayers s) (slotCount s).

(** ** The wrappers: update and shelfIsComplete by delegation *)

Definition LOCKING_TIME : Q := 3 # 10.

(** [DisappearingShelf.DISAPPEARING_ANIMATION_TIME] *)
Definition SHELF_DISAPPEARING_ANIMATION_TIME : Q := 1 # 2.

Definition set_disposed (s : Shelf) (b : bool) : Shelf :=
  mkShelf (products s) (slotCount s) (matchCount s) (ignore s) (reference s)
          (statsUpdated s) b (canDropOverride s) (canPickUpOverride s)
          (kind s).

(** A chain of calls longer than the engine allows ends in a [RangeError];
    [depth] below is the number of calls still allowed. *)
Definition stackOverflow {A} : Result A :=
  Throw (Error "Maximum call stack size exceeded").

(** [shelf.shelfIsComplete()], by the class of the object: the wrappers
    ask the shelf they wrap. *)
Fixpoint shelfIsComplete (depth : nat) (st : store) (r : sref) : Result bool :=
  match depth with
  | O => stackOverflow
  | S depth' =>
      match kind (st r) with
      | KShelf => Ret (Shelf_shelfIsEmpty (st r))
      | KClosing _ _ _ => Ret (ClosingShelf_shelfIsComplete (st r))
      | KDisplay _ _ _ _ => Ret (DisplayShelf_shelfIsComplete (st r))
      | KDeep _ => Ret (DeepShelf_shelfIsComplete (st r))
      | KSupply shelf | KLocking shelf _ _ _ | KDisappearing shelf _ _ =>
          shelfIsComplete depth' st shelf
      end
  end.

(** [LockingShelf.update] after the wrapped shelf has been updated: the
    condition is evaluated and the locking animation advances. *)
Definition LockingShelf_update_own (i : Input) (L : Level) (self : sref)
    : Result Level :=
  match kind (shelfHeap L self) with
  | KLocking shelf locking _ lockingTime =>
      do isLocked <- LockingShelf_shelfIsLocked L locking;
      let t := clamp (lockingTime + (if isLocked then dt i else - dt i)) 0
                     LOCKING_TIME in
      Ret (set_shelf L self
             (set_kind (shelfHeap L self) (KLocking shelf locking isLocked t)))
  | _ => Ret L
  end.

(** [DisappearingShelf.update] after the wrapped shelf has been updated:
    a complete shelf starts to disappear, which is counted, and at the end
    of the animation the wrapper and the wrapped shelf are disposed of. *)
Definition DisappearingShelf_update_own (depth : nat) (i : Input) (L : Level)
    (self : sref) : Result Level :=
  match kind (shelfHeap L self) with
  | KDisappearing shelf isDisappearing disappearingTimer =>
      do complete <- shelfIsComplete depth (shelfHeap L) self;
      let start := complete && negb isDisappearing in
      let L1 := if start then set_stats L (countCompletedShelf (stats L))
                else L in
      if start || isDisappearing then
        let t := clamp ((if start then SHELF_DISAPPEARING_ANIMATION_TIME
                         else disappearingTimer) - dt i)
                       0 SHELF_DISAPPEARING_ANIMATION_TIME in
        let L2 := set_shelf L1 self
                    (set_kind (shelfHeap L1 self) (KDisappearing shelf true t)) in
        if Qle_bool t 0 then
          let L3 := set_shelf L2 shelf (set_disposed (shelfHeap L2 shelf) true) in
          Ret (set_shelf L3 self (set_disposed (shelfHeap L3 self) true))
        else Ret L2
      else Ret L1
  | _ => Ret L
  end.

(** [shelf.update(dt, level, camera)], by the class of the object. A
    wrapper first updates the shelf it wraps. *)
Fixpoint update (depth : nat) (i : Input) (L : Level) (self : sref)
    : Result Level :=
  match depth with
  | O => stackOverflow
  | S depth' =>
      match kind (shelfHeap L self) with
      | KShelf => Shelf_update Shelf_shelfIsEmpty i L self
      | KClosing _ _ _ => ClosingShelf_update i L self
      | KDisplay _ _ _ _ => DisplayShelf_update i L self
      | KDeep _ => DeepShelf_update i L self
      | KSupply shelf => update depth' i L shelf
      | KLocking shelf _ _ _ =>
          do L1 <- update depth' i L shelf;
          LockingShelf_update_own i L1 self
      | KDisappearing shelf _ _ =>
          do L1 <- update depth' i L shelf;
          DisappearingShelf_update_own depth' i L1 self
      end
  end.

(** The shelf a wrapper wraps. *)
Definition wrapped (s : Shelf) : option sref :=
  match kind s with
  | KSupply shelf | KLocking shelf _ _ _ | KDisappearing shelf _ _ => Some shelf
  | _ => None
  end.

(** Every wrapper wraps an older object: the constructors take the shelf
    to wrap as an argument, so it exists before the wrapper does. *)
Definition wrapsOlder (st : store) : Prop :=
  forall r shelf : sref, wrapped (st r) = Some shelf -> (shelf < r)%nat.

(** The errors the rules can raise are [TypeError]s. *)
Definition isTypeError (e : JsError) : Prop :=
  match e with
  | TypeError _ => True
  | Error _ => False
  end.

(** ** Further concrete inputs *)

(** The value of a computation that completed. *)
Definition resultOr {A} (r : Result A) (otherwise : A) : A :=
  match r with
  | Ret a => a
  | Throw _ => otherwise
  end.

(** An empty shelf of three slots. *)
Definition emptyShelf : Shelf := plainShelf [Null; Null; Null] 3 3.

(** A shelf with one apple, on which one product is a match. *)
Definition singleShelf : Shelf := plainShelf [Prod 0%nat; Null; Null] 3 1.

Definition apple : Product := Product_new "apple" ["apple"].

(** Two ticks, of a half and of a quarter of a second. *)
Definition twoTicks : list (Input * bool) :=
  [(idleTick (1 # 2), false); (idleTick (1 # 4), false)].

(** The apple a quarter of a second after [disappear(0.25)]: the delay has
    run out and a quarter of a second of the animation is left. *)
Definition fadingApple : Product :=
  Product_ticks 0%nat [(idleTick (1 # 4), false)]
                (Product_disappear apple (1 # 4)).

(** A tick in which the mouse button goes down over product [p]. *)
Definition pressOn (p : loc) : Input :=
  mkInput (1 # 60) true true (Nat.eqb p).

(** The level of the three apples after one tick, idle or with the mouse
    pressed on product 0. *)
Definition applesLevelTicked : Level :=
  resultOr (Shelf_update Shelf_shelfIsEmpty (idleTick (1 # 60)) applesLevel
                         0%nat) applesLevel.

Definition applesLevelPressed : Level :=
  resultOr (Shelf_update Shelf_shelfIsEmpty (pressOn 0%nat) applesLevel 0%nat)
           applesLevel.

(** The same level with the statistics of the shelf up to date. *)
Definition countedLevel : Level :=
  set_shelf applesLevel 0%nat (set_statsUpdated applesShelf true).

(** A closing shelf with the three apples, still open, and the level
    after one tick. *)
Definition closingLevel : Level :=
  set_shelf applesLevel 0%nat (set_kind applesShelf (KClosing false 0 false)).

Definition closingLevelTicked : Level :=
  resultOr (ClosingShelf_update (idleTick (1 # 60)) closingLevel 0%nat)
           closingLevel.

(** A display shelf that wants an apple in slot 0 and nothing elsewhere,
    and has it; and the level after one tick. *)
Definition displayLevel : Level :=
  set_shelf applesLevel 0%nat
    (set_kind (plainShelf [Prod 0%nat; Null; Null] 3 3)
              (KDisplay [Some 1%nat; None; None] false 0 false)).

Definition displayLevelTicked : Level :=
  resultOr (DisplayShelf_update (idleTick (1 # 60)) displayLevel 0%nat)
           displayLevel.

(** The level of two shelves with a deep shelf without layers in the place
    of the second one. *)
Definition noLayerLevel : Level :=
  set_shelf twoShelfLevel 1%nat emptyDeepShelf.

(** A deep shelf of two layers with a product in each. *)
Definition stockedDeepShelf : Shelf :=
  mkShelf [Null; Prod 1%nat; Null] 3 3 false None false false None None
          (KDeep (mkDeep [[Prod 0%nat; Null; Null]; [Null; Prod 1%nat; Null]]
                         false 0)).

(** One product definition, and a shelf definition with two apples. *)
Definition appleDefs : gmap string (list string) :=
  {[ "apple" := ["apple"] ]}.

Definition twoApplesData : ShelfData :=
  mkShelfData [Some "apple"; None; Some "apple"] None (Some 0%nat) None None.

Definition twoApplesBuilt : sref * Level :=
  resultOr (Shelf_fromData appleDefs emptyLevel twoApplesData)
           (0%nat, emptyLevel).

(** A definition with one product, no slot count and the reference "a",
    and what [Shelf.fromData] builds from it on the empty level. *)
Definition oneAppleData : ShelfData :=
  mkShelfData [Some "apple"] None None None (Some "a").

Definition oneAppleBuilt : sref * Level :=
  resultOr (Shelf_fromData appleDefs emptyLevel oneAppleData)
           (0%nat, emptyLevel).

(** A run of ticks, removals and a placement on the deep shelf of two
    layers, and the level after it. *)
Definition deepRun : list ShelfOp :=
  [Tick (idleTick 1); RemoveProduct 0; RemoveProduct 1;
   Tick (idleTick (1 # 10)); AddProduct 2 2%nat; Tick (idleTick 1)].

Definition twoLayerLevelRun : Level :=
  resultOr (DeepShelf_run deepRun twoLayerLevel 0%nat) twoLayerLevel.

(** The level of two shelves with, in the place of the first one, a closed
    closing shelf that holds products 0 and 1; product 0 is being dragged
    (it was picked up before the shelf closed). *)
Definition closedOriginLevel : Level :=
  set_shelf twoShelfLevel 0%nat
    (set_kind (plainShelf [Prod 0%nat; Prod 1%nat; Null] 3 3)
              (KClosing true (1 # 2) true)).

(** The level with one empty shelf, wrapped in a disappearing shelf and in
    a locking shelf; the wrapper is object 1. *)
Definition disappearingLevel : Level :=
  snd (DisappearingShelf_constructor oneShelfLevel 0%nat).

Definition lockingLevel : Level :=
  snd (LockingShelf_constructor oneShelfLevel 0%nat (CompleteShelves 1)).

Definition disappearingLevelTicked : Level :=
  resultOr (update 3 (idleTick (1 # 60)) disappearingLevel 1%nat)
           disappearingLevel.

Definition lockingLevelTicked : Level :=
  resultOr (update 2 (idleTick (1 # 60)) lockingLevel 1%nat) lockingLevel.

(** * Properties *)

(** ** Product.disappear *)

(** A tick leaves a product that is disappearing in that state. *)
Lemma Product_update_disappearing (i : Input) (self : loc) (c : bool)
    (p : Product) :
  disappearing (fst (Product_update i self c p)) = disappearing p.
Proof.
  unfold Product_update, Product_updateDisappearing. cbn.
  now destruct (disappearing p).
Qed.

Lemma Product_ticks_disappearing (self : loc) (ticks : list (Input * bool))
    (p : Product) :
  disappearing (Product_ticks self ticks p) = disappearing p.
Proof.
  revert p. induction ticks as [|t rest IH]; intros p; cbn [Product_ticks];
    [reflexivity |].
  rewrite IH. apply Product_update_disappearing.
Qed.

(** C10. [Product.disappear] on a product that is already disappearing
    changes nothing, whatever the delay argument: the product keeps every
    field, its timer, its delay and its started and finished flags
    included. So a second call right after the first leaves the product as
    the first call made it, and so does a call at any later moment of the
    animation, after any ticks. The first call on a product that was not
    disappearing is the one that sets the full animation time, the delay
    and the two flags. *)
Theorem Product_disappear_idempotent (p : Product) (delay1 delay2 : Q)
    (self : loc) (ticks : list (Input * bool)) :
  (disappearing p = true -> Product_disappear p delay2 = p)
  /\ Product_disappear (Product_disappear p delay1) delay2
     = Product_disappear p delay1
  /\ Product_disappear
       (Product_ticks self ticks (Product_disappear p delay1)) delay2
     = Product_ticks self ticks (Product_disappear p delay1)
  /\ (disappearing p = false ->
      disappearing (Product_disappear p delay1) = true
      /\ startedDisappearing (Product_disappear p delay1) = false
      /\ finishedDisappearing (Product_disappear p delay1) = false
      /\ disappearingTime (Product_disappear p delay1)
         = DISAPPEARING_ANIMATION_TIME
      /\ disappearingDelay (Product_disappear p delay1) = delay1).
Proof.
  assert (Hguard : forall (q : Product) (delay : Q),
             disappearing q = true -> Product_disappear q delay = q).
  { intros q delay Hq. unfold Product_disappear. now rewrite Hq. }
  assert (Hfirst : disappearing (Product_disappear p delay1) = true).
  { unfold Product_disappear. destruct (disappearing p) eqn:E; [exact E |].
    reflexivity. }
  split; [apply Hguard |].
  split; [now apply Hguard |].
  split.
  - apply Hguard. now rewrite Product_ticks_disappearing.
  - intros Hp. unfold Product_disappear. rewrite Hp. cbn. auto.
Qed.

Lemma Product_disappear_idempotent_witness :
  disappearing fadingApple = true
  /\ startedDisappearing fadingApple = true
  /\ finishedDisappearing fadingApple = false
  /\ (disappearingTime fadingApple == 1 # 4)%Q
  /\ Product_disappear fadingApple 5 = fadingApple.
Proof.
  split; [vm_compute; reflexivity |].
  split; [vm_compute; reflexivity |].
  split; [vm_compute; reflexivity |].
  split; [vm_compute; reflexivity |].
  apply (proj1 (Product_disappear_idempotent fadingApple 0 5 0%nat [])).
  vm_compute; reflexivity.
Defined.

(** ** The matching algorithm *)

Lemma includes_In (g : list loc) (p : loc) : includes g p = true <-> In p g.
Proof.
  unfold includes. rewrite existsb_exists. split.
  - intros (x & Hx & Heq). apply Nat.eqb_eq in Heq. now subst.
  - intros H. exists p. split; [assumption | apply Nat.eqb_refl].
Qed.

Lemma matchingProducts_In (h : heap) (g avail : list loc) (c : loc) :
  In c (matchingProducts h g avail) ->
  In c avail /\ ~ In c g
  /\ forall x, In x g -> Product_matchesProduct h c x = true.
Proof.
  unfold matchingProducts. rewrite filter_In, andb_true_iff, negb_true_iff.
  intros (Hin & Hnot & Hall). split; [assumption | split].
  - intros Hc. apply includes_In in Hc. congruence.
  - now apply forallb_forall.
Qed.

(** [growMatchingGroup] as the source writes it: stop at [matchCount]
    members or when no candidate is left, else go on with the first
    candidate appended. *)
Lemma Shelf_growMatchingGroup_eq (h : heap) (matchCount : nat)
    (currentGroup available : list loc) :
  Shelf_growMatchingGroup h matchCount currentGroup available
  = if (matchCount <=? length currentGroup)%nat then currentGroup
    else match matchingProducts h currentGroup available with
         | [] => currentGroup
         | first :: _ =>
             Shelf_growMatchingGroup h matchCount (currentGroup ++ [first])
                                     available
         end.
Proof.
  unfold Shelf_growMatchingGroup.
  destruct (matchCount <=? length currentGroup)%nat eqn:E.
  - apply Nat.leb_le in E.
    now replace (matchCount - length currentGroup)%nat with 0%nat by lia.
  - apply Nat.leb_gt in E.
    destruct (matchCount - length currentGroup)%nat as [|need] eqn:En; [lia |].
    cbn [grow].
    destruct (matchingProducts h currentGroup available) as [|first rest];
      [reflexivity |].
    rewrite length_app. cbn [length].
    now replace (matchCount - (length currentGroup + 1))%nat with need by lia.
Qed.

Section Grow.
Variable h : heap.
Variable avail : list loc.

Lemma groupInv_seed (start : loc) : In start avail -> groupInv h avail [start].
Proof.
  intros Hin. split; [| split].
  - apply NoDup_singleton.
  - intros p [<- | []]. assumption.
  - intros i j x y Hij Hi Hj.
    destruct j as [|j]; [lia |]. cbn in Hj. now destruct j.
Qed.

Lemma groupInv_snoc (g : list loc) (c : loc) :
  groupInv h avail g -> In c (matchingProducts h g avail) -> groupInv h avail (g ++ [c]).
Proof.
  intros (Hnd & Hsub & Hord) Hc.
  apply matchingProducts_In in Hc as (Hav & Hfresh & Hall).
  split; [| split].
  - apply NoDup_app. split; [| split].
    + assumption.
    + intros x Hx [Heq | []]%list_elem_of_In. subst.
      apply Hfresh. now apply list_elem_of_In.
    + apply NoDup_singleton.
  - intros p [Hp | [<- | []]]%in_app_or; auto.
  - intros i j x y Hij Hi Hj.
    destruct (decide (j < length g)%nat) as [Hlt | Hge].
    + rewrite lookup_app_l in Hi, Hj by lia. eauto.
    + rewrite lookup_app_l in Hi
        by (apply lookup_lt_Some in Hj; rewrite length_app in Hj; cbn in Hj; lia).
      rewrite lookup_app_r in Hj by lia.
      destruct (j - length g)%nat eqn:E; cbn in Hj; [| now destruct n].
      injection Hj as <-. apply Hall.
      apply list_elem_of_In, list_elem_of_lookup. eauto.
Qed.

Lemma grow_groupInv (need : nat) (g : list loc) :
  groupInv h avail g -> groupInv h avail (grow h need g avail).
Proof.
  revert g. induction need as [|need IH]; intros g Hg; cbn; [assumption |].
  destruct (matchingProducts h g avail) as [|c rest] eqn:E; [assumption |].
  apply IH, groupInv_snoc; [assumption |]. rewrite E. now left.
Qed.

Lemma groupInv_firstn (n : nat) (g : list loc) :
  groupInv h avail g -> groupInv h avail (firstn n g).
Proof.
  intros (Hnd & Hsub & Hord). split; [| split].
  - eapply sublist_NoDup; [eassumption | apply sublist_take].
  - intros p Hp. apply Hsub.
    apply list_elem_of_In, elem_of_take in Hp as (i & Hi & _).
    apply list_elem_of_In, list_elem_of_lookup. eauto.
  - intros i j x y Hij Hi Hj.
    apply lookup_take_Some in Hi as [Hi _].
    apply lookup_take_Some in Hj as [Hj _]. eauto.
Qed.

Lemma findMatchingGroups_loop_spec (matchCount : nat) (starts : list loc)
    (g : list loc) :
  (forall p, In p starts -> In p avail) ->
  In g (findMatchingGroups_loop h matchCount starts avail) ->
  length g = matchCount /\ groupInv h avail g.
Proof.
  induction starts as [|start rest IH]; intros Hsub Hin; cbn in Hin;
    [destruct Hin |].
  apply in_app_or in Hin as [Hin | Hin].
  - destruct (matchCount <=? length _)%nat eqn:E; [| destruct Hin].
    destruct Hin as [<- | []]. apply Nat.leb_le in E. split.
    + rewrite length_take. lia.
    + apply groupInv_firstn. unfold Shelf_growMatchingGroup.
      apply grow_groupInv, groupInv_seed, Hsub. now left.
  - apply IH; [| assumption]. intros p Hp. apply Hsub. now right.
Qed.
End Grow.

Lemma validProducts_In (h : heap) (ps : list cell) (p : loc) :
  In p (validProducts h ps) <-> In (Prod p) ps /\ disappearing (h p) = false.
Proof.
  unfold validProducts. rewrite in_flat_map. split.
  - intros (c & Hc & Hp). destruct c as [| |q]; try destruct Hp.
    destruct (disappearing (h q)) eqn:E; [destruct Hp |].
    destruct Hp as [<- | []]. auto.
  - intros [Hin Hd]. exists (Prod p). split; [assumption |].
    rewrite Hd. now left.
Qed.

Lemma eachMatchesEarlier_allPairs (h : heap) (g : list loc) :
  NoDup g -> eachMatchesEarlier h g -> symmetricAmong h g -> allPairsMatch h g.
Proof.
  intros Hnd Hord Hsym x y Hx Hy Hne.
  pose proof Hx as Hx'. pose proof Hy as Hy'.
  apply list_elem_of_In, list_elem_of_lookup in Hx' as [i Hi].
  apply list_elem_of_In, list_elem_of_lookup in Hy' as [j Hj].
  destruct (lt_eq_lt_dec i j) as [[Hlt | Heq] | Hgt].
  - apply Hsym; [assumption | assumption |]. eapply Hord; eauto.
  - subst j. congruence.
  - eapply Hord; eauto.
Qed.

(** C1 (amended). When [Shelf.checkForMatches] reports a match, the group
    has exactly [matchCount] members, all different; they are products of
    the shelf that are not disappearing; and every member matches every
    member that joined the group before it. Where matching is symmetric
    among the members, every two of them match. *)
Theorem Shelf_checkForMatches_group (h : heap) (s : Shelf) :
  found (Shelf_checkForMatches h s) = true ->
  exists g : list loc,
    matched (Shelf_checkForMatches h s) = Some g
    /\ length g = matchCount s
    /\ NoDup g
    /\ (forall p, In p g -> In (Prod p) (products s) /\ disappearing (h p) = false)
    /\ eachMatchesEarlier h g
    /\ (symmetricAmong h g -> allPairsMatch h g).
Proof.
  unfold Shelf_checkForMatches, Shelf_findMatchingGroups. cbn.
  destruct (findMatchingGroups_loop _ _ _ _) as [|g rest] eqn:E;
    [discriminate |].
  intros _. exists g. split; [reflexivity |].
  destruct (findMatchingGroups_loop_spec h (validProducts h (products s))
              (matchCount s) (validProducts h (products s)) g)
    as (Hlen & Hnd & Hsub & Hord).
  - auto.
  - rewrite E. now left.
  - split; [assumption |]. split; [assumption |]. split; [| split].
    + intros p Hp. apply (validProducts_In h (products s) p). auto.
    + assumption.
    + now apply eachMatchesEarlier_allPairs.
Qed.

Lemma Shelf_checkForMatches_group_witness :
  found (Shelf_checkForMatches applesHeap applesShelf) = true
  /\ exists g : list loc,
       matched (Shelf_checkForMatches applesHeap applesShelf) = Some g
       /\ length g = matchCount applesShelf
       /\ NoDup g
       /\ (forall p, In p g ->
             In (Prod p) (products applesShelf)
             /\ disappearing (applesHeap p) = false)
       /\ eachMatchesEarlier applesHeap g
       /\ (symmetricAmong applesHeap g -> allPairsMatch applesHeap g).
Proof.
  split; [reflexivity |].
  apply (Shelf_checkForMatches_group applesHeap applesShelf). reflexivity.
Defined.

(** C1, as stated, fails: with product 1 matching product 0 and product 0
    matching nothing, a shelf of the two with [matchCount = 2] reports the
    group of product 0 and product 1, and product 0 does not match
    product 1. *)
Lemma Shelf_checkForMatches_one_way : ~ matchGroupAllPairs.
Proof.
  intros H.
  destruct (H oneWayHeap oneWayShelf [0%nat; 1%nat] eq_refl eq_refl)
    as (_ & _ & Hpairs).
  specialize (Hpairs 0%nat 1%nat).
  cbn in Hpairs. discriminate Hpairs; auto.
Qed.

(** ** Slots and their number *)

Lemma invalidIndex_false (s : Shelf) (index : Z) :
  invalidIndex s index = false ->
  0 <= index /\ (Z.to_nat index < slotCount s)%nat.
Proof.
  unfold invalidIndex. rewrite orb_false_iff, Z.ltb_ge, Z.geb_leb, Z.leb_gt.
  lia.
Qed.

Lemma js_set_length (a : list cell) (i : nat) (v : cell) :
  (i < length a)%nat -> length (js_set a i v) = length a.
Proof.
  intros Hlt. unfold js_set.
  destruct (i <? length a)%nat eqn:E.
  - apply length_insert.
  - apply Nat.ltb_ge in E. lia.
Qed.

Lemma store_set_same (st : store) (r : sref) (s : Shelf) :
  store_set st r s r = s.
Proof. unfold store_set. now rewrite Nat.eqb_refl. Qed.

Lemma store_set_other (st : store) (r r' : sref) (s : Shelf) :
  r' <> r -> store_set st r s r' = st r'.
Proof.
  intros Hne. unfold store_set.
  destruct (Nat.eqb r' r) eqn:E; [apply Nat.eqb_eq in E; congruence | reflexivity].
Qed.

Lemma addProductAtIndex_length (s : Shelf) (index : Z) (product : loc) :
  lengthInvariant s -> lengthInvariant (snd (addProductAtIndex s index product)).
Proof.
  unfold lengthInvariant, addProductAtIndex, Shelf_addProductAtIndex,
    DeepShelf_addProductAtIndex.
  intros Hlen.
  destruct (invalidIndex s index) eqn:Ei;
    [destruct (kind s); assumption |].
  apply invalidIndex_false in Ei as [_ Hlt].
  destruct (kind s); destruct (negb _); cbn; try assumption;
    try (rewrite js_set_length; [assumption | lia]).
  destruct (Nat.eqb _ 0); cbn; [assumption |].
  rewrite js_set_length; [assumption | lia].
Qed.

Lemma removeProductAtIndex_length (s : Shelf) (index : Z) :
  lengthInvariant s -> lengthInvariant (snd (removeProductAtIndex s index)).
Proof.
  unfold lengthInvariant, removeProductAtIndex, Shelf_removeProductAtIndex,
    DeepShelf_removeProductAtIndex.
  intros Hlen.
  destruct (invalidIndex s index) eqn:Ei;
    [destruct (kind s); assumption |].
  apply invalidIndex_false in Ei as [_ Hlt].
  destruct (kind s); cbn; try (rewrite js_set_length; [assumption | lia]).
  destruct (Nat.eqb _ 0); cbn; [assumption |].
  rewrite js_set_length; [assumption | lia].
Qed.

(** C3 (amended). A shelf whose [products] array has [slotCount] entries
    keeps that after [addProductAtIndex] and after [removeProductAtIndex].
    The constructor of [Shelf] stores the array and the count it is given:
    the new shelf has [slotCount] entries exactly when it was given that
    many. The supply, locking and disappearing wrappers are constructed
    with an empty [products] array and three slots. *)
Theorem lengthInvariant_preserved :
  (forall (s : Shelf) (index : Z) (product : loc),
      lengthInvariant s ->
      lengthInvariant (snd (addProductAtIndex s index product))
      /\ lengthInvariant (snd (removeProductAtIndex s index)))
  /\ (forall (L : Level) (ps : list cell) (slots matchN : nat) (ign : bool)
             (ref : option string) (addToLevel : bool) (k : ShelfKind),
        lengthInvariant
          (constructed (Shelf_constructor L ps slots matchN ign ref addToLevel k))
        <-> length ps = slots)
  /\ (forall (L : Level) (inner : sref),
        products (constructed (SupplyShelf_constructor L inner)) = []
        /\ slotCount (constructed (SupplyShelf_constructor L inner)) = 3%nat)
  /\ (forall (L : Level) (inner : sref) (locking : LockingMode),
        products (constructed (LockingShelf_constructor L inner locking)) = []
        /\ slotCount (constructed (LockingShelf_constructor L inner locking))
           = 3%nat)
  /\ (forall (L : Level) (inner : sref),
        products (constructed (DisappearingShelf_constructor L inner)) = []
        /\ slotCount (constructed (DisappearingShelf_constructor L inner))
           = 3%nat).
Proof.
  split; [| split; [| split; [| split]]].
  - intros s index product Hlen. split.
    + now apply addProductAtIndex_length.
    + now apply removeProductAtIndex_length.
  - intros. unfold constructed, Shelf_constructor, lengthInvariant. cbn.
    now rewrite store_set_same.
  - intros L inner.
    unfold constructed, SupplyShelf_constructor, wrapper_super,
      Shelf_constructor.
    cbn. rewrite store_set_same. auto.
  - intros L inner locking.
    unfold constructed, LockingShelf_constructor, wrapper_super,
      Shelf_constructor.
    cbn. rewrite store_set_same. auto.
  - intros L inner.
    unfold constructed, DisappearingShelf_constructor, wrapper_super,
      Shelf_constructor.
    cbn. rewrite store_set_same. auto.
Qed.

Lemma lengthInvariant_preserved_witness :
  lengthInvariant applesShelf
  /\ lengthInvariant (snd (addProductAtIndex applesShelf 1 7%nat))
  /\ lengthInvariant (snd (removeProductAtIndex applesShelf 1)).
Proof.
  split; [reflexivity |].
  apply (proj1 lengthInvariant_preserved applesShelf 1 7%nat). reflexivity.
Defined.

(** C3, as stated, fails at construction: a supply shelf wrapped around a
    three-slot shelf has an empty [products] array and [slotCount = 3]. *)
Lemma SupplyShelf_constructor_length :
  length (products (constructed suppliedLevel)) = 0%nat
  /\ slotCount (constructed suppliedLevel) = 3%nat
  /\ ~ lengthInvariant (constructed suppliedLevel).
Proof.
  split; [reflexivity | split; [reflexivity |]].
  unfold lengthInvariant. cbn. discriminate.
Qed.

(** Writing past the end of an array leaves holes. On the supply shelf
    above, whose array is empty, [addProductAtIndex] answers [false] (the
    slot reads [undefined], which is not [null]) and
    [removeProductAtIndex] writes [null] at the index, which makes the
    array grow. *)
Example js_set_past_the_end :
  js_set [Null] 3 (Prod 7%nat) = [Null; Hole; Hole; Prod 7%nat]
  /\ addProductAtIndex (constructed suppliedLevel) 1 7%nat
     = (false, constructed suppliedLevel)
  /\ products (snd (removeProductAtIndex (constructed suppliedLevel) 1))
     = [Hole; Null].
Proof. repeat split. Qed.

(** ** Operations that do not apply *)

Lemma lockCell_Null (h : heap) (b : bool) : lockCell h Null b = Ret (None, h).
Proof. reflexivity. Qed.

(** The calls that answer without an error. [addProductAtIndex] with an
    index out of range, or on a slot that does not hold [null], answers
    [false] and leaves the shelf as it was; [removeProductAtIndex] with an
    index out of range answers [null] and leaves the shelf as it was;
    [lockProductAtIndex] with an index out of range, or on a slot that
    holds [null], answers [null] and changes no product (on a deep shelf
    with at least one slot the index counts through the layers); a deep
    shelf without layers answers [false] to every [addProductAtIndex] and
    [null] to every [removeProductAtIndex] and stays as it was. *)
Theorem rule_violations_are_noops :
  (forall (s : Shelf) (index : Z) (product : loc),
      invalidIndex s index = true \/ js_get (products s) index <> Null ->
      addProductAtIndex s index product = (false, s))
  /\ (forall (s : Shelf) (index : Z),
        invalidIndex s index = true ->
        removeProductAtIndex s index = (Null, s))
  /\ (forall (h : heap) (s : Shelf) (index : Z) (lockedArg : bool),
        (forall d, kind s <> KDeep d) ->
        invalidIndex s index = true \/ js_get (products s) index = Null ->
        lockProductAtIndex h s index lockedArg = Ret (None, h))
  /\ (forall (h : heap) (s : Shelf) (d : DeepState) (index : Z)
             (lockedArg : bool),
        kind s = KDeep d -> slotCount s <> 0%nat ->
        index < 0
        \/ Z.of_nat (slotCount s) * Z.of_nat (length (layers d)) <= index
        \/ js_get (nth (Z.to_nat (index / Z.of_nat (slotCount s))) (layers d) [])
                  (index mod Z.of_nat (slotCount s)) = Null ->
        lockProductAtIndex h s index lockedArg = Ret (None, h))
  /\ (forall (s : Shelf) (d : DeepState) (index : Z) (product : loc),
        kind s = KDeep d -> layers d = [] ->
        addProductAtIndex s index product = (false, s)
        /\ removeProductAtIndex s index = (Null, s)).
Proof.
  split; [| split; [| split; [| split]]].
  - intros s index product H.
    unfold addProductAtIndex, Shelf_addProductAtIndex,
      DeepShelf_addProductAtIndex.
    destruct (invalidIndex s index) eqn:Ei; [now destruct (kind s) |].
    destruct H as [H | H]; [discriminate |].
    destruct (js_get (products s) index) eqn:Eg; try congruence;
      now destruct (kind s).
  - intros s index H.
    unfold removeProductAtIndex, Shelf_removeProductAtIndex,
      DeepShelf_removeProductAtIndex.
    rewrite H. now destruct (kind s).
  - intros h s index lockedArg Hk H.
    unfold lockProductAtIndex, Shelf_lockProductAtIndex.
    destruct (kind s) eqn:Ek; try (now exfalso; eapply Hk);
      (destruct (invalidIndex s index); [reflexivity |];
       destruct H as [H | H]; [discriminate | now rewrite H]).
  - intros h s d index lockedArg Hk Hs H.
    unfold lockProductAtIndex, DeepShelf_lockProductAtIndex. rewrite Hk.
    destruct (Nat.eqb (slotCount s) 0) eqn:E0;
      [apply Nat.eqb_eq in E0; congruence |].
    set (n := Z.of_nat (slotCount s)) in *.
    assert (Hn : 0 < n) by (subst n; lia).
    destruct (index <? 0) eqn:Eneg.
    + apply Z.ltb_lt in Eneg.
      assert (Hl : (index / n <? 0) = true)
        by (apply Z.ltb_lt, Z.div_lt_upper_bound; lia).
      now rewrite Hl.
    + apply Z.ltb_ge in Eneg.
      rewrite Z.rem_mod_nonneg by lia.
      destruct (_ || _ || _ || _) eqn:Ec; [reflexivity |].
      repeat rewrite orb_false_iff in Ec.
      destruct Ec as [[[_ Hlay] _] _].
      rewrite Z.geb_leb, Z.leb_gt in Hlay.
      destruct H as [H | [H | H]]; [lia | | now rewrite H].
      exfalso.
      pose proof (Z.div_mod index n ltac:(lia)).
      pose proof (Z.mod_pos_bound index n Hn).
      nia.
  - intros s d index product Hk Hl.
    unfold addProductAtIndex, removeProductAtIndex,
      DeepShelf_addProductAtIndex, DeepShelf_removeProductAtIndex.
    rewrite Hk, Hl. cbn.
    destruct (invalidIndex s index); [split; reflexivity |].
    destruct (negb _); split; reflexivity.
Qed.

Lemma rule_violations_are_noops_witness :
  addProductAtIndex applesShelf 5 9%nat = (false, applesShelf)
  /\ addProductAtIndex applesShelf 1 9%nat = (false, applesShelf)
  /\ removeProductAtIndex applesShelf (-1) = (Null, applesShelf)
  /\ lockProductAtIndex applesHeap (plainShelf [Null; Prod 1%nat] 2 2) 0 true
     = Ret (None, applesHeap)
  /\ lockProductAtIndex applesHeap
       (set_kind (plainShelf [Null; Null] 2 2)
                 (KDeep (mkDeep [[Prod 0%nat; Null]; [Null; Null]] false 0)))
       1 true
     = Ret (None, applesHeap)
  /\ addProductAtIndex emptyDeepShelf 0 9%nat = (false, emptyDeepShelf)
  /\ removeProductAtIndex emptyDeepShelf 0 = (Null, emptyDeepShelf).
Proof.
  destruct rule_violations_are_noops as (Hadd & Hrem & Hlock & Hdeep & Hempty).
  split; [apply Hadd; left; reflexivity |].
  split; [apply Hadd; right; discriminate |].
  split; [apply Hrem; reflexivity |].
  split; [apply Hlock; [discriminate | right; reflexivity] |].
  split.
  - eapply Hdeep; [reflexivity | discriminate | right; right; reflexivity].
  - apply (Hempty emptyDeepShelf (mkDeep [] false 0)); reflexivity.
Defined.

(** C9 (the code departs from the claim). [lockProductAtIndex] on a slot
    in range that holds no product because it reads [undefined] (the array
    of products is shorter than [slotCount]) raises a [TypeError] instead
    of answering [null]: on every shelf that is not deep, whatever the
    flag. [Shelf.fromData] builds such a shelf from a definition with
    fewer products than slots: the definition with the products
    ['apple'] and the reference 'a' is accepted and gives a shelf of three
    slots, added to the level, whose array holds the one product; on it,
    locking slot 0 answers [true], locking slot 3 (out of range) answers
    [null], and locking slot 1 or slot 2 raises the error. *)
Theorem lockProductAtIndex_throws_on_undefined :
  (forall (h : heap) (s : Shelf) (index : Z) (lockedArg : bool),
      (forall d, kind s <> KDeep d) ->
      invalidIndex s index = false ->
      js_get (products s) index = Hole ->
      lockProductAtIndex h s index lockedArg
      = Throw (TypeError
                 "Cannot set properties of undefined (setting 'locked')"))
  /\ (forall (s : Shelf) (index : Z),
        Z.of_nat (length (products s)) <= index < Z.of_nat (slotCount s) ->
        invalidIndex s index = false /\ js_get (products s) index = Hole)
  /\ Shelf_fromData appleDefs emptyLevel oneAppleData = Ret oneAppleBuilt
  /\ (let s := constructed oneAppleBuilt in
      let h := productHeap (snd oneAppleBuilt) in
      In (fst oneAppleBuilt) (shelves (snd oneAppleBuilt))
      /\ reference s = Some "a"
      /\ slotCount s = 3%nat
      /\ products s = [Prod 0%nat]
      /\ (exists h', lockProductAtIndex h s 0 true = Ret (Some true, h'))
      /\ lockProductAtIndex h s 3 true = Ret (None, h)
      /\ lockProductAtIndex h s 1 true
         = Throw (TypeError
                    "Cannot set properties of undefined (setting 'locked')")
      /\ lockProductAtIndex h s 2 true
         = Throw (TypeError
                    "Cannot set properties of undefined (setting 'locked')")).
Proof.
  split; [| split; [| split]].
  - intros h s index lockedArg Hk Hi Hg.
    unfold lockProductAtIndex, Shelf_lockProductAtIndex.
    destruct (kind s) eqn:Ek; try (now exfalso; eapply Hk);
      now rewrite Hi, Hg.
  - intros s index [Hlo Hhi]. split.
    + unfold invalidIndex. apply orb_false_iff. split.
      * apply Z.ltb_ge. lia.
      * rewrite Z.geb_leb. apply Z.leb_gt. lia.
    + unfold js_get. destruct (Z.ltb_spec index 0); [lia |].
      apply nth_overflow. lia.
  - vm_compute. reflexivity.
  - cbn zeta. repeat split; try (vm_compute; reflexivity).
    + vm_compute. now left.
    + eexists. vm_compute. reflexivity.
Qed.

(** ** Lock conditions *)

(** C5 (the code departs from the claim). For [complete-shelves] with
    threshold [n], [shelfIsLocked] answers the comparison
    [totalCompletedShelves >= n] itself: with [n = 2] the shelf is locked
    once two shelves are counted complete, and unlocked while one is. *)
Theorem LockingShelf_complete_shelves_polarity :
  (forall (L : Level) (n : Z),
      LockingShelf_shelfIsLocked L (CompleteShelves n)
      = Ret (totalCompletedShelves (stats L) >=? n))
  /\ LockingShelf_shelfIsLocked (levelWithCompleted 2) (CompleteShelves 2)
     = Ret true
  /\ LockingShelf_shelfIsLocked (levelWithCompleted 3) (CompleteShelves 2)
     = Ret true
  /\ LockingShelf_shelfIsLocked (levelWithCompleted 1) (CompleteShelves 2)
     = Ret false.
Proof. repeat split. Qed.

Lemma some_r_all_false {A} (f : A -> Result bool) (l : list A) :
  (forall x, In x l -> f x = Ret false) -> some_r f l = Ret false.
Proof.
  induction l as [|x l IH]; intros H; cbn; [reflexivity |].
  rewrite (H x) by now left. cbn. apply IH. intros y Hy. apply H. now right.
Qed.

Lemma some_r_throws {A} (f : A -> Result bool) (l : list A) (e : JsError) :
  (exists x, In x l /\ f x = Throw e) ->
  (forall x, In x l -> f x = Ret false \/ f x = Throw e) ->
  some_r f l = Throw e.
Proof.
  induction l as [|x l IH]; intros (y & Hy & Hfy) H; [destruct Hy |].
  cbn. destruct (H x (or_introl eq_refl)) as [Hx | Hx]; rewrite Hx; cbn;
    [| reflexivity].
  apply IH.
  - destruct Hy as [<- | Hy]; [congruence | eauto].
  - intros z Hz. apply H. now right.
Qed.

(** In latch mode the condition reads the slot through [this.mode], which
    is undefined: as soon as the log holds a placement into a shelf of the
    reference, every evaluation raises a [TypeError]; until then the answer
    is [inverted]. *)
Lemma LockingShelf_place_product_latch (L : Level) (shelfReference : string)
    (slot : Z) (inverted : bool) (required : option loc) :
  LockingShelf_shelfIsLocked L
    (PlaceProduct shelfReference slot true inverted required)
  = if existsb (fun e : sref * Z * loc =>
                  reference_is (shelfHeap L) (fst (fst e)) shelfReference)
               (productPlacements (stats L))
    then Throw (TypeError "Cannot read properties of undefined (reading 'slot')")
    else Ret inverted.
Proof.
  cbn.
  destruct (existsb _ _) eqn:E.
  - apply existsb_exists in E as ([[shelf sl] product] & Hin & Href).
    cbn in Href. erewrite some_r_throws; [reflexivity | |].
    + exists (shelf, sl, product). split; [assumption |]. now rewrite Href.
    + intros [[shelf' sl'] product'] _.
      destruct (reference_is _ shelf' _); auto.
  - rewrite some_r_all_false; [now destruct inverted |].
    intros [[shelf sl] product] Hin.
    destruct (reference_is _ shelf _) eqn:Href; [| reflexivity].
    exfalso. apply not_true_iff_false in E. apply E.
    apply existsb_exists. exists (shelf, sl, product). auto.
Qed.

(** C4 (the code departs from the claim). With a placement of product 0
    into slot 0 of the shelf "target" in the log, the latch condition on
    that shelf and slot raises a [TypeError] instead of answering; so does
    the condition without latch while the slot holds the product; before
    the placement, and without latch once the slot is empty again, the
    answer is "not locked". *)
Theorem LockingShelf_place_product_throws :
  LockingShelf_shelfIsLocked
    (levelWithPlacements [(0%nat, 0, 0%nat)] [])
    (PlaceProduct "target" 0 true false None)
  = Throw (TypeError "Cannot read properties of undefined (reading 'slot')")
  /\ LockingShelf_shelfIsLocked
       (levelWithPlacements [] [])
       (PlaceProduct "target" 0 true false None)
     = Ret false
  /\ LockingShelf_shelfIsLocked
       (levelWithPlacements [(0%nat, 0, 0%nat)]
          [("target", Snapshot 0%nat [Prod 0%nat; Null; Null])])
       (PlaceProduct "target" 0 false false None)
     = Throw (TypeError "Cannot read properties of undefined (reading 'slot')")
  /\ LockingShelf_shelfIsLocked
       (levelWithPlacements [(0%nat, 0, 0%nat)]
          [("target", Snapshot 0%nat [Null; Null; Null])])
       (PlaceProduct "target" 0 false false None)
     = Ret false.
Proof. repeat split. Qed.

(** ** DisplayShelf *)




(** ** One tick of a shelf *)

Lemma heap_set_same (h : heap) (l : loc) (p : Product) : heap_set h l p l = p.
Proof. unfold heap_set. now rewrite Nat.eqb_refl. Qed.

Lemma heap_set_other (h : heap) (l l' : loc) (p : Product) :
  l' <> l -> heap_set h l p l' = h l'.
Proof.
  intros Hne. unfold heap_set.
  destruct (Nat.eqb l' l) eqn:E; [apply Nat.eqb_eq in E; congruence | reflexivity].
Qed.

Lemma sameMatching_refl (h : heap) : sameMatching h h.
Proof. intros p. auto. Qed.

Lemma sameMatching_trans (h1 h2 h3 : heap) :
  sameMatching h1 h2 -> sameMatching h2 h3 -> sameMatching h1 h3.
Proof.
  intros H12 H23 p.
  destruct (H12 p) as (Hi & Hm & Hd & Hf), (H23 p) as (Hi' & Hm' & Hd' & Hf').
  split; [congruence | split; [congruence | split; [congruence |]]].
  intros Hp. rewrite Hf' by congruence. auto.
Qed.

Lemma Product_update_sameMatching (i : Input) (self : loc) (c : bool)
    (p : Product) :
  let p' := fst (Product_update i self c p) in
  id p' = id p /\ matches p' = matches p /\ disappearing p' = disappearing p
  /\ (disappearing p = false -> finishedDisappearing p' = finishedDisappearing p).
Proof.
  unfold Product_update, Product_updateDisappearing. cbn.
  destruct (disappearing p) eqn:E; cbn; auto.
  repeat split; auto. discriminate.
Qed.

Lemma updateProducts_frame (i : Input) (self : sref) (cells : list cell) :
  forall (index : nat) (L : Level),
    let L' := updateProducts i self index cells L in
    sameMatching (productHeap L) (productHeap L')
    /\ shelfHeap L' = shelfHeap L /\ stats L' = stats L.
Proof.
  induction cells as [|c rest IH]; intros index L; cbn [updateProducts].
  - split; [apply sameMatching_refl | auto].
  - destruct c as [| |p]; try apply IH.
    set (r := Product_update i p _ _).
    set (L1 := if snd r then _ else _).
    destruct (IH (S index) L1) as (Hs & Hst & Hstats).
    assert (H1 : sameMatching (productHeap L) (productHeap L1)
                 /\ shelfHeap L1 = shelfHeap L /\ stats L1 = stats L).
    { assert (Hh : productHeap L1 = heap_set (productHeap L) p (fst r))
        by (subst L1; now destruct (snd r)).
      split; [| subst L1; now destruct (snd r)].
      rewrite Hh. intros q. destruct (Nat.eq_dec q p) as [-> | Hne].
      - rewrite heap_set_same. apply Product_update_sameMatching.
      - rewrite heap_set_other by assumption. auto. }
    destruct H1 as (Hs1 & Hst1 & Hstats1).
    split; [eapply sameMatching_trans; eassumption |].
    split; congruence.
Qed.

Lemma sameMatching_matchesProduct (h h' : heap) (x y : loc) :
  sameMatching h h' ->
  Product_matchesProduct h' x y = Product_matchesProduct h x y.
Proof.
  intros H. unfold Product_matchesProduct.
  destruct (H x) as (_ & -> & _), (H y) as (-> & _). reflexivity.
Qed.

Lemma removeFinished_id (h : heap) (ps : list cell) :
  (forall p, In (Prod p) ps -> finishedDisappearing (h p) = false) ->
  removeFinished h ps = ps.
Proof.
  unfold removeFinished.
  induction ps as [|c ps IH]; intros H; cbn [map]; [reflexivity |].
  rewrite IH by (intros p Hp; apply H; now right).
  destruct c as [| |p]; try reflexivity.
  now rewrite (H p) by now left.
Qed.



Lemma recordMatches_totals (h : heap) (group : list loc) :
  forall s : Stats,
    (forall p, In p group -> is_Some (productMatches s !! id (h p))) ->
    exists s',
      recordMatches h s group = Ret s'
      /\ totalMatches s' = totalMatches s + Z.of_nat (length group)
      /\ totalCompletedShelves s' = totalCompletedShelves s
      /\ (forall pid, matchTotal s' pid = matchTotal s pid + countOfId h pid group)
      /\ (forall pid, is_Some (productMatches s !! pid) ->
                      is_Some (productMatches s' !! pid)).
Proof.
  induction group as [|p rest IH]; intros s Hreg.
  - exists s. cbn. repeat split; auto; try lia.
    intros pid. unfold countOfId. cbn. lia.
  - cbn [recordMatches]. unfold recordMatch.
    destruct (Hreg p (or_introl eq_refl)) as [[proto total] Hp].
    rewrite Hp. cbn [bind].
    set (s1 := mkStats _ _ _ _ _ _ _).
    destruct (IH s1) as (s' & Hrun & Htot & Hcomp & Hper & Hkeys).
    { intros q Hq. subst s1. cbn.
      destruct (decide (id (h p) = id (h q))) as [Heq | Hne].
      - rewrite Heq, lookup_insert_eq. eauto.
      - rewrite lookup_insert_ne by assumption. apply Hreg. now right. }
    exists s'. split; [assumption |].
    split; [rewrite Htot; subst s1; cbn; lia |].
    split; [rewrite Hcomp; reflexivity |].
    split.
    + intros pid. rewrite Hper. unfold matchTotal, countOfId. subst s1. cbn.
      destruct (String.eqb_spec (id (h p)) pid) as [Heq | Hne].
      * subst pid. rewrite lookup_insert_eq, Hp. cbn [length]. lia.
      * rewrite lookup_insert_ne by assumption. lia.
    + intros pid Hpid. apply Hkeys. subst s1. cbn.
      destruct (decide (id (h p) = pid)) as [Heq | Hne].
      * subst pid. rewrite lookup_insert_eq. eauto.
      * now rewrite lookup_insert_ne.
Qed.

Lemma set_products_same (s : Shelf) : set_products s (products s) = s.
Proof. now destruct s. Qed.







(** ** DeepShelf *)

Lemma keepsProducts_refl (L : Level) : keepsProducts L L.
Proof. unfold keepsProducts. auto. Qed.

Lemma keepsProducts_trans (L1 L2 L3 : Level) :
  keepsProducts L1 L2 -> keepsProducts L2 L3 -> keepsProducts L1 L3.
Proof.
  intros (Hi & Hs) (Hi' & Hs'). split.
  - intros p. now rewrite Hi', Hi.
  - auto.
Qed.

Lemma productRegistered_mono (L L' : Level) (p : loc) :
  keepsProducts L L' -> productRegistered L p -> productRegistered L' p.
Proof.
  intros (Hi & Hs) Hreg. unfold productRegistered. rewrite Hi. now apply Hs.
Qed.

Lemma disappearAll_id (group : list loc) :
  forall (h : heap) (index : nat) (p : loc),
    id (disappearAll h index group p) = id (h p).
Proof.
  induction group as [|q rest IH]; intros h index p; [reflexivity |].
  cbn [disappearAll]. rewrite IH.
  destruct (Nat.eq_dec p q) as [-> | Hne].
  - rewrite heap_set_same. unfold Product_disappear.
    now destruct (disappearing (h q)).
  - now rewrite heap_set_other.
Qed.

Lemma shelfHeap_set_shelf (L : Level) (r : sref) (s : Shelf) :
  shelfHeap (set_shelf L r s) r = s.
Proof. cbn. apply store_set_same. Qed.

Lemma removeFinished_In (h : heap) (ps : list cell) (p : loc) :
  In (Prod p) (removeFinished h ps) -> In (Prod p) ps.
Proof.
  unfold removeFinished. rewrite in_map_iff. intros (c & Hc & Hin).
  destruct c as [| |q]; try discriminate.
  destruct (finishedDisappearing (h q)); [discriminate |]. congruence.
Qed.

Lemma Shelf_update_products_keeps (i : Input) (L : Level) (self : sref) :
  let L1 := Shelf_update_products i L self in
  keepsProducts L L1
  /\ kind (shelfHeap L1 self) = kind (shelfHeap L self)
  /\ (forall p, In (Prod p) (products (shelfHeap L1 self)) ->
                In (Prod p) (products (shelfHeap L self))).
Proof.
  unfold Shelf_update_products.
  pose proof (updateProducts_frame i self (products (shelfHeap L self)) 0 L)
    as Hframe. cbn zeta in Hframe.
  set (Lu := updateProducts i self 0 _ L) in *.
  destruct Hframe as (Hsame & Hst & Hstat).
  cbn zeta. rewrite shelfHeap_set_shelf.
  split; [split |].
  - intros p. cbn. now destruct (Hsame p) as (-> & _).
  - intros pid. cbn. now rewrite Hstat.
  - rewrite Hst. split; [reflexivity |].
    intros p Hp. cbn in Hp. now apply removeFinished_In in Hp.
Qed.

Lemma Shelf_update_match_keeps (L : Level) (self : sref) :
  let r := Shelf_update_match L self in
  keepsProducts L (snd r)
  /\ shelfHeap (snd r) = shelfHeap L
  /\ (forall p, In p (default [] (matched (fst r))) ->
                In (Prod p) (products (shelfHeap L self))).
Proof.
  unfold Shelf_update_match. cbn [fst snd].
  split; [| split].
  - destruct (found _); [| apply keepsProducts_refl].
    split; [| auto]. intros p. cbn. apply disappearAll_id.
  - now destruct (found _).
  - unfold Shelf_checkForMatches, Shelf_findMatchingGroups. cbn [matched].
    destruct (findMatchingGroups_loop _ _ _ _) as [|g rest] eqn:E;
      [intros p [] |].
    intros p Hp. cbn in Hp.
    destruct (findMatchingGroups_loop_spec (productHeap L)
                (validProducts (productHeap L) (products (shelfHeap L self)))
                (matchCount (shelfHeap L self))
                (validProducts (productHeap L) (products (shelfHeap L self)))
                g) as (_ & _ & Hsub & _).
    + auto.
    + rewrite E. now left.
    + apply Hsub in Hp. now apply validProducts_In in Hp as [Hin _].
Qed.

Lemma Shelf_update_stats_keeps (f : Shelf -> bool) (m : MatchResult)
    (L : Level) (self : sref) :
  (forall p, In p (default [] (matched m)) -> productRegistered L p) ->
  exists L',
    Shelf_update_stats f m L self = Ret L'
    /\ keepsProducts L L'
    /\ kind (shelfHeap L' self) = kind (shelfHeap L self)
    /\ products (shelfHeap L' self) = products (shelfHeap L self).
Proof.
  intros Hreg. unfold Shelf_update_stats.
  destruct (statsUpdated (shelfHeap L self));
    [exists L; split; [reflexivity |];
     split; [apply keepsProducts_refl | auto] |].
  assert (H1 : exists L1,
             (if found m
              then do s1 <- recordMatches (productHeap L) (stats L)
                              (default [] (matched m));
                   Ret (set_shelf (set_stats L s1) self
                          (set_statsUpdated (shelfHeap L self) true))
              else Ret L) = Ret L1
             /\ keepsProducts L L1
             /\ kind (shelfHeap L1 self) = kind (shelfHeap L self)
             /\ products (shelfHeap L1 self) = products (shelfHeap L self)).
  { destruct (found m);
      [| exists L; split; [reflexivity |];
         split; [apply keepsProducts_refl | auto]].
    destruct (recordMatches_totals (productHeap L) (default [] (matched m))
                (stats L) Hreg) as (s' & Hrun & _ & _ & _ & Hkeys).
    rewrite Hrun. cbn [bind]. eexists. split; [reflexivity |].
    rewrite shelfHeap_set_shelf.
    split; [split; [reflexivity | exact Hkeys] | auto]. }
  destruct H1 as (L1 & -> & Hk1 & Hkind & Hps). cbn [bind].
  destruct (f (shelfHeap L1 self)); [| eauto].
  eexists. split; [reflexivity |]. rewrite shelfHeap_set_shelf.
  split; [| split; assumption].
  eapply keepsProducts_trans; [exact Hk1 |]. split; [reflexivity | auto].
Qed.

Lemma Shelf_update_keeps (f : Shelf -> bool) (i : Input) (L : Level)
    (self : sref) :
  (forall p, In (Prod p) (products (shelfHeap L self)) ->
             productRegistered L p) ->
  exists L',
    Shelf_update f i L self = Ret L'
    /\ keepsProducts L L'
    /\ kind (shelfHeap L' self) = kind (shelfHeap L self)
    /\ (forall p, In (Prod p) (products (shelfHeap L' self)) ->
                  In (Prod p) (products (shelfHeap L self))).
Proof.
  intros Hreg. unfold Shelf_update.
  pose proof (Shelf_update_products_keeps i L self) as H1. cbn zeta in H1.
  set (L1 := Shelf_update_products i L self) in *.
  destruct H1 as (Hk1 & Hkind1 & Hps1).
  pose proof (Shelf_update_match_keeps L1 self) as H2. cbn zeta in H2.
  set (r := Shelf_update_match L1 self) in *.
  destruct H2 as (Hk2 & Hst2 & Hgroup).
  destruct (Shelf_update_stats_keeps f (fst r) (snd r) self)
    as (L' & Hrun & Hk3 & Hkind3 & Hps3).
  { intros p Hp.
    eapply productRegistered_mono; [exact Hk2 |].
    eapply productRegistered_mono; [exact Hk1 |]. auto. }
  exists L'. split; [exact Hrun |].
  split; [| split].
  - eapply keepsProducts_trans; [exact Hk1 |].
    eapply keepsProducts_trans; eassumption.
  - now rewrite Hkind3, Hst2.
  - intros p Hp. rewrite Hps3, Hst2 in Hp. auto.
Qed.

Lemma placeLayer_id (layer : list cell) :
  forall (h : heap) (p : loc), id (placeLayer h layer p) = id (h p).
Proof.
  unfold placeLayer.
  induction layer as [|c rest IH]; intros h p; [reflexivity |].
  cbn [fold_left]. rewrite IH. destruct c as [| |q]; try reflexivity.
  destruct (Nat.eq_dec p q) as [-> | Hne].
  - now rewrite heap_set_same.
  - now rewrite heap_set_other.
Qed.

Lemma placeLowerLayers_id (ls : list (list cell)) (h : heap) (p : loc) :
  id (placeLowerLayers h ls p) = id (h p).
Proof.
  unfold placeLowerLayers. revert h.
  induction (removelast ls) as [|l rest IH]; intros h; [reflexivity |].
  cbn [fold_left]. now rewrite IH, placeLayer_id.
Qed.

Lemma peek_is_Some {A} (l : list A) : (1 <= length l)%nat -> is_Some (peek l).
Proof.
  intros H. unfold peek. destruct (last l) eqn:E; [eauto |].
  apply last_None in E. subst. cbn in H. lia.
Qed.

Lemma length_removelast {A} (l : list A) :
  length (removelast l) = (length l - 1)%nat.
Proof.
  induction l as [|x l IH]; [reflexivity |].
  destruct l as [|y l]; [reflexivity |].
  change (removelast (x :: y :: l)) with (x :: removelast (y :: l)).
  cbn [length] in *. lia.
Qed.

(** The layer step: the number of layers stays, or drops by one when there
    was more than one; after a drop the products are those of the new top
    layer. *)
Lemma DeepShelf_update_layers_count (i : Input) (h : heap) (s : Shelf)
    (d : DeepState) :
  let s' := DeepShelf_update_layers i h s d in
  let n := length (layers d) in
  let n' := length (deepLayers s') in
  isDeep s'
  /\ (n' = n
      \/ ((1 < n)%nat /\ n' = (n - 1)%nat
          /\ peek (deepLayers s') = Some (products s'))).
Proof.
  unfold DeepShelf_update_layers.
  set (ls := map (removeFinished h) (layers d)).
  assert (Hlen : length ls = length (layers d)) by apply length_map.
  destruct (_ && Qle_bool _ 0).
  - destruct (1 <? length ls)%nat eqn:E.
    + apply Nat.ltb_lt in E.
      split; [eexists; reflexivity |]. right.
      unfold deepLayers. cbn. rewrite length_removelast.
      split; [lia | split; [lia |]].
      unfold topLayerOrEmpty.
      destruct (peek_is_Some (removelast ls)) as [top Htop];
        [rewrite length_removelast; lia |].
      now rewrite Htop.
    + split; [eexists; reflexivity |]. left.
      unfold deepLayers. cbn. exact Hlen.
  - split; [eexists; reflexivity |]. left.
    unfold deepLayers. cbn. exact Hlen.
Qed.

Lemma removelast_In {A} (l : list A) (x : A) :
  In x (removelast l) -> In x l.
Proof.
  induction l as [|y l IH]; [intros [] |].
  destruct l as [|z l]; [intros [] |].
  change (removelast (y :: z :: l)) with (y :: removelast (z :: l)).
  intros [-> | H]; [now left | right; auto].
Qed.

Lemma peek_In {A} (l : list A) (x : A) : peek l = Some x -> In x l.
Proof.
  unfold peek. intros H. apply last_Some in H as [l' ->].
  apply in_or_app. right. now left.
Qed.

Lemma concat_removeFinished_In (h : heap) (ls : list (list cell)) (p : loc) :
  In (Prod p) (concat (map (removeFinished h) ls)) -> In (Prod p) (concat ls).
Proof.
  rewrite !in_concat. intros (l & Hl & Hp).
  apply in_map_iff in Hl as (l0 & <- & Hl0).
  exists l0. split; [assumption | now apply removeFinished_In in Hp].
Qed.

(** The layer step brings no product into the shelf. *)
Lemma DeepShelf_update_layers_cells (i : Input) (h : heap) (s : Shelf)
    (d : DeepState) (p : loc) :
  In (Prod p) (cellsOf (DeepShelf_update_layers i h s d)) ->
  In (Prod p) (products s) \/ In (Prod p) (concat (layers d)).
Proof.
  unfold DeepShelf_update_layers, cellsOf.
  set (ls := map (removeFinished h) (layers d)).
  destruct (_ && Qle_bool _ 0).
  - set (ls' := if (1 <? length ls)%nat then removelast ls else ls).
    assert (Hls' : forall l, In l ls' -> In l ls).
    { subst ls'. destruct (1 <? length ls)%nat; [| auto].
      intros l. apply removelast_In. }
    unfold deepLayers. cbn. intros [Hp | Hp]%in_app_or; right;
      apply (concat_removeFinished_In h); fold ls; apply in_concat.
    + unfold topLayerOrEmpty in Hp.
      destruct (peek ls') as [top|] eqn:Et.
      * exists top. split; [apply Hls'; now apply peek_In | assumption].
      * unfold js_filled_null in Hp. apply repeat_spec in Hp. discriminate.
    + apply in_concat in Hp as (l & Hl & Hp). exists l. auto.
  - unfold deepLayers. cbn. intros [Hp | Hp]%in_app_or; [now left | right].
    now apply (concat_removeFinished_In h).
Qed.

Lemma DeepShelf_update_tick (i : Input) (L : Level) (self : sref) :
  isDeep (shelfHeap L self) -> shelfRegistered L self ->
  exists L',
    DeepShelf_update i L self = Ret L'
    /\ isDeep (shelfHeap L' self)
    /\ shelfRegistered L' self
    /\ keepsProducts L L'
    /\ let n := length (deepLayers (shelfHeap L self)) in
       let n' := length (deepLayers (shelfHeap L' self)) in
       n' = n
       \/ ((1 < n)%nat /\ n' = (n - 1)%nat
           /\ peek (deepLayers (shelfHeap L' self))
              = Some (products (shelfHeap L' self))).
Proof.
  intros [d Hd] Hreg. unfold DeepShelf_update.
  assert (Hl : deepLayers (shelfHeap L self) = layers d)
    by (unfold deepLayers; now rewrite Hd).
  destruct (Shelf_update_keeps DeepShelf_shelfIsComplete i L self)
    as (L1 & -> & Hkeep & Hkind & Hps).
  { intros p Hp. apply Hreg. unfold cellsOf. apply in_or_app. now left. }
  cbn [bind]. rewrite Hkind, Hd.
  set (h := placeLowerLayers (productHeap L1) (layers d)).
  pose proof (DeepShelf_update_layers_count i h (shelfHeap L1 self) d)
    as Hcount. cbn zeta in Hcount.
  pose proof (DeepShelf_update_layers_cells i h (shelfHeap L1 self) d)
    as Hcells.
  set (s' := DeepShelf_update_layers i h (shelfHeap L1 self) d) in *.
  destruct Hcount as (Hdeep & Hcount).
  eexists. split; [reflexivity |].
  assert (Hkeep' : keepsProducts L (set_shelf (set_productHeap L1 h) self s')).
  { eapply keepsProducts_trans; [exact Hkeep |]. split; [| auto].
    intros p. cbn. subst h. apply placeLowerLayers_id. }
  unfold shelfRegistered. rewrite shelfHeap_set_shelf.
  split; [exact Hdeep | split; [| split; [exact Hkeep' |]]].
  - intros p Hp. eapply productRegistered_mono; [exact Hkeep' |].
    apply Hreg. unfold cellsOf. rewrite Hl. apply in_or_app.
    destruct (Hcells p Hp) as [H | H]; [left; auto | now right].
  - cbn zeta. rewrite Hl. exact Hcount.
Qed.

Lemma set_in_top_length (ls : list (list cell)) (index : nat) (v : cell) :
  length (set_in_top ls index v) = length ls.
Proof.
  induction ls as [|l rest IH]; [reflexivity |].
  destruct rest as [|l' rest]; [reflexivity |].
  change (set_in_top (l :: l' :: rest) index v)
    with (l :: set_in_top (l' :: rest) index v).
  cbn [length] in *. now rewrite IH.
Qed.

Lemma js_set_In (a : list cell) (i : nat) (v : cell) (p : loc) :
  In (Prod p) (js_set a i v) -> In (Prod p) a \/ v = Prod p.
Proof.
  unfold js_set. destruct (i <? length a)%nat.
  - revert i. induction a as [|c a IH]; intros i; [intros [] |].
    destruct i as [|i]; cbn.
    + intros [<- | H]; auto.
    + intros [<- | H]; [auto |]. destruct (IH i H); auto.
  - intros [H | [H | [<- | []]]%in_app_or]%in_app_or; auto.
    apply repeat_spec in H. discriminate.
Qed.

Lemma set_in_top_In (ls : list (list cell)) (index : nat) (v : cell)
    (p : loc) :
  In (Prod p) (concat (set_in_top ls index v)) ->
  In (Prod p) (concat ls) \/ v = Prod p.
Proof.
  induction ls as [|l rest IH]; [intros [] |].
  destruct rest as [|l' rest].
  - cbn. rewrite !app_nil_r. apply js_set_In.
  - change (set_in_top (l :: l' :: rest) index v)
      with (l :: set_in_top (l' :: rest) index v).
    cbn [concat]. intros [H | H]%in_app_or.
    + left. apply in_or_app. now left.
    + destruct (IH H) as [H' | H']; [left; apply in_or_app; now right | auto].
Qed.

Lemma addProductAtIndex_cells (s : Shelf) (index : Z) (product p : loc) :
  isDeep s ->
  In (Prod p) (cellsOf (snd (addProductAtIndex s index product))) ->
  In (Prod p) (cellsOf s) \/ p = product.
Proof.
  intros [d Hd].
  unfold addProductAtIndex, DeepShelf_addProductAtIndex. rewrite Hd.
  destruct (invalidIndex s index); [auto |].
  destruct (negb _); [auto |].
  destruct (Nat.eqb _ 0); [auto |].
  unfold cellsOf, deepLayers. rewrite Hd. cbn.
  intros [H | H]%in_app_or.
  - apply js_set_In in H as [H | H]; [left; apply in_or_app; auto |].
    right. congruence.
  - apply set_in_top_In in H as [H | H]; [left; apply in_or_app; auto |].
    right. congruence.
Qed.

Lemma removeProductAtIndex_cells (s : Shelf) (index : Z) (p : loc) :
  isDeep s ->
  In (Prod p) (cellsOf (snd (removeProductAtIndex s index))) ->
  In (Prod p) (cellsOf s).
Proof.
  intros [d Hd].
  unfold removeProductAtIndex, DeepShelf_removeProductAtIndex. rewrite Hd.
  destruct (invalidIndex s index); [auto |].
  destruct (Nat.eqb _ 0); [auto |].
  unfold cellsOf, deepLayers. rewrite Hd. cbn.
  intros [H | H]%in_app_or.
  - apply js_set_In in H as [H | H]; [apply in_or_app; auto | discriminate].
  - apply set_in_top_In in H as [H | H]; [apply in_or_app; auto | discriminate].
Qed.

Lemma addProductAtIndex_layers (s : Shelf) (index : Z) (product : loc) :
  isDeep s ->
  isDeep (snd (addProductAtIndex s index product))
  /\ length (deepLayers (snd (addProductAtIndex s index product)))
     = length (deepLayers s).
Proof.
  intros [d Hd].
  unfold addProductAtIndex, DeepShelf_addProductAtIndex. rewrite Hd.
  destruct (invalidIndex s index); [split; [now exists d | reflexivity] |].
  destruct (negb _); [split; [now exists d | reflexivity] |].
  destruct (Nat.eqb _ 0); [split; [now exists d | reflexivity] |].
  split; [eexists; reflexivity |].
  unfold deepLayers. rewrite Hd. cbn. apply set_in_top_length.
Qed.

Lemma removeProductAtIndex_layers (s : Shelf) (index : Z) :
  isDeep s ->
  isDeep (snd (removeProductAtIndex s index))
  /\ length (deepLayers (snd (removeProductAtIndex s index)))
     = length (deepLayers s).
Proof.
  intros [d Hd].
  unfold removeProductAtIndex, DeepShelf_removeProductAtIndex. rewrite Hd.
  destruct (invalidIndex s index); [split; [now exists d | reflexivity] |].
  destruct (Nat.eqb _ 0); [split; [now exists d | reflexivity] |].
  split; [eexists; reflexivity |].
  unfold deepLayers. rewrite Hd. cbn. apply set_in_top_length.
Qed.

Lemma DeepShelf_step_layers (op : ShelfOp) (L : Level) (self : sref) :
  isDeep (shelfHeap L self) -> shelfRegistered L self -> opRegistered L op ->
  exists L',
    DeepShelf_step op L self = Ret L'
    /\ isDeep (shelfHeap L' self)
    /\ shelfRegistered L' self
    /\ keepsProducts L L'
    /\ let n := length (deepLayers (shelfHeap L self)) in
       let n' := length (deepLayers (shelfHeap L' self)) in
       n' = n \/ ((1 < n)%nat /\ n' = (n - 1)%nat).
Proof.
  intros Hdeep Hreg Hop.
  destruct op as [i | index product | index]; cbn [DeepShelf_step].
  - destruct (DeepShelf_update_tick i L self Hdeep Hreg)
      as (L' & Hrun & Hd & Hr & Hk & Hn).
    exists L'. repeat (split; [assumption |]).
    cbn zeta in Hn. destruct Hn as [Hn | (H1 & Hn & _)]; auto.
  - eexists. split; [reflexivity |].
    unfold shelfRegistered. rewrite shelfHeap_set_shelf.
    destruct (addProductAtIndex_layers (shelfHeap L self) index product Hdeep)
      as [Hd Hn].
    split; [exact Hd | split; [| split; [exact (keepsProducts_refl L) | now left]]].
    intros p Hp.
    destruct (addProductAtIndex_cells _ _ _ _ Hdeep Hp) as [Hp' | ->].
    + now apply Hreg.
    + exact Hop.
  - eexists. split; [reflexivity |].
    unfold shelfRegistered. rewrite shelfHeap_set_shelf.
    destruct (removeProductAtIndex_layers (shelfHeap L self) index Hdeep)
      as [Hd Hn].
    split; [exact Hd | split; [| split; [exact (keepsProducts_refl L) | now left]]].
    intros p Hp. apply removeProductAtIndex_cells in Hp; [| assumption].
    now apply Hreg.
Qed.

Lemma opRegistered_mono (L L' : Level) (op : ShelfOp) :
  keepsProducts L L' -> opRegistered L op -> opRegistered L' op.
Proof.
  intros Hk. destruct op; cbn; auto. now apply productRegistered_mono.
Qed.

Lemma layerIsEmpty_spec (layer : list cell) :
  layerIsEmpty layer = true <-> holdsNoProduct layer.
Proof.
  unfold layerIsEmpty, holdsNoProduct. rewrite forallb_forall. split.
  - intros H c Hc p ->. specialize (H _ Hc). discriminate.
  - intros H c Hc. destruct c as [| |p]; try reflexivity.
    now destruct (H _ Hc p).
Qed.

(** C6. A deep shelf with at least one layer keeps at least one. Take a
    level in which the products of the shelf, and the products placed
    later, have their entry in the match statistics (so that no tick
    fails). Through any sequence of ticks, placements and removals the run
    completes, the shelf still has a layer, and [peek] of its layers is a
    layer. One tick leaves the number of layers as it was or removes
    exactly the top layer, and removes it only when there was more than
    one; the products of the shelf are then those of the new top layer.
    The shelf reports complete exactly when no layer holds a product. *)
Theorem DeepShelf_keeps_a_layer :
  (forall (ops : list ShelfOp) (L : Level) (self : sref),
      isDeep (shelfHeap L self) -> shelfRegistered L self ->
      Forall (opRegistered L) ops ->
      (1 <= length (deepLayers (shelfHeap L self)))%nat ->
      exists L',
        DeepShelf_run ops L self = Ret L'
        /\ isDeep (shelfHeap L' self)
        /\ (1 <= length (deepLayers (shelfHeap L' self)))%nat
        /\ (length (deepLayers (shelfHeap L' self))
            <= length (deepLayers (shelfHeap L self)))%nat
        /\ is_Some (peek (deepLayers (shelfHeap L' self))))
  /\ (forall (i : Input) (L : Level) (self : sref),
        isDeep (shelfHeap L self) -> shelfRegistered L self ->
        exists L',
          DeepShelf_update i L self = Ret L'
          /\ isDeep (shelfHeap L' self)
          /\ let n := length (deepLayers (shelfHeap L self)) in
             let n' := length (deepLayers (shelfHeap L' self)) in
             n' = n
             \/ ((1 < n)%nat /\ n' = (n - 1)%nat
                 /\ peek (deepLayers (shelfHeap L' self))
                    = Some (products (shelfHeap L' self))))
  /\ (forall s : Shelf,
        isDeep s ->
        DeepShelf_shelfIsComplete s = true
        <-> forall layer, In layer (deepLayers s) -> holdsNoProduct layer).
Proof.
  split; [| split].
  - induction ops as [|op rest IH]; intros L self Hdeep Hreg Hops Hn.
    + exists L. split; [reflexivity |].
      split; [assumption | split; [assumption | split; [lia |]]].
      now apply peek_is_Some.
    + cbn [DeepShelf_run].
      apply Forall_cons in Hops as [Hop Hops].
      destruct (DeepShelf_step_layers op L self Hdeep Hreg Hop)
        as (L1 & -> & Hd1 & Hr1 & Hk1 & Hn1).
      cbn [bind]. cbn zeta in Hn1.
      destruct (IH L1 self Hd1 Hr1) as (L' & Hrun & Hd' & Hn' & Hle & Hpeek).
      * eapply Forall_impl; [exact Hops |].
        intros op'. now apply opRegistered_mono.
      * lia.
      * exists L'. split; [exact Hrun |].
        split; [assumption | split; [assumption | split; [lia | assumption]]].
  - intros i L self Hdeep Hreg.
    destruct (DeepShelf_update_tick i L self Hdeep Hreg)
      as (L' & Hrun & Hd & _ & _ & Hn).
    exists L'. auto.
  - intros s [d Hd]. unfold DeepShelf_shelfIsComplete, deepLayers.
    rewrite Hd. unfold DeepShelf_shelfIsEmpty. rewrite forallb_forall.
    split; intros H layer Hl; apply layerIsEmpty_spec; auto.
Qed.

Lemma DeepShelf_keeps_a_layer_witness :
  let ops := [Tick (idleTick 1); RemoveProduct 0; RemoveProduct 1;
              Tick (idleTick (1 # 10)); AddProduct 2 2%nat;
              Tick (idleTick 1)] in
  (exists L',
      DeepShelf_run ops twoLayerLevel 0%nat = Ret L'
      /\ isDeep (shelfHeap L' 0%nat)
      /\ (1 <= length (deepLayers (shelfHeap L' 0%nat)))%nat
      /\ (length (deepLayers (shelfHeap L' 0%nat))
          <= length (deepLayers (shelfHeap twoLayerLevel 0%nat)))%nat
      /\ is_Some (peek (deepLayers (shelfHeap L' 0%nat))))
  /\ (exists L',
        DeepShelf_update (idleTick 1) twoLayerLevel 0%nat = Ret L'
        /\ isDeep (shelfHeap L' 0%nat)
        /\ let n := length (deepLayers (shelfHeap twoLayerLevel 0%nat)) in
           let n' := length (deepLayers (shelfHeap L' 0%nat)) in
           n' = n
           \/ ((1 < n)%nat /\ n' = (n - 1)%nat
               /\ peek (deepLayers (shelfHeap L' 0%nat))
                  = Some (products (shelfHeap L' 0%nat))))
  /\ (DeepShelf_shelfIsComplete twoLayerShelf = true
      <-> forall layer, In layer (deepLayers twoLayerShelf) ->
                        holdsNoProduct layer).
Proof.
  assert (Hdeep : isDeep (shelfHeap twoLayerLevel 0%nat))
    by (eexists; reflexivity).
  assert (Hreg : shelfRegistered twoLayerLevel 0%nat)
    by (intros p _; exists (9%nat, 0); reflexivity).
  destruct DeepShelf_keeps_a_layer as (Hrun & Htick & Hcomplete).
  split; [| split].
  - apply Hrun; [exact Hdeep | exact Hreg | | cbn; lia].
    repeat (apply Forall_cons; split; [try exact I |]).
    + exists (9%nat, 0). reflexivity.
    + apply Forall_nil. exact I.
  - apply Htick; assumption.
  - apply Hcomplete. exact Hdeep.
Defined.

(** A run on the shelf of two layers: the empty top layer is removed, and
    the layer that remains stays when it is emptied in its turn. *)
Example DeepShelf_run_two_layers :
  match DeepShelf_run
          [Tick (idleTick 1); RemoveProduct 0; RemoveProduct 1;
           Tick (idleTick (1 # 10)); Tick (idleTick 1)]
          twoLayerLevel 0%nat with
  | Ret L' =>
      deepLayers (shelfHeap L' 0%nat) = [[Null; Null; Null]]
      /\ products (shelfHeap L' 0%nat) = [Null; Null; Null]
  | Throw _ => False
  end.
Proof. vm_compute. split; reflexivity. Qed.



(** ** Reading and writing slots *)

Lemma js_get_lookup (a : list cell) (index : Z) :
  0 <= index -> js_get a index = default Hole (a !! Z.to_nat index).
Proof.
  intros H. unfold js_get.
  destruct (Z.ltb_spec index 0); [lia |]. apply nth_lookup.
Qed.

Lemma js_get_negative (a : list cell) (index : Z) :
  index < 0 -> js_get a index = Hole.
Proof.
  intros H. unfold js_get. now destruct (Z.ltb_spec index 0); [| lia].
Qed.

Lemma js_set_lookup_same (a : list cell) (i : nat) (v : cell) :
  js_set a i v !! i = Some v.
Proof.
  unfold js_set. destruct (i <? length a)%nat eqn:E.
  - apply Nat.ltb_lt in E. now apply list_lookup_insert_eq.
  - apply Nat.ltb_ge in E.
    rewrite lookup_app_r by lia.
    rewrite lookup_app_r by (rewrite repeat_length; lia).
    rewrite repeat_length.
    now replace (i - length a - (i - length a))%nat with 0%nat by lia.
Qed.

Lemma js_set_lookup_other (a : list cell) (i j : nat) (v : cell) :
  i <> j -> default Hole (js_set a i v !! j) = default Hole (a !! j).
Proof.
  intros Hne. unfold js_set. destruct (i <? length a)%nat eqn:E.
  - now rewrite list_lookup_insert_ne.
  - apply Nat.ltb_ge in E.
    destruct (decide (j < length a)%nat) as [Hj | Hj].
    + now rewrite lookup_app_l.
    + rewrite (lookup_ge_None_2 a j) by lia.
      rewrite lookup_app_r by lia.
      destruct (decide (j - length a < i - length a)%nat) as [Hlt | Hge].
      * rewrite lookup_app_l by (rewrite repeat_length; lia).
        destruct (repeat Hole (i - length a)%nat !! (j - length a)%nat) as [c|] eqn:Ec;
          [| reflexivity].
        apply list_elem_of_lookup_2, list_elem_of_In, repeat_spec in Ec.
        now subst.
      * rewrite lookup_app_r by (rewrite repeat_length; lia).
        rewrite repeat_length.
        destruct (j - length a - (i - length a))%nat eqn:En; [lia |].
        reflexivity.
Qed.

Lemma js_get_js_set_same (a : list cell) (index : Z) (v : cell) :
  0 <= index -> js_get (js_set a (Z.to_nat index) v) index = v.
Proof.
  intros H. rewrite js_get_lookup by assumption.
  now rewrite js_set_lookup_same.
Qed.

Lemma js_get_js_set_other (a : list cell) (index j : Z) (v : cell) :
  0 <= index -> j <> index ->
  js_get (js_set a (Z.to_nat index) v) j = js_get a j.
Proof.
  intros H Hne. destruct (Z.ltb_spec j 0) as [Hj | Hj].
  - now rewrite !js_get_negative.
  - rewrite !js_get_lookup by assumption.
    apply js_set_lookup_other. lia.
Qed.

(** A slot that reads [null] is inside the array. *)
Lemma js_get_Null_lookup (a : list cell) (index : Z) :
  0 <= index -> js_get a index = Null -> a !! Z.to_nat index = Some Null.
Proof.
  intros H. rewrite js_get_lookup by assumption.
  destruct (a !! Z.to_nat index); cbn; congruence.
Qed.

Lemma js_set_back (a : list cell) (i : nat) (v : cell) :
  a !! i = Some Null -> js_set (js_set a i v) i Null = a.
Proof.
  intros H. pose proof (lookup_lt_Some _ _ _ H) as Hlt.
  unfold js_set at 2.
  destruct (i <? length a)%nat eqn:E; [| apply Nat.ltb_ge in E; lia].
  unfold js_set. rewrite length_insert, E.
  rewrite list_insert_insert_eq. now apply list_insert_id.
Qed.

Lemma addProductAtIndex_true (s : Shelf) (index : Z) (product : loc) :
  fst (addProductAtIndex s index product) = true <->
  invalidIndex s index = false
  /\ js_get (products s) index = Null
  /\ (forall d, kind s = KDeep d -> layers d <> []).
Proof.
  unfold addProductAtIndex, Shelf_addProductAtIndex,
    DeepShelf_addProductAtIndex.
  destruct (invalidIndex s index).
  { split; [now destruct (kind s) | intros [? _]; discriminate]. }
  destruct (js_get (products s) index) eqn:Eg; cbn [is_null negb].
  1, 3: split; [now destruct (kind s) | intros (_ & ? & _); discriminate].
  destruct (kind s) as [| | | d | | |] eqn:Ek; cbn;
    try (split; [intros _; repeat split; discriminate | reflexivity]).
  destruct (layers d) as [|l ls] eqn:El; cbn.
  - split; [discriminate |]. intros (_ & _ & H).
    now destruct (H d eq_refl).
  - split; [| reflexivity]. intros _. repeat split.
    intros d' Hd'. injection Hd' as <-. now rewrite El.
Qed.

Lemma addProductAtIndex_effect (s : Shelf) (index : Z) (product : loc) :
  fst (addProductAtIndex s index product) = true ->
  let s' := snd (addProductAtIndex s index product) in
  products s' = js_set (products s) (Z.to_nat index) (Prod product)
  /\ slotCount s' = slotCount s
  /\ reference s' = reference s
  /\ (forall d, kind s' = KDeep d -> layers d <> []).
Proof.
  intros Hok. pose proof Hok as (Hi & Hg & Hl)%addProductAtIndex_true.
  revert Hok. cbn zeta.
  unfold addProductAtIndex, Shelf_addProductAtIndex,
    DeepShelf_addProductAtIndex.
  rewrite Hi, Hg. cbn [is_null negb].
  destruct (kind s) as [| | | d | | |] eqn:Ek; cbn;
    try (intros _; repeat split; congruence).
  destruct (layers d) as [|l ls] eqn:El; [discriminate |]. cbn.
  intros _. repeat split. intros d' Hd'. injection Hd' as <-. cbn.
  intros Hnil. now destruct ls.
Qed.

Lemma addProductAtIndex_refused (s : Shelf) (index : Z) (product : loc) :
  fst (addProductAtIndex s index product) = false ->
  snd (addProductAtIndex s index product) = s.
Proof.
  unfold addProductAtIndex, Shelf_addProductAtIndex,
    DeepShelf_addProductAtIndex.
  destruct (kind s) as [| | | d | | |];
    destruct (invalidIndex s index); try reflexivity;
    destruct (negb _); try reflexivity; try discriminate;
    destruct (Nat.eqb _ 0); try reflexivity; discriminate.
Qed.

Lemma removeProductAtIndex_effect (s : Shelf) (index : Z) :
  invalidIndex s index = false ->
  (forall d, kind s = KDeep d -> layers d <> []) ->
  let s' := snd (removeProductAtIndex s index) in
  fst (removeProductAtIndex s index) = js_get (products s) index
  /\ products s' = js_set (products s) (Z.to_nat index) Null
  /\ slotCount s' = slotCount s
  /\ reference s' = reference s
  /\ (forall d, kind s' = KDeep d -> layers d <> []).
Proof.
  intros Hi Hl. cbn zeta.
  unfold removeProductAtIndex, Shelf_removeProductAtIndex,
    DeepShelf_removeProductAtIndex.
  rewrite Hi.
  destruct (kind s) as [| | | d | | |] eqn:Ek; cbn;
    try (repeat split; congruence).
  destruct (layers d) as [|l ls] eqn:El; [now destruct (Hl d eq_refl) |].
  cbn. repeat split. intros d' Hd'. injection Hd' as <-. cbn.
  intros Hnil. now destruct ls.
Qed.

(** Whatever the index, [removeProductAtIndex] leaves the array as it is or
    writes [null] at the index. *)
Lemma removeProductAtIndex_products (s : Shelf) (index : Z) :
  let s' := snd (removeProductAtIndex s index) in
  reference s' = reference s
  /\ (products s' = products s
      \/ (0 <= index
          /\ products s' = js_set (products s) (Z.to_nat index) Null)).
Proof.
  cbn zeta.
  unfold removeProductAtIndex, Shelf_removeProductAtIndex,
    DeepShelf_removeProductAtIndex.
  destruct (invalidIndex s index) eqn:Hi.
  - destruct (kind s); cbn; auto.
  - apply invalidIndex_false in Hi as [Hpos _].
    destruct (kind s) as [| | | d | | |]; cbn; auto.
    destruct (Nat.eqb _ 0); cbn; auto.
Qed.

(** A shelf that is willing to take a product in a slot has that slot in
    range and holding [null]. *)
Lemma canDropProductAtIndex_true (st : store) (r : sref) (product : loc)
    (index : Z) :
  canDropProductAtIndex st r product index = true ->
  invalidIndex (st r) index = false /\ js_get (products (st r)) index = Null.
Proof.
  assert (Hbase : Shelf_canDropProductAtIndex (st r) product index = true ->
                  invalidIndex (st r) index = false
                  /\ js_get (products (st r)) index = Null).
  { unfold Shelf_canDropProductAtIndex.
    destruct (invalidIndex (st r) index); [discriminate |].
    destruct (js_get (products (st r)) index); cbn; try discriminate. auto. }
  assert (Hclass : class_canDropProductAtIndex (st r) product index = true ->
                   invalidIndex (st r) index = false
                   /\ js_get (products (st r)) index = Null).
  { unfold class_canDropProductAtIndex.
    destruct (kind (st r)) as [|c ? ?|? c ? ?| | | |]; try exact Hbase;
      try discriminate; destruct c; try discriminate; exact Hbase. }
  unfold canDropProductAtIndex.
  destruct (canDropOverride (st r)) as [[|w]|]; [discriminate | | exact Hclass].
  destruct (wrapperLocked st w); [discriminate | exact Hclass].
Qed.

(** ** Placement resolution *)

Lemma insert_by_In {A} (key : A -> Q) (x y : A) (l : list A) :
  In y (insert_by key x l) <-> y = x \/ In y l.
Proof.
  induction l as [|z l IH]; cbn.
  - intuition.
  - destruct (Qle_bool (key x) (key z)); cbn; [intuition |].
    rewrite IH. intuition.
Qed.

Lemma sort_by_In {A} (key : A -> Q) (y : A) (l : list A) :
  In y (sort_by key l) <-> In y l.
Proof.
  induction l as [|x l IH]; cbn; [reflexivity |].
  rewrite insert_by_In, IH. intuition.
Qed.

Lemma head_sort_by {A} (key : A -> Q) (l : list A) :
  match head (sort_by key l) with
  | Some x => In x l
  | None => l = []
  end.
Proof.
  destruct (sort_by key l) as [|x rest] eqn:E; cbn.
  - destruct l as [|y l]; [reflexivity |].
    assert (Hy : In y (sort_by key (y :: l))) by (apply sort_by_In; now left).
    rewrite E in Hy. destruct Hy.
  - apply (sort_by_In key). rewrite E. now left.
Qed.

Section PlacementFacts.
Variable overlaps : loc -> sref -> nat -> bool.
Variable centreDistance : loc -> sref -> nat -> Q.

(** The slots [findShelfSlot] chooses among. *)
Lemma wrapper_canDrop (st : store) (r : sref) (product : loc) (index : Z) :
  match kind (st r) with
  | KSupply _ | KLocking _ _ _ _ | KDisappearing _ _ _ => True
  | _ => False
  end ->
  canDropProductAtIndex st r product index = false.
Proof.
  unfold canDropProductAtIndex, class_canDropProductAtIndex.
  destruct (kind (st r)); try contradiction; intros _;
    destruct (canDropOverride (st r)) as [[|w]|]; try reflexivity;
    now destruct (wrapperLocked st w).
Qed.

Lemma findShelfSlot_None (st : store) (r : sref) (product : loc) :
  findShelfSlot overlaps centreDistance st r product = None
  <-> forall index, (index < slotCount (st r))%nat ->
        eligibleSlot overlaps st product r index = false.
Proof.
  assert (Hbase : Shelf_findShelfSlot overlaps centreDistance st r product = None
                  <-> forall index, (index < slotCount (st r))%nat ->
                        eligibleSlot overlaps st product r index = false).
  { unfold Shelf_findShelfSlot.
    set (slots := map _ _).
    pose proof (head_sort_by distance slots) as Hhead.
    split.
    - intros Hnone. rewrite Hnone in Hhead.
      intros index Hlt. unfold eligibleSlot.
      destruct (canDropProductAtIndex st r product (Z.of_nat index)) eqn:Ec;
        [| reflexivity].
      destruct (overlaps product r index) eqn:Eo; [| reflexivity].
      exfalso.
      assert (Hin : In (mkSlot index (js_get (products (st r)) (Z.of_nat index))
                               (centreDistance product r index)) slots).
      { subst slots. apply in_map_iff. exists index. split; [reflexivity |].
        apply filter_In. split; [| assumption].
        apply filter_In. split; [| assumption].
        apply in_seq. lia. }
      rewrite Hhead in Hin. destruct Hin.
    - intros Hall.
      destruct (head (sort_by distance slots)) as [x|] eqn:E; [| reflexivity].
      exfalso. subst slots.
      apply in_map_iff in Hhead as (index & _ & Hin).
      apply filter_In in Hin as [Hin Ho].
      apply filter_In in Hin as [Hin Hc].
      apply in_seq in Hin.
      specialize (Hall index ltac:(lia)). unfold eligibleSlot in Hall.
      rewrite Hc, Ho in Hall. discriminate. }
  unfold findShelfSlot.
  destruct (kind (st r)) eqn:Ek; try exact Hbase;
    (split; [| reflexivity]; intros _ index _; unfold eligibleSlot;
     rewrite wrapper_canDrop; [reflexivity | now rewrite Ek]).
Qed.

Lemma findShelfSlot_Some (st : store) (r : sref) (product : loc)
    (result : SlotResult) :
  findShelfSlot overlaps centreDistance st r product = Some result ->
  (slotIndex result < slotCount (st r))%nat
  /\ eligibleSlot overlaps st product r (slotIndex result) = true.
Proof.
  intros H.
  assert (Hbase : Shelf_findShelfSlot overlaps centreDistance st r product
                  = Some result).
  { unfold findShelfSlot in H. now destruct (kind (st r)). }
  unfold Shelf_findShelfSlot in Hbase.
  set (slots := map _ _) in Hbase.
  pose proof (head_sort_by distance slots) as Hhead.
  rewrite Hbase in Hhead. subst slots.
  apply in_map_iff in Hhead as (index & <- & Hin).
  apply filter_In in Hin as [Hin Ho].
  apply filter_In in Hin as [Hin Hc].
  apply in_seq in Hin. cbn [slotIndex]. unfold eligibleSlot.
  rewrite Hc, Ho. split; [lia | reflexivity].
Qed.

Lemma Level_isValidDropPosition_None (L : Level) (product : loc) :
  Level_isValidDropPosition overlaps centreDistance L product = None
  <-> forall r index, In r (shelves L) ->
        (index < slotCount (shelfHeap L r))%nat ->
        eligibleSlot overlaps (shelfHeap L) product r index = false.
Proof.
  unfold Level_isValidDropPosition.
  set (results := flat_map _ _).
  pose proof (head_sort_by (fun r : sref * SlotResult => distance (snd r))
                results) as Hhead.
  destruct (sort_by _ results) as [|closest rest] eqn:E; cbn in Hhead.
  - split; [| reflexivity]. intros _ r index Hr Hlt.
    apply (findShelfSlot_None (shelfHeap L) r product); [| assumption].
    destruct (findShelfSlot overlaps centreDistance (shelfHeap L) r product)
      as [result|] eqn:Ef; [| reflexivity].
    exfalso.
    assert (Hin : In (r, result) results).
    { subst results. apply in_flat_map. exists r. split; [assumption |].
      rewrite Ef. now left. }
    rewrite Hhead in Hin. destruct Hin.
  - split; [discriminate |]. intros Hall. exfalso.
    subst results. apply in_flat_map in Hhead as (r & Hr & Hin).
    destruct (findShelfSlot overlaps centreDistance (shelfHeap L) r product)
      as [result|] eqn:Ef; [| destruct Hin].
    apply findShelfSlot_Some in Ef as [Hlt He].
    rewrite (Hall r _ Hr Hlt) in He. discriminate.
Qed.

Lemma Level_isValidDropPosition_Some (L : Level) (product : loc)
    (destination : sref) (destinationSlot : nat) :
  Level_isValidDropPosition overlaps centreDistance L product
  = Some (destination, destinationSlot) ->
  In destination (shelves L)
  /\ (destinationSlot < slotCount (shelfHeap L destination))%nat
  /\ eligibleSlot overlaps (shelfHeap L) product destination destinationSlot
     = true.
Proof.
  unfold Level_isValidDropPosition.
  set (results := flat_map _ _).
  pose proof (head_sort_by (fun r : sref * SlotResult => distance (snd r))
                results) as Hhead.
  destruct (sort_by _ results) as [|closest rest] eqn:E; cbn in Hhead;
    [discriminate |].
  intros Heq. injection Heq as <- <-.
  subst results. apply in_flat_map in Hhead as (r & Hr & Hin).
  destruct (findShelfSlot overlaps centreDistance (shelfHeap L) r product)
    as [result|] eqn:Ef; [| destruct Hin].
  destruct Hin as [<- | []]. cbn [fst snd].
  apply findShelfSlot_Some in Ef as [Hlt He]. auto.
Qed.

Lemma moveProduct_other (st : store) (origin : sref) (originSlot : Z)
    (destination : sref) (destinationSlot : nat) (product : loc) (r : sref) :
  r <> origin -> r <> destination ->
  moveProduct st origin originSlot destination destinationSlot product r = st r.
Proof.
  intros Ho Hd. unfold moveProduct.
  rewrite store_set_other by assumption. now apply store_set_other.
Qed.

(** The slots after the two mutations of a valid drop. *)
Lemma moveProduct_slots (st : store) (origin : sref) (originSlot : Z)
    (destination : sref) (destinationSlot : nat) (product : loc) :
  invalidIndex (st origin) originSlot = false ->
  js_get (products (st origin)) originSlot = Prod product ->
  (forall d, kind (st origin) = KDeep d -> layers d <> []) ->
  canDropProductAtIndex st destination product (Z.of_nat destinationSlot)
  = true ->
  (forall d, kind (st destination) = KDeep d -> layers d <> []) ->
  let st' := moveProduct st origin originSlot destination destinationSlot
                         product in
  js_get (products (st' destination)) (Z.of_nat destinationSlot)
  = Prod product
  /\ js_get (products (st' origin)) originSlot = Null
  /\ forall (r : sref) (j : Z),
       (r <> destination \/ j <> Z.of_nat destinationSlot) ->
       (r <> origin \/ j <> originSlot) ->
       js_get (products (st' r)) j = js_get (products (st r)) j.
Proof.
  intros Hio Hgo Hlo Hc Hld.
  apply canDropProductAtIndex_true in Hc as [Hid Hgd].
  pose proof (invalidIndex_false _ _ Hio) as [Hpo _].
  pose proof (removeProductAtIndex_effect (st origin) originSlot Hio Hlo)
    as Hrem. cbn zeta in Hrem.
  destruct Hrem as (_ & Hpso & Hsco & _ & Hlo').
  cbn zeta. unfold moveProduct.
  set (so := snd (removeProductAtIndex (st origin) originSlot)) in *.
  set (st1 := store_set st origin so).
  assert (Hadd : fst (addProductAtIndex (st1 destination)
                        (Z.of_nat destinationSlot) product) = true).
  { apply addProductAtIndex_true. subst st1.
    destruct (Nat.eq_dec destination origin) as [-> | Hne].
    - rewrite store_set_same.
      split; [unfold invalidIndex in *; now rewrite Hsco |].
      split; [| exact Hlo'].
      rewrite Hpso, js_get_js_set_other; [assumption | assumption |].
      intros Heq. rewrite Heq in Hgd. congruence.
    - rewrite store_set_other by assumption. auto. }
  pose proof (addProductAtIndex_effect _ _ _ Hadd) as Heff.
  cbn zeta in Heff. destruct Heff as (Hpsd & _).
  set (sd := snd (addProductAtIndex (st1 destination)
                    (Z.of_nat destinationSlot) product)) in *.
  rewrite Nat2Z.id in Hpsd.
  assert (Hds : 0 <= Z.of_nat destinationSlot) by lia.
  split; [| split].
  - rewrite store_set_same, Hpsd.
    rewrite <- (Nat2Z.id destinationSlot) at 1.
    now apply js_get_js_set_same.
  - destruct (Nat.eq_dec origin destination) as [Heq | Hne].
    + subst destination. rewrite store_set_same, Hpsd.
      subst st1. rewrite store_set_same, Hpso.
      rewrite <- (Nat2Z.id destinationSlot) at 1.
      rewrite js_get_js_set_other; [| assumption |].
      * now apply js_get_js_set_same.
      * intros Heq. rewrite Heq in Hgo. congruence.
    + rewrite store_set_other by assumption.
      subst st1. rewrite store_set_same, Hpso.
      now apply js_get_js_set_same.
  - intros r j Hd Ho.
    destruct (Nat.eq_dec r destination) as [-> | Hnd].
    + rewrite store_set_same, Hpsd.
      rewrite <- (Nat2Z.id destinationSlot) at 1.
      rewrite js_get_js_set_other; [| assumption | now destruct Hd].
      subst st1.
      destruct (Nat.eq_dec destination origin) as [-> | Hno].
      * rewrite store_set_same, Hpso.
        apply js_get_js_set_other; [assumption | now destruct Ho].
      * now rewrite store_set_other.
    + rewrite store_set_other by assumption. subst st1.
      destruct (Nat.eq_dec r origin) as [-> | Hno].
      * rewrite store_set_same, Hpso.
        apply js_get_js_set_other; [assumption | now destruct Ho].
      * now rewrite store_set_other.
Qed.

(** C2. Releasing a dragged product. In both cases no product is being
    dragged afterwards. When no shelf of the level has a slot that is
    willing to take the product and overlaps it, every shelf is exactly as
    before, so the product is still in the slot it was dragged from. When
    there is such a slot, one of them is the destination, and afterwards
    the origin shelf is as one [removeProductAtIndex] at the origin slot
    leaves it, the destination shelf as one [addProductAtIndex] of the
    product at the destination slot then leaves it (on the shelf after
    the removal, when the destination is the origin shelf), and every
    other shelf is as before. Where the product was in its origin slot
    (and each of the two shelves, when deep, has a layer) the removal
    returns the product, and afterwards the destination slot holds the
    product, the origin slot holds [null], and every other slot of every
    shelf reads as before. *)
Theorem Level_finishDraggingProduct_frame (L : Level) (origin : sref)
    (originSlot : Z) (product : loc) :
  draggingProduct L = Some (origin, originSlot, product) ->
  let L' := Level_finishDraggingProduct overlaps centreDistance L in
  draggingProduct L' = None
  /\ ((forall r index, In r (shelves L) ->
         (index < slotCount (shelfHeap L r))%nat ->
         eligibleSlot overlaps (shelfHeap L) product r index = false) ->
      shelfHeap L' = shelfHeap L)
  /\ ((exists r index, In r (shelves L)
         /\ (index < slotCount (shelfHeap L r))%nat
         /\ eligibleSlot overlaps (shelfHeap L) product r index = true) ->
      exists (destination : sref) (destinationSlot : nat),
        In destination (shelves L)
        /\ (destinationSlot < slotCount (shelfHeap L destination))%nat
        /\ eligibleSlot overlaps (shelfHeap L) product destination
                        destinationSlot = true
        /\ (let removed :=
              snd (removeProductAtIndex (shelfHeap L origin) originSlot) in
            let target :=
              if Nat.eqb destination origin then removed
              else shelfHeap L destination in
            let added :=
              snd (addProductAtIndex target (Z.of_nat destinationSlot)
                                     product) in
            shelfHeap L' destination = added
            /\ (destination <> origin -> shelfHeap L' origin = removed)
            /\ forall r, r <> origin -> r <> destination ->
                         shelfHeap L' r = shelfHeap L r)
        /\ (invalidIndex (shelfHeap L origin) originSlot = false ->
            js_get (products (shelfHeap L origin)) originSlot
            = Prod product ->
            (forall d, kind (shelfHeap L origin) = KDeep d ->
                       layers d <> []) ->
            (forall d, kind (shelfHeap L destination) = KDeep d ->
                       layers d <> []) ->
            fst (removeProductAtIndex (shelfHeap L origin) originSlot)
            = Prod product
            /\ js_get (products (shelfHeap L' destination))
                      (Z.of_nat destinationSlot) = Prod product
            /\ js_get (products (shelfHeap L' origin)) originSlot = Null
            /\ forall (r : sref) (j : Z),
                 (r <> destination \/ j <> Z.of_nat destinationSlot) ->
                 (r <> origin \/ j <> originSlot) ->
                 js_get (products (shelfHeap L' r)) j
                 = js_get (products (shelfHeap L r)) j)).
Proof.
  intros Hdrag L'. subst L'. unfold Level_finishDraggingProduct.
  rewrite Hdrag.
  split; [reflexivity | split].
  - intros Hnone.
    apply Level_isValidDropPosition_None in Hnone. now rewrite Hnone.
  - intros (r & index & Hr & Hlt & He).
    destruct (Level_isValidDropPosition overlaps centreDistance L product)
      as [[destination destinationSlot]|] eqn:Ev.
    + apply Level_isValidDropPosition_Some in Ev as (Hd & Hdl & Hde).
      exists destination, destinationSlot.
      split; [assumption | split; [assumption | split; [assumption |]]].
      assert (Hst : forall st,
                shelfHeap
                  (set_draggingProduct
                     (set_product
                        (if hasReference (st destination)
                         then set_stats (set_shelfHeap L st)
                                (logPlacement (stats (set_shelfHeap L st))
                                   (destination, Z.of_nat destinationSlot,
                                    product))
                         else set_shelfHeap L st)
                        product
                        (set_dragging
                           (productHeap
                              (if hasReference (st destination)
                               then set_stats (set_shelfHeap L st)
                                      (logPlacement
                                         (stats (set_shelfHeap L st))
                                         (destination,
                                          Z.of_nat destinationSlot, product))
                               else set_shelfHeap L st) product) false))
                     None) = st)
        by (intros st; now destruct (hasReference (st destination))).
      rewrite Hst. split.
      * cbn zeta. unfold moveProduct. split; [| split].
        -- rewrite store_set_same. unfold store_set at 1.
           reflexivity.
        -- intros Hne. rewrite store_set_other by congruence.
           apply store_set_same.
        -- intros r' Ho Hd'.
           rewrite store_set_other by assumption.
           now apply store_set_other.
      * intros Hio Hgo Hlo Hld. split.
        -- pose proof (removeProductAtIndex_effect _ _ Hio Hlo) as Hrem.
           cbn zeta in Hrem. destruct Hrem as (Hfst & _).
           now rewrite Hfst.
        -- apply moveProduct_slots; try assumption.
           unfold eligibleSlot in Hde.
           now apply andb_true_iff in Hde as [Hc _].
    + exfalso.
      pose proof (proj1 (Level_isValidDropPosition_None L product) Ev
                    r index Hr Hlt) as Hf.
      rewrite Hf in He. discriminate.
Qed.

End PlacementFacts.

Lemma Level_finishDraggingProduct_frame_witness :
  let L' := Level_finishDraggingProduct overSecondShelf nearerToSlotOne
              twoShelfLevel in
  draggingProduct L' = None
  /\ exists (destination : sref) (destinationSlot : nat),
       In destination (shelves twoShelfLevel)
       /\ shelfHeap L' destination
          = snd (addProductAtIndex (shelfHeap twoShelfLevel destination)
                                   (Z.of_nat destinationSlot) 0%nat)
       /\ shelfHeap L' 0%nat
          = snd (removeProductAtIndex (shelfHeap twoShelfLevel 0%nat) 0)
       /\ js_get (products (shelfHeap L' destination))
                 (Z.of_nat destinationSlot) = Prod 0%nat
       /\ js_get (products (shelfHeap L' 0%nat)) 0 = Null.
Proof.
  destruct (Level_finishDraggingProduct_frame overSecondShelf nearerToSlotOne
              twoShelfLevel 0%nat 0 0%nat eq_refl)
    as (Hnone & _ & Hvalid).
  split; [exact Hnone |].
  destruct Hvalid as (destination & destinationSlot & Hin & _ & He & Hst & Hslots).
  - exists 1%nat, 1%nat.
    split; [right; left; reflexivity |]. split; [vm_compute; lia |].
    reflexivity.
  - exists destination, destinationSlot.
    assert (Hd : destination = 1%nat).
    { destruct Hin as [<- | [<- | []]]; [| reflexivity].
      unfold eligibleSlot in He. apply andb_true_iff in He as [_ Ho].
      vm_compute in Ho. discriminate Ho. }
    subst destination. cbn zeta in Hst. destruct Hst as (Hadd & Hrem & _).
    destruct Hslots as (_ & Hdest & Horig & _);
      try (intros d H; vm_compute in H; discriminate H);
      try reflexivity.
    split; [assumption |]. split; [exact Hadd |].
    split; [apply Hrem; discriminate |]. split; assumption.
Defined.

(** The two releases on the level of two shelves: over slots 1 and 2 of the
    second shelf the product moves to slot 1 and the placement is logged;
    over no slot nothing moves. *)
Example Level_finishDraggingProduct_two_shelves :
  let moved := Level_finishDraggingProduct overSecondShelf nearerToSlotOne
                 twoShelfLevel in
  let stayed := Level_finishDraggingProduct overNothing nearerToSlotOne
                  twoShelfLevel in
  products (shelfHeap moved 0%nat) = [Null; Null; Null]
  /\ products (shelfHeap moved 1%nat) = [Null; Prod 0%nat; Null]
  /\ productPlacements (stats moved) = [(1%nat, 1, 0%nat)]
  /\ products (shelfHeap stayed 0%nat) = [Prod 0%nat; Null; Null]
  /\ products (shelfHeap stayed 1%nat) = [Null; Null; Null]
  /\ productPlacements (stats stayed) = [].
Proof. vm_compute. repeat split. Qed.

(** * Further properties *)

(** ** Adding and removing a product *)

(** X1. [addProductAtIndex] answers [true] exactly when the index is in
    range and the slot holds [null] (and, on a deep shelf, there is a
    layer): it looks at nothing else, neither a closed or completed state
    nor a wrapper. The product is then in the slot, and every other slot
    reads as before. *)
Theorem addProductAtIndex_succeeds (s : Shelf) (index : Z) (product : loc) :
  (fst (addProductAtIndex s index product) = true <->
   Shelf_canDropProductAtIndex s product index = true
   /\ (forall d, kind s = KDeep d -> layers d <> []))
  /\ (fst (addProductAtIndex s index product) = true ->
      js_get (products (snd (addProductAtIndex s index product))) index
      = Prod product
      /\ forall j, j <> index ->
           js_get (products (snd (addProductAtIndex s index product))) j
           = js_get (products s) j).
Proof.
  split.
  - rewrite addProductAtIndex_true. unfold Shelf_canDropProductAtIndex.
    destruct (invalidIndex s index); [intuition discriminate |].
    destruct (js_get (products s) index); cbn; intuition discriminate.
  - intros Hok. pose proof Hok as (Hi & Hg & Hl)%addProductAtIndex_true.
    apply invalidIndex_false in Hi as [Hpos _].
    assert (Hps : products (snd (addProductAtIndex s index product))
                  = js_set (products s) (Z.to_nat index) (Prod product)).
    { revert Hok.
      unfold addProductAtIndex, Shelf_addProductAtIndex,
        DeepShelf_addProductAtIndex.
      destruct (invalidIndex s index);
        [destruct (kind s); discriminate |].
      rewrite Hg. cbn [is_null negb].
      destruct (kind s) as [| | | d | | |]; try reflexivity.
      destruct (Nat.eqb _ 0); [discriminate | reflexivity]. }
    rewrite Hps. split.
    + now apply js_get_js_set_same.
    + intros j Hj. now apply js_get_js_set_other.
Qed.

Lemma addProductAtIndex_succeeds_witness :
  (fst (addProductAtIndex emptyShelf 1 7%nat) = true <->
   Shelf_canDropProductAtIndex emptyShelf 7%nat 1 = true
   /\ (forall d, kind emptyShelf = KDeep d -> layers d <> []))
  /\ js_get (products (snd (addProductAtIndex emptyShelf 1 7%nat))) 1
     = Prod 7%nat
  /\ forall j, j <> 1 ->
       js_get (products (snd (addProductAtIndex emptyShelf 1 7%nat))) j
       = js_get (products emptyShelf) j.
Proof.
  destruct (addProductAtIndex_succeeds emptyShelf 1 7%nat) as [Hiff Hok].
  split; [exact Hiff | apply Hok; reflexivity].
Defined.

(** X2. Putting a product in a slot and taking it out again: after a
    successful [addProductAtIndex], [removeProductAtIndex] at the same
    index returns that product and leaves the [products] array as it was
    before the two calls. *)
Theorem add_remove_round_trip (s : Shelf) (index : Z) (product : loc) :
  fst (addProductAtIndex s index product) = true ->
  let s1 := snd (addProductAtIndex s index product) in
  fst (removeProductAtIndex s1 index) = Prod product
  /\ products (snd (removeProductAtIndex s1 index)) = products s.
Proof.
  intros Hok. pose proof Hok as (Hi & Hg & Hl)%addProductAtIndex_true.
  pose proof (invalidIndex_false _ _ Hi) as [Hpos _].
  cbn zeta.
  assert (Hs1 : exists s1,
             snd (addProductAtIndex s index product) = s1
             /\ products s1
                = js_set (products s) (Z.to_nat index) (Prod product)
             /\ slotCount s1 = slotCount s
             /\ (forall d, kind s1 = KDeep d -> layers d <> [])).
  { eexists. split; [reflexivity |]. revert Hok.
    unfold addProductAtIndex, Shelf_addProductAtIndex,
      DeepShelf_addProductAtIndex.
    rewrite Hi, Hg. cbn [is_null negb].
    destruct (kind s) as [| | | d | | |] eqn:Ek; cbn;
      try (intros _; repeat split; congruence).
    destruct (layers d) as [|l ls] eqn:El; [discriminate |]. cbn.
    intros _. repeat split. intros d' Hd'. injection Hd' as <-. cbn.
    intros Hnil. now destruct ls. }
  destruct Hs1 as (s1 & -> & Hps & Hsc & Hl1).
  assert (Hi1 : invalidIndex s1 index = false)
    by (unfold invalidIndex in *; now rewrite Hsc).
  unfold removeProductAtIndex, Shelf_removeProductAtIndex,
    DeepShelf_removeProductAtIndex.
  rewrite Hi1.
  assert (Hback : js_set (products s1) (Z.to_nat index) Null = products s).
  { rewrite Hps. apply js_set_back. now apply js_get_Null_lookup. }
  assert (Hread : js_get (products s1) index = Prod product)
    by (rewrite Hps; now apply js_get_js_set_same).
  destruct (kind s1) as [| | | d | | |] eqn:Ek; cbn; rewrite ?Hback; auto.
  destruct (layers d) as [|l ls] eqn:El; [now destruct (Hl1 d eq_refl) |].
  cbn. auto.
Qed.

Lemma add_remove_round_trip_witness :
  let s1 := snd (addProductAtIndex emptyShelf 1 7%nat) in
  fst (removeProductAtIndex s1 1) = Prod 7%nat
  /\ products (snd (removeProductAtIndex s1 1)) = products emptyShelf.
Proof. apply (add_remove_round_trip emptyShelf 1 7%nat). reflexivity. Defined.

(** ** What the match search finds *)

Lemma findMatchingGroups_loop_nil (h : heap) (matchCount : nat)
    (all : list loc) :
  findMatchingGroups_loop h matchCount [] all = [].
Proof. reflexivity. Qed.

(** X3. A match needs enough candidates: when [checkForMatches] reports a
    match, the shelf holds at least one product that is not disappearing,
    and at least [matchCount] of them (counted as slots). A shelf with
    fewer reports none. *)
Theorem Shelf_checkForMatches_needs_candidates (h : heap) (s : Shelf) :
  found (Shelf_checkForMatches h s) = true ->
  validProducts h (products s) <> []
  /\ (matchCount s <= length (validProducts h (products s)))%nat.
Proof.
  unfold Shelf_checkForMatches, Shelf_findMatchingGroups. cbn [found].
  set (v := validProducts h (products s)).
  destruct (findMatchingGroups_loop h (matchCount s) v v) as [|g rest] eqn:E;
    [discriminate |].
  intros _. split.
  - intros Hv. rewrite Hv in E. discriminate.
  - destruct (findMatchingGroups_loop_spec h v (matchCount s) v g)
      as (Hlen & Hnd & Hsub & _); [auto | rewrite E; now left |].
    rewrite <- Hlen. apply List.NoDup_incl_length; [now apply NoDup_ListNoDup | exact Hsub].
Qed.

Lemma Shelf_checkForMatches_needs_candidates_witness :
  validProducts applesHeap (products applesShelf) <> []
  /\ (matchCount applesShelf
      <= length (validProducts applesHeap (products applesShelf)))%nat.
Proof.
  apply (Shelf_checkForMatches_needs_candidates applesHeap applesShelf).
  reflexivity.
Defined.

Lemma filter_all_false {A} (f : A -> bool) (l : list A) :
  (forall x, In x l -> f x = false) -> List.filter f l = [].
Proof.
  induction l as [|x l IH]; intros H; cbn; [reflexivity |].
  rewrite (H x) by now left. apply IH. intros y Hy. apply H. now right.
Qed.

Lemma filter_all_true {A} (f : A -> bool) (l : list A) :
  (forall x, In x l -> f x = true) -> List.filter f l = l.
Proof.
  induction l as [|x l IH]; intros H; cbn; [reflexivity |].
  rewrite (H x) by now left. f_equal. apply IH. intros y Hy. apply H. now right.
Qed.

(** Among different products that all match one another, the candidates of
    a group made of the first [k] are the others, in order. *)
Lemma matchingProducts_prefix (h : heap) (v : list loc) (k : nat) :
  NoDup v -> allPairsMatch h v ->
  matchingProducts h (take k v) v = drop k v.
Proof.
  intros Hnd Hall. unfold matchingProducts.
  pose proof (take_drop k v) as Hv.
  set (g := take k v) in *. set (d := drop k v) in *. clearbody g d.
  subst v. rewrite List.filter_app.
  apply NoDup_app in Hnd as (_ & Hdis & _).
  rewrite filter_all_false, filter_all_true; [reflexivity | |].
  - intros x Hx. apply andb_true_iff. split.
    + apply negb_true_iff, not_true_iff_false. intros Hi%includes_In.
      apply (Hdis x); now apply list_elem_of_In.
    + apply forallb_forall. intros y Hy. apply Hall.
      * apply in_or_app. now right.
      * apply in_or_app. now left.
      * intros ->. apply (Hdis y); now apply list_elem_of_In.
  - intros x Hx. apply andb_false_iff. left.
    apply negb_false_iff, includes_In, Hx.
Qed.

Lemma grow_prefix (h : heap) (v : list loc) :
  NoDup v -> allPairsMatch h v ->
  forall need k : nat,
    (k + need <= length v)%nat ->
    grow h need (take k v) v = take (k + need) v.
Proof.
  intros Hnd Hall. induction need as [|need IH]; intros k Hk; cbn [grow].
  - now rewrite Nat.add_0_r.
  - rewrite matchingProducts_prefix by assumption.
    destruct (drop k v) as [|first rest] eqn:Ed.
    + apply (f_equal (@length _)) in Ed. rewrite length_drop in Ed.
      cbn in Ed. lia.
    + assert (Hk1 : take k v ++ [first] = take (S k) v).
      { assert (Hf : v !! k = Some first).
        { rewrite <- (Nat.add_0_r k), <- lookup_drop, Ed. reflexivity. }
        now rewrite (take_S_r v k first Hf). }
      rewrite Hk1, IH by lia. f_equal. lia.
Qed.

(** X4. Among different products that all match one another the search is
    complete and takes the first ones: when the products of the shelf that
    are not disappearing are pairwise different and all match one another,
    and there are at least [matchCount] of them (and at least one), the
    reported group is the first [matchCount] of them in slot order. *)
Theorem Shelf_checkForMatches_first_products (h : heap) (s : Shelf) :
  let v := validProducts h (products s) in
  NoDup v -> allPairsMatch h v ->
  v <> [] -> (matchCount s <= length v)%nat ->
  Shelf_checkForMatches h s
  = {| found := true; matched := Some (take (matchCount s) v) |}.
Proof.
  intros v Hnd Hall Hne Hlen.
  unfold Shelf_checkForMatches, Shelf_findMatchingGroups. fold v.
  destruct v as [|start rest] eqn:Ev; [congruence |].
  cbn [findMatchingGroups_loop].
  assert (Hg : Shelf_growMatchingGroup h (matchCount s) [start] (start :: rest)
               = take (Nat.max 1 (matchCount s)) (start :: rest)).
  { unfold Shelf_growMatchingGroup.
    change [start] with (take 1 (start :: rest)) at 2.
    cbn [length]. rewrite grow_prefix by (cbn [length] in *; auto; lia).
    f_equal. lia. }
  rewrite Hg.
  assert (Hl : length (take (Nat.max 1 (matchCount s)) (start :: rest))
               = Nat.max 1 (matchCount s))
    by (rewrite length_take; cbn [length] in *; lia).
  rewrite Hl.
  destruct (matchCount s <=? Nat.max 1 (matchCount s))%nat eqn:E;
    [| apply Nat.leb_gt in E; lia].
  cbn. f_equal. f_equal.
  change (take (matchCount s) (take (Nat.max 1 (matchCount s)) (start :: rest))
          = take (matchCount s) (start :: rest)).
  rewrite take_take. f_equal. lia.
Qed.

Lemma Shelf_checkForMatches_first_products_witness :
  Shelf_checkForMatches applesHeap applesShelf
  = {| found := true;
       matched := Some (take (matchCount applesShelf)
                          (validProducts applesHeap (products applesShelf))) |}.
Proof.
  apply (Shelf_checkForMatches_first_products applesHeap applesShelf).
  - repeat (apply NoDup_cons; split;
            [rewrite list_elem_of_In; cbn; intuition discriminate |]).
    apply NoDup_nil. exact I.
  - intros x y _ _ _. reflexivity.
  - discriminate.
  - cbn. lia.
Defined.

(** X5. With [matchCount] 0 or 1 nothing has to match: the shelf reports a
    match as soon as it holds a product that is not disappearing, and the
    group is that first product alone (or nothing, for 0). *)
Theorem Shelf_checkForMatches_single (h : heap) (s : Shelf) :
  (matchCount s <= 1)%nat ->
  Shelf_checkForMatches h s
  = match validProducts h (products s) with
    | [] => {| found := false; matched := None |}
    | first :: _ =>
        {| found := true; matched := Some (take (matchCount s) [first]) |}
    end.
Proof.
  intros Hmc.
  unfold Shelf_checkForMatches, Shelf_findMatchingGroups.
  destruct (validProducts h (products s)) as [|first rest]; [reflexivity |].
  cbn [findMatchingGroups_loop]. unfold Shelf_growMatchingGroup.
  replace (matchCount s - length [first])%nat with 0%nat by (cbn; lia).
  cbn [grow length].
  destruct (matchCount s <=? 1)%nat eqn:E; [| apply Nat.leb_gt in E; lia].
  reflexivity.
Qed.

Lemma Shelf_checkForMatches_single_witness :
  Shelf_checkForMatches applesHeap singleShelf
  = match validProducts applesHeap (products singleShelf) with
    | [] => {| found := false; matched := None |}
    | first :: _ =>
        {| found := true;
           matched := Some (take (matchCount singleShelf) [first]) |}
    end.
Proof.
  apply (Shelf_checkForMatches_single applesHeap singleShelf). cbn. lia.
Defined.

(** ** The disappearing animation *)

Lemma Qle_bool_true (x y : Q) : Qle_bool x y = true -> (x <= y)%Q.
Proof. apply Qle_bool_iff. Qed.

Lemma Qle_bool_false (x y : Q) : Qle_bool x y = false -> (y < x)%Q.
Proof.
  intros H. apply Qnot_le_lt. intros Hle. apply Qle_bool_iff in Hle. congruence.
Qed.

(** Splits on every comparison of the goal and turns it into its order
    fact. *)
Ltac qcases :=
  repeat match goal with
    | |- context [Qle_bool ?x ?y] =>
        let E := fresh "E" in
        destruct (Qle_bool x y) eqn:E;
        [apply Qle_bool_true in E | apply Qle_bool_false in E]
    end.

Lemma disappearingInv_start (p : Product) (delay : Q) :
  disappearing p = false -> disappearingInv (Product_disappear p delay).
Proof.
  intros H. unfold disappearingInv, Product_disappear. rewrite H. cbn.
  unfold DISAPPEARING_ANIMATION_TIME.
  split; [reflexivity |]. split; [lra |]. split; [auto |].
  split; [| discriminate].
  split; [discriminate | intros Hle; lra].
Qed.

Lemma disappearingInv_step (i : Input) (self : loc) (c : bool) (p : Product) :
  (0 <= dt i)%Q -> disappearingInv p ->
  disappearingInv (fst (Product_update i self c p))
  /\ (startedDisappearing (fst (Product_update i self c p)) = false ->
      (0 < disappearingDelay (fst (Product_update i self c p)))%Q).
Proof.
  intros Hdt (Hd & Hbounds & Hwait & Hfin & Hstart).
  unfold disappearingInv, Product_update, Product_updateDisappearing.
  cbn. rewrite Hd. cbn.
  unfold clamp, clamp_from, Qlt_bool, DISAPPEARING_ANIMATION_TIME in *.
  destruct (startedDisappearing p) eqn:Es.
  - specialize (Hstart eq_refl). cbn.
    destruct (finishedDisappearing p) eqn:Ef.
    + pose proof (proj1 Hfin eq_refl) as Hz.
      qcases; cbn [negb orb] in *; repeat split; intros;
        first [reflexivity | discriminate | lra | exfalso; lra].
    + qcases; cbn [negb orb] in *; repeat split; intros;
        first [reflexivity | discriminate | lra | exfalso; lra].
  - destruct (Hwait eq_refl) as [Ht Hf]. rewrite Ht, Hf. cbn.
    qcases; cbn [negb orb] in *; repeat split; intros;
      first [reflexivity | discriminate | lra | exfalso; lra].
Qed.

Lemma disappearingInv_ticks (self : loc) (ticks : list (Input * bool)) :
  Forall (fun t => (0 <= dt (fst t))%Q) ticks ->
  forall p : Product,
    disappearingInv p ->
    disappearingInv (Product_ticks self ticks p)
    /\ (ticks <> [] ->
        startedDisappearing (Product_ticks self ticks p) = false ->
        (0 < disappearingDelay (Product_ticks self ticks p))%Q).
Proof.
  induction 1 as [|t rest Ht Hrest IH]; intros p Hinv; cbn [Product_ticks].
  - split; [assumption | congruence].
  - destruct (disappearingInv_step (fst t) self (snd t) p Ht Hinv)
      as [Hinv1 Hdelay1].
    destruct (IH _ Hinv1) as [Hinv' Hdelay'].
    split; [assumption |]. intros _.
    destruct rest as [|t' rest']; [exact Hdelay1 |].
    apply Hdelay'. discriminate.
Qed.

(** X6. The stages of the disappearing animation. After [disappear(delay)]
    on a product that was not disappearing, and any ticks of non-negative
    duration: the product is disappearing; its animation time lies
    between 0 and the full animation time; as long as the animation has
    not started the time is the full animation time and the product has
    not finished; the product has finished exactly when the animation
    time has come down to 0; the animation has started only when the
    delay has come down to 0; and after at least one tick it has started
    as soon as the delay has. The statement rests on the comparisons and
    clamps of the code, not on the exact value of a difference of
    times. *)
Theorem Product_disappearing_stages (p : Product) (delay : Q) (self : loc)
    (ticks : list (Input * bool)) :
  disappearing p = false ->
  Forall (fun t => (0 <= dt (fst t))%Q) ticks ->
  let p' := Product_ticks self ticks (Product_disappear p delay) in
  disappearing p' = true
  /\ (0 <= disappearingTime p' <= DISAPPEARING_ANIMATION_TIME)%Q
  /\ (startedDisappearing p' = false ->
      disappearingTime p' = DISAPPEARING_ANIMATION_TIME
      /\ finishedDisappearing p' = false)
  /\ (finishedDisappearing p' = true <-> (disappearingTime p' <= 0)%Q)
  /\ (startedDisappearing p' = true -> (disappearingDelay p' <= 0)%Q)
  /\ (ticks <> [] -> startedDisappearing p' = false ->
      (0 < disappearingDelay p')%Q).
Proof.
  intros Hp Hticks p'.
  destruct (disappearingInv_ticks self ticks Hticks
              (Product_disappear p delay) (disappearingInv_start p delay Hp))
    as [(Hd & Hbounds & Hwait & Hfin & Hstart) Hdelay].
  fold p' in Hd, Hbounds, Hwait, Hfin, Hstart, Hdelay.
  auto 10.
Qed.

Lemma Product_disappearing_stages_witness :
  let p' := Product_ticks 0%nat twoTicks (Product_disappear apple (1 # 5)) in
  disappearing p' = true
  /\ (0 <= disappearingTime p' <= DISAPPEARING_ANIMATION_TIME)%Q
  /\ (startedDisappearing p' = false ->
      disappearingTime p' = DISAPPEARING_ANIMATION_TIME
      /\ finishedDisappearing p' = false)
  /\ (finishedDisappearing p' = true <-> (disappearingTime p' <= 0)%Q)
  /\ (startedDisappearing p' = true -> (disappearingDelay p' <= 0)%Q)
  /\ (twoTicks <> [] -> startedDisappearing p' = false ->
      (0 < disappearingDelay p')%Q).
Proof.
  apply (Product_disappearing_stages apple (1 # 5) 0%nat twoTicks).
  - reflexivity.
  - repeat (apply Forall_cons; split; [discriminate |]).
    apply Forall_nil. exact I.
Defined.

(** ** What a tick of a product changes *)

(** X7. A tick never changes what a product is, and never takes a step of
    its life back: identifier, matching identifiers and lock are kept; the
    product is disappearing afterwards exactly when it was before; a
    product that was being dragged, had started or had finished
    disappearing, still is or has; and the product is handed to
    [startDraggingProduct] only when the mouse was pressed over it, the
    shelf allows the pick-up and the product is not locked. *)
Theorem Product_update_keeps (i : Input) (self : loc) (canPickUp : bool)
    (p : Product) :
  let p' := fst (Product_update i self canPickUp p) in
  id p' = id p /\ matches p' = matches p /\ locked p' = locked p
  /\ disappearing p' = disappearing p
  /\ (dragging p = true -> dragging p' = true)
  /\ (startedDisappearing p = true -> startedDisappearing p' = true)
  /\ (finishedDisappearing p = true -> finishedDisappearing p' = true)
  /\ (snd (Product_update i self canPickUp p) = true ->
      mousePressed i = true /\ intersects i self = true
      /\ canPickUp = true /\ locked p = false /\ dragging p' = true)
  /\ (snd (Product_update i self canPickUp p) = false ->
      dragging p' = dragging p).
Proof.
  unfold Product_update, Product_updateDisappearing. cbn.
  destruct (disappearing p) eqn:Ed; cbn;
    (split; [reflexivity |]); (split; [reflexivity |]);
    (split; [reflexivity |]); (split; [auto |]);
    (split; [intros ->; reflexivity |]);
    (split; [try (intros ->; reflexivity); auto |]);
    (split; [try (intros ->; reflexivity); auto |]);
    (split;
     [ intros H; rewrite H, orb_true_r;
       apply andb_true_iff in H as [H Hl];
       apply andb_true_iff in H as [H Hc];
       apply andb_true_iff in H as [Hm Hi];
       apply negb_true_iff in Hl; auto
     | intros ->; now rewrite orb_false_r ]).
Qed.

Lemma Product_update_keeps_witness :
  let p' := fst (Product_update (pressOn 0%nat) 0%nat true apple) in
  id p' = id apple /\ matches p' = matches apple /\ locked p' = locked apple
  /\ disappearing p' = disappearing apple
  /\ (dragging apple = true -> dragging p' = true)
  /\ (startedDisappearing apple = true -> startedDisappearing p' = true)
  /\ (finishedDisappearing apple = true -> finishedDisappearing p' = true)
  /\ (mousePressed (pressOn 0%nat) = true
      /\ intersects (pressOn 0%nat) 0%nat = true
      /\ true = true /\ locked apple = false /\ dragging p' = true)
  /\ (snd (Product_update (pressOn 0%nat) 0%nat true apple) = false ->
      dragging p' = dragging apple).
Proof.
  destruct (Product_update_keeps (pressOn 0%nat) 0%nat true apple)
    as (H1 & H2 & H3 & H4 & H5 & H6 & H7 & H8 & H9).
  repeat (split; [assumption |]). split; [apply H8; reflexivity | exact H9].
Defined.

(** ** What a tick of a shelf changes *)

Lemma disappearAll_finished (group : list loc) :
  forall (h : heap) (index : nat) (p : loc),
    finishedDisappearing (disappearAll h index group p) = true ->
    finishedDisappearing (h p) = true.
Proof.
  induction group as [|q rest IH]; intros h index p Hf; [exact Hf |].
  cbn [disappearAll] in Hf. apply IH in Hf.
  destruct (Nat.eq_dec p q) as [-> | Hne].
  - rewrite heap_set_same in Hf. unfold Product_disappear in Hf.
    destruct (disappearing (h q)); [assumption | discriminate].
  - now rewrite heap_set_other in Hf.
Qed.

Lemma recordMatches_Ret (h : heap) (group : list loc) :
  forall s s' : Stats,
    recordMatches h s group = Ret s' ->
    totalMatches s' = totalMatches s + Z.of_nat (length group)
    /\ totalCompletedShelves s' = totalCompletedShelves s
    /\ time s' = time s
    /\ completedShelves s' = completedShelves s
    /\ productPlacements s' = productPlacements s
    /\ currentProductPlacement s' = currentProductPlacement s.
Proof.
  induction group as [|p rest IH]; intros s s' H; cbn [recordMatches] in H.
  - injection H as <-. cbn [length]. repeat split; lia.
  - unfold recordMatch in H.
    destruct (productMatches s !! id (h p)) as [[proto total]|];
      [| discriminate].
    cbn [bind] in H. apply IH in H as (-> & -> & -> & -> & -> & ->).
    cbn [length totalMatches totalCompletedShelves time completedShelves
         productPlacements currentProductPlacement].
    repeat split; lia.
Qed.

(** The statistics step of [update] writes the statistics and the flag
    [statsUpdated] of the shelf, and nothing else. *)
Lemma Shelf_update_stats_frame (c : Shelf -> bool) (m : MatchResult)
    (L L' : Level) (self : sref) :
  Shelf_update_stats c m L self = Ret L' ->
  productHeap L' = productHeap L
  /\ draggingProduct L' = draggingProduct L
  /\ shelves L' = shelves L
  /\ (forall r, r <> self -> shelfHeap L' r = shelfHeap L r)
  /\ products (shelfHeap L' self) = products (shelfHeap L self)
  /\ kind (shelfHeap L' self) = kind (shelfHeap L self)
  /\ matchCount (shelfHeap L' self) = matchCount (shelfHeap L self)
  /\ slotCount (shelfHeap L' self) = slotCount (shelfHeap L self).
Proof.
  unfold Shelf_update_stats.
  destruct (statsUpdated (shelfHeap L self));
    [intros [= <-]; repeat split; auto |].
  destruct (found m).
  - destruct (recordMatches _ _ _) as [s1|e]; [| discriminate]. cbn [bind].
    rewrite shelfHeap_set_shelf.
    destruct (c _); intros [= <-]; cbn;
      rewrite ?store_set_same; cbn;
      repeat split; auto; intros r Hr; now rewrite !store_set_other.
  - cbn [bind].
    destruct (c _); intros [= <-]; cbn;
      rewrite ?store_set_same; cbn;
      repeat split; auto; intros r Hr; now rewrite !store_set_other.
Qed.

(** X8. A tick of a shelf only ever empties slots: the array keeps its
    length, every slot keeps its content or goes from a product to [null],
    and no product left in a slot has finished disappearing. *)
Theorem Shelf_update_only_empties (c : Shelf -> bool) (i : Input)
    (L L' : Level) (self : sref) :
  Shelf_update c i L self = Ret L' ->
  let ps := products (shelfHeap L self) in
  let ps' := products (shelfHeap L' self) in
  length ps' = length ps
  /\ (forall k : nat,
         ps' !! k = ps !! k
         \/ (ps' !! k = Some Null /\ exists p, ps !! k = Some (Prod p)))
  /\ (forall (k : nat) (p : loc),
         ps' !! k = Some (Prod p) ->
         finishedDisappearing (productHeap L' p) = false).
Proof.
  unfold Shelf_update. intros Hrun.
  apply Shelf_update_stats_frame in Hrun
    as (Hh & _ & _ & _ & Hps & _).
  cbn zeta. rewrite Hps, Hh. clear Hps Hh L'.
  unfold Shelf_update_match. cbn [fst snd].
  set (L1 := Shelf_update_products i L self).
  assert (Hps1 : products (shelfHeap L1 self)
                 = removeFinished
                     (productHeap
                        (updateProducts i self 0 (products (shelfHeap L self)) L))
                     (products (shelfHeap L self))).
  { subst L1. unfold Shelf_update_products. cbn zeta.
    rewrite shelfHeap_set_shelf. cbn [products set_products].
    now destruct (updateProducts_frame i self (products (shelfHeap L self))
                    0 L) as (_ & -> & _). }
  assert (Hh1 : productHeap L1
                = productHeap
                    (updateProducts i self 0 (products (shelfHeap L self)) L))
    by reflexivity.
  set (hu := productHeap (updateProducts i self 0 _ L)) in *.
  set (m := Shelf_checkForMatches (productHeap L1) (shelfHeap L1 self)).
  clearbody L1 m hu.
  assert (Hst : shelfHeap
                  (if found m
                   then set_productHeap L1
                          (disappearAll (productHeap L1) 0
                             (default [] (matched m)))
                   else L1) = shelfHeap L1)
    by now destruct (found m).
  rewrite Hst, Hps1. unfold removeFinished.
  split; [apply length_map |]. split.
  - intros k. rewrite list_lookup_fmap.
    destruct (products (shelfHeap L self) !! k) as [[| |p]|] eqn:Ek;
      cbn [fmap option_fmap option_map]; auto.
    destruct (finishedDisappearing (hu p)); eauto.
  - intros k p. rewrite list_lookup_fmap.
    destruct (products (shelfHeap L self) !! k) as [[| |q]|] eqn:Ek;
      cbn [fmap option_fmap option_map]; try discriminate.
    destruct (finishedDisappearing (hu q)) eqn:Ef; [discriminate |].
    intros [= ->].
    destruct (found m); cbn [productHeap set_productHeap]; rewrite Hh1;
      [| assumption].
    apply not_true_iff_false. intros Hf%disappearAll_finished. congruence.
Qed.

Lemma Shelf_update_only_empties_witness :
  let ps := products (shelfHeap applesLevel 0%nat) in
  let ps' := products (shelfHeap applesLevelTicked 0%nat) in
  length ps' = length ps
  /\ (forall k : nat,
         ps' !! k = ps !! k
         \/ (ps' !! k = Some Null /\ exists p, ps !! k = Some (Prod p)))
  /\ (forall (k : nat) (p : loc),
         ps' !! k = Some (Prod p) ->
         finishedDisappearing (productHeap applesLevelTicked p) = false).
Proof.
  apply (Shelf_update_only_empties Shelf_shelfIsEmpty (idleTick (1 # 60))
           applesLevel applesLevelTicked 0%nat).
  vm_compute; reflexivity.
Defined.

(** X9. A shelf whose statistics are up to date is silent: while
    [statsUpdated] is set, a tick completes without error, whatever the
    shelf holds, and leaves the statistics and the flag as they are. *)
Theorem Shelf_update_counted_once (c : Shelf -> bool) (i : Input) (L : Level)
    (self : sref) :
  statsUpdated (shelfHeap L self) = true ->
  exists L',
    Shelf_update c i L self = Ret L'
    /\ stats L' = stats L
    /\ statsUpdated (shelfHeap L' self) = true.
Proof.
  intros Hs. unfold Shelf_update, Shelf_update_stats, Shelf_update_match.
  cbn [fst snd].
  set (L1 := Shelf_update_products i L self).
  assert (H1 : statsUpdated (shelfHeap L1 self) = true /\ stats L1 = stats L).
  { subst L1. unfold Shelf_update_products. cbn zeta.
    rewrite shelfHeap_set_shelf.
    destruct (updateProducts_frame i self (products (shelfHeap L self)) 0 L)
      as (_ & Hst & Hstats).
    cbn. now rewrite Hst, Hstats. }
  destruct H1 as (Hs1 & Hstats1).
  destruct (found _); cbn [shelfHeap set_productHeap]; rewrite Hs1;
    eexists; (split; [reflexivity |]); cbn; auto.
Qed.

Lemma Shelf_update_counted_once_witness :
  exists L',
    Shelf_update Shelf_shelfIsEmpty (idleTick (1 # 60)) countedLevel 0%nat
    = Ret L'
    /\ stats L' = stats countedLevel
    /\ statsUpdated (shelfHeap L' 0%nat) = true.
Proof.
  apply (Shelf_update_counted_once Shelf_shelfIsEmpty (idleTick (1 # 60))
           countedLevel 0%nat).
  vm_compute; reflexivity.
Defined.

(** X10. What one tick of a shelf can count: the statistics change only in a
    tick that sets [statsUpdated]; [totalMatches] stays or grows by
    [matchCount], [totalCompletedShelves] stays or grows by 1; the clock,
    the table of completed shelves and the placement records are not
    written. *)
Theorem Shelf_update_counts (c : Shelf -> bool) (i : Input) (L L' : Level)
    (self : sref) :
  Shelf_update c i L self = Ret L' ->
  let s := shelfHeap L self in
  let s' := shelfHeap L' self in
  (statsUpdated s' = false -> stats L' = stats L)
  /\ (totalMatches (stats L') = totalMatches (stats L)
      \/ totalMatches (stats L')
         = totalMatches (stats L) + Z.of_nat (matchCount s))
  /\ (totalCompletedShelves (stats L') = totalCompletedShelves (stats L)
      \/ totalCompletedShelves (stats L')
         = totalCompletedShelves (stats L) + 1)
  /\ time (stats L') = time (stats L)
  /\ completedShelves (stats L') = completedShelves (stats L)
  /\ productPlacements (stats L') = productPlacements (stats L)
  /\ currentProductPlacement (stats L') = currentProductPlacement (stats L).
Proof.
  unfold Shelf_update, Shelf_update_match. cbn [fst snd].
  set (L1 := Shelf_update_products i L self).
  assert (H1 : stats L1 = stats L
               /\ matchCount (shelfHeap L1 self) = matchCount (shelfHeap L self)).
  { subst L1. unfold Shelf_update_products. cbn zeta.
    rewrite shelfHeap_set_shelf.
    destruct (updateProducts_frame i self (products (shelfHeap L self)) 0 L)
      as (_ & Hst & Hstats).
    cbn. now rewrite Hst, Hstats. }
  destruct H1 as (Hstats1 & Hmc1).
  set (m := Shelf_checkForMatches (productHeap L1) (shelfHeap L1 self)).
  assert (Hlen : found m = true ->
                 length (default [] (matched m)) = matchCount (shelfHeap L self)).
  { subst m. unfold Shelf_checkForMatches, Shelf_findMatchingGroups.
    cbn [found matched].
    destruct (findMatchingGroups_loop _ _ _ _) as [|g rest] eqn:E;
      [discriminate |].
    intros _. cbn. rewrite <- Hmc1.
    eapply findMatchingGroups_loop_spec; [| rewrite E; now left]. auto. }
  set (L2 := if found m then _ else L1).
  assert (H2 : stats L2 = stats L /\ shelfHeap L2 = shelfHeap L1
               /\ productHeap L2 = (if found m
                                    then disappearAll (productHeap L1) 0
                                           (default [] (matched m))
                                    else productHeap L1)).
  { subst L2. destruct (found m); cbn; auto. }
  destruct H2 as (Hstats2 & Hst2 & _).
  clearbody L2 m. cbn zeta. rewrite <- Hstats2.
  unfold Shelf_update_stats.
  destruct (statsUpdated (shelfHeap L2 self)) eqn:Es;
    [intros [= <-]; repeat split; auto |].
  destruct (found m) eqn:Ef.
  - destruct (recordMatches _ _ _) as [s1|e] eqn:Er; [| discriminate].
    apply recordMatches_Ret in Er as (Htm & Htc & Ht & Hcs & Hpp & Hcp).
    rewrite Hlen in Htm by reflexivity.
    cbn [bind]. rewrite shelfHeap_set_shelf.
    destruct (c _); intros [= <-]; cbn; rewrite ?store_set_same; cbn;
      (split; [discriminate |]); repeat split; auto; lia.
  - cbn [bind].
    destruct (c _); intros [= <-]; cbn; rewrite ?store_set_same; cbn;
      [split; [discriminate |] | split; [reflexivity |]];
      repeat split; auto; lia.
Qed.

Lemma Shelf_update_counts_witness :
  let s := shelfHeap applesLevel 0%nat in
  let s' := shelfHeap applesLevelTicked 0%nat in
  (statsUpdated s' = false -> stats applesLevelTicked = stats applesLevel)
  /\ (totalMatches (stats applesLevelTicked) = totalMatches (stats applesLevel)
      \/ totalMatches (stats applesLevelTicked)
         = totalMatches (stats applesLevel) + Z.of_nat (matchCount s))
  /\ (totalCompletedShelves (stats applesLevelTicked)
      = totalCompletedShelves (stats applesLevel)
      \/ totalCompletedShelves (stats applesLevelTicked)
         = totalCompletedShelves (stats applesLevel) + 1)
  /\ time (stats applesLevelTicked) = time (stats applesLevel)
  /\ completedShelves (stats applesLevelTicked)
     = completedShelves (stats applesLevel)
  /\ productPlacements (stats applesLevelTicked)
     = productPlacements (stats applesLevel)
  /\ currentProductPlacement (stats applesLevelTicked)
     = currentProductPlacement (stats applesLevel).
Proof.
  apply (Shelf_update_counts Shelf_shelfIsEmpty (idleTick (1 # 60))
           applesLevel applesLevelTicked 0%nat).
  vm_compute; reflexivity.
Defined.

(** ** Closing and display shelves *)

Lemma validProducts_sameMatching (h h' : heap) (ps : list cell) :
  sameMatching h h' -> validProducts h' ps = validProducts h ps.
Proof.
  intros H. unfold validProducts.
  induction ps as [|c ps IH]; cbn [flat_map]; [reflexivity |].
  rewrite IH. destruct c as [| |p]; try reflexivity.
  now destruct (H p) as (_ & _ & -> & _).
Qed.

Lemma matchingProducts_sameMatching (h h' : heap) (g avail : list loc) :
  sameMatching h h' -> matchingProducts h' g avail = matchingProducts h g avail.
Proof.
  intros H. unfold matchingProducts. apply filter_ext. intros p.
  f_equal. induction g as [|q g IH]; cbn [forallb]; [reflexivity |].
  now rewrite IH, (sameMatching_matchesProduct h h').
Qed.

Lemma grow_sameMatching (h h' : heap) (avail : list loc) :
  sameMatching h h' ->
  forall (need : nat) (g : list loc), grow h' need g avail = grow h need g avail.
Proof.
  intros H. induction need as [|need IH]; intros g; cbn [grow]; [reflexivity |].
  rewrite (matchingProducts_sameMatching h h') by assumption.
  destruct (matchingProducts h g avail); [reflexivity | apply IH].
Qed.

Lemma Shelf_checkForMatches_sameMatching (h h' : heap) (s : Shelf) :
  sameMatching h h' -> Shelf_checkForMatches h' s = Shelf_checkForMatches h s.
Proof.
  intros H. unfold Shelf_checkForMatches, Shelf_findMatchingGroups.
  rewrite (validProducts_sameMatching h h') by assumption.
  set (v := validProducts h (products s)).
  assert (Hl : forall starts,
             findMatchingGroups_loop h' (matchCount s) starts v
             = findMatchingGroups_loop h (matchCount s) starts v).
  { induction starts as [|start rest IH]; cbn [findMatchingGroups_loop];
      [reflexivity |].
    unfold Shelf_growMatchingGroup.
    rewrite (grow_sameMatching h h') by assumption. now rewrite IH. }
  now rewrite Hl.
Qed.

Lemma DisplayShelf_checkLoop_sameMatching (h h' : heap)
    (allowed : list (option loc)) (ps : list cell) :
  sameMatching h h' ->
  forall (index : nat) (acc : list loc),
    DisplayShelf_checkLoop h' index allowed ps acc
    = DisplayShelf_checkLoop h index allowed ps acc.
Proof.
  intros H. induction allowed as [|a rest IH]; intros index acc;
    cbn [DisplayShelf_checkLoop]; [reflexivity |].
  destruct a as [al|], (js_get ps (Z.of_nat index)) as [| |p];
    try reflexivity; try apply IH.
  rewrite (sameMatching_matchesProduct h h') by assumption.
  destruct (Product_matchesProduct h p al); [apply IH | reflexivity].
Qed.

Lemma placeAllowed_sameMatching (allowed : list (option loc)) :
  forall h : heap, sameMatching h (placeAllowed h allowed).
Proof.
  unfold placeAllowed.
  induction allowed as [|a rest IH]; intros h; cbn [fold_left];
    [apply sameMatching_refl |].
  eapply sameMatching_trans; [| apply IH].
  destruct a as [p|]; [| apply sameMatching_refl].
  intros q. destruct (Nat.eq_dec q p) as [-> | Hne].
  - rewrite heap_set_same. cbn. auto.
  - rewrite heap_set_other by assumption. auto.
Qed.

(** On a shelf that refuses every pick-up no tick starts a drag. *)
Lemma updateProducts_no_pickup (i : Input) (self : sref) (cells : list cell) :
  forall (index : nat) (L : Level),
    refusesPickUp (shelfHeap L) self ->
    draggingProduct (updateProducts i self index cells L) = draggingProduct L.
Proof.
  induction cells as [|c rest IH]; intros index L Hno; cbn [updateProducts];
    [reflexivity |].
  destruct c as [| |p]; try now apply IH.
  rewrite (Hno p (Z.of_nat index)).
  assert (Hg : snd (Product_update i p false (productHeap L p)) = false).
  { unfold Product_update. cbn [snd].
    now rewrite andb_false_r. }
  rewrite Hg. now rewrite IH.
Qed.

Lemma closed_refuses (st : store) (r : sref) :
  match kind (st r) with
  | KClosing closed _ _ => closed = true
  | KDisplay _ completed _ _ => completed = true
  | KSupply _ | KLocking _ _ _ _ | KDisappearing _ _ _ => True
  | _ => False
  end ->
  refusesPickUp st r /\ refusesDrop st r.
Proof.
  intros H. split; intros product index.
  - unfold canPickUpProductAtIndex, class_canPickUpProductAtIndex.
    destruct (kind (st r)); try contradiction; subst;
      destruct (canPickUpOverride (st r)) as [w|]; try reflexivity;
      now destruct (wrapperLocked st w).
  - unfold canDropProductAtIndex, class_canDropProductAtIndex.
    destruct (kind (st r)); try contradiction; subst;
      destruct (canDropOverride (st r)) as [[|w]|]; try reflexivity;
      now destruct (wrapperLocked st w).
Qed.

(** X11. A closing shelf closes on a match and stays closed. After a tick
    the shelf is closed exactly when it was closed before or held a match
    group; the tick leaves every slot as it is and makes no product
    disappear; a closed shelf refuses every pick-up and every drop, and a
    tick of a shelf that was already closed starts no drag. *)
Theorem ClosingShelf_update_latch (i : Input) (L L' : Level) (self : sref)
    (closed : bool) (closingTime : Q) (finishedClosing : bool) :
  kind (shelfHeap L self) = KClosing closed closingTime finishedClosing ->
  ClosingShelf_update i L self = Ret L' ->
  let closed' :=
    closed || found (Shelf_checkForMatches (productHeap L) (shelfHeap L self)) in
  ClosingShelf_shelfIsComplete (shelfHeap L' self) = closed'
  /\ products (shelfHeap L' self) = products (shelfHeap L self)
  /\ sameMatching (productHeap L) (productHeap L')
  /\ (closed' = true ->
      refusesPickUp (shelfHeap L') self /\ refusesDrop (shelfHeap L') self)
  /\ (closed = true -> draggingProduct L' = draggingProduct L).
Proof.
  intros Hk. unfold ClosingShelf_update. rewrite Hk.
  pose proof (updateProducts_frame i self (products (shelfHeap L self)) 0 L)
    as Hframe. cbn zeta in Hframe.
  pose proof (updateProducts_no_pickup i self (products (shelfHeap L self)) 0 L)
    as Hdrag.
  set (L1 := updateProducts i self 0 _ L) in *.
  destruct Hframe as (Hsame & Hst & _).
  cbn zeta. rewrite Hst.
  rewrite (Shelf_checkForMatches_sameMatching (productHeap L)) by assumption.
  set (m := Shelf_checkForMatches (productHeap L) (shelfHeap L self)).
  set (closed1 := if found m then true else closed).
  set (t := if closed1 then _ else _).
  set (fin := if closed1 && _ then _ else _).
  intros Hrun. apply Shelf_update_stats_frame in Hrun
    as (Hh & Hd & _ & _ & Hps & Hkind & _).
  rewrite shelfHeap_set_shelf in Hps, Hkind. cbn in Hps, Hkind, Hh, Hd.
  assert (Hc : closed1 = closed || found m)
    by (subst closed1; now destruct (found m), closed).
  split; [| split; [| split; [| split]]].
  - unfold ClosingShelf_shelfIsComplete. now rewrite Hkind.
  - now rewrite Hps, ?Hst.
  - now rewrite Hh.
  - intros Hcl. apply closed_refuses. rewrite Hkind. congruence.
  - intros ->. rewrite Hd. apply Hdrag.
    apply closed_refuses. now rewrite Hk.
Qed.

Lemma ClosingShelf_update_latch_witness :
  let closed' :=
    false || found (Shelf_checkForMatches (productHeap closingLevel)
                                          (shelfHeap closingLevel 0%nat)) in
  closed' = true
  /\ ClosingShelf_shelfIsComplete (shelfHeap closingLevelTicked 0%nat) = closed'
  /\ products (shelfHeap closingLevelTicked 0%nat)
     = products (shelfHeap closingLevel 0%nat)
  /\ sameMatching (productHeap closingLevel) (productHeap closingLevelTicked)
  /\ (closed' = true ->
      refusesPickUp (shelfHeap closingLevelTicked) 0%nat
      /\ refusesDrop (shelfHeap closingLevelTicked) 0%nat)
  /\ (false = true ->
      draggingProduct closingLevelTicked = draggingProduct closingLevel).
Proof.
  split; [vm_compute; reflexivity |].
  apply (ClosingShelf_update_latch (idleTick (1 # 60)) closingLevel
           closingLevelTicked 0%nat false 0 false);
    [vm_compute; reflexivity | vm_compute; reflexivity].
Defined.

(** X12. A display shelf is completed by its arrangement and stays
    completed. After a tick the shelf is completed exactly when it was
    before or every slot agreed with its allowed product; the tick leaves
    every slot as it is and makes no product disappear; a completed shelf
    refuses every pick-up and every drop, and a tick of a shelf that was
    already completed starts no drag. *)
Theorem DisplayShelf_update_latch (i : Input) (L L' : Level) (self : sref)
    (allowed : list (option loc)) (wasCompleted : bool) (completingTime : Q)
    (finishedCompleting : bool) :
  kind (shelfHeap L self)
  = KDisplay allowed wasCompleted completingTime finishedCompleting ->
  DisplayShelf_update i L self = Ret L' ->
  let completed' :=
    wasCompleted
    || found (DisplayShelf_checkForMatches (productHeap L) allowed
                                           (products (shelfHeap L self))) in
  DisplayShelf_shelfIsComplete (shelfHeap L' self) = completed'
  /\ products (shelfHeap L' self) = products (shelfHeap L self)
  /\ sameMatching (productHeap L) (productHeap L')
  /\ (completed' = true ->
      refusesPickUp (shelfHeap L') self /\ refusesDrop (shelfHeap L') self)
  /\ (wasCompleted = true -> draggingProduct L' = draggingProduct L).
Proof.
  intros Hk. unfold DisplayShelf_update. rewrite Hk.
  set (L0 := set_productHeap L (placeAllowed (productHeap L) allowed)).
  pose proof (updateProducts_frame i self (products (shelfHeap L0 self)) 0 L0)
    as Hframe. cbn zeta in Hframe.
  pose proof (updateProducts_no_pickup i self (products (shelfHeap L0 self))
                0 L0) as Hdrag.
  set (L1 := updateProducts i self 0 _ L0) in *.
  destruct Hframe as (Hsame1 & Hst & _).
  assert (Hsame : sameMatching (productHeap L) (productHeap L1)).
  { eapply sameMatching_trans; [| exact Hsame1].
    apply placeAllowed_sameMatching. }
  change (shelfHeap L0) with (shelfHeap L) in *.
  change (draggingProduct L0) with (draggingProduct L) in *.
  cbn zeta. rewrite Hst.
  unfold DisplayShelf_checkForMatches.
  rewrite (DisplayShelf_checkLoop_sameMatching (productHeap L)) by assumption.
  set (m := DisplayShelf_checkLoop (productHeap L) 0 allowed _ []).
  set (completed1 := if found m then true else wasCompleted).
  set (t := if completed1 then _ else _).
  set (fin := if completed1 && _ then _ else _).
  intros Hrun. apply Shelf_update_stats_frame in Hrun
    as (Hh & Hd & _ & _ & Hps & Hkind & _).
  rewrite shelfHeap_set_shelf in Hps, Hkind. cbn in Hps, Hkind, Hh, Hd.
  assert (Hc : completed1 = wasCompleted || found m)
    by (subst completed1; now destruct (found m), wasCompleted).
  split; [| split; [| split; [| split]]].
  - unfold DisplayShelf_shelfIsComplete. now rewrite Hkind.
  - now rewrite Hps, ?Hst.
  - now rewrite Hh.
  - intros Hcl. apply closed_refuses. rewrite Hkind. congruence.
  - intros ->. rewrite Hd. apply Hdrag.
    apply closed_refuses. now rewrite Hk.
Qed.

Lemma DisplayShelf_update_latch_witness :
  let completed' :=
    false
    || found (DisplayShelf_checkForMatches (productHeap displayLevel)
                [Some 1%nat; None; None]
                (products (shelfHeap displayLevel 0%nat))) in
  completed' = true
  /\ DisplayShelf_shelfIsComplete (shelfHeap displayLevelTicked 0%nat)
     = completed'
  /\ products (shelfHeap displayLevelTicked 0%nat)
     = products (shelfHeap displayLevel 0%nat)
  /\ sameMatching (productHeap displayLevel) (productHeap displayLevelTicked)
  /\ (completed' = true ->
      refusesPickUp (shelfHeap displayLevelTicked) 0%nat
      /\ refusesDrop (shelfHeap displayLevelTicked) 0%nat)
  /\ (false = true ->
      draggingProduct displayLevelTicked = draggingProduct displayLevel).
Proof.
  split; [vm_compute; reflexivity |].
  apply (DisplayShelf_update_latch (idleTick (1 # 60)) displayLevel
           displayLevelTicked 0%nat [Some 1%nat; None; None] false 0 false);
    [vm_compute; reflexivity | vm_compute; reflexivity].
Defined.

(** ** Where a released product goes *)

Lemma insert_by_head_min {A} (key : A -> Q) (x : A) (l : list A) :
  (forall h rest, l = h :: rest -> forall y, In y l -> (key h <= key y)%Q) ->
  forall h rest, insert_by key x l = h :: rest ->
    forall y, In y (insert_by key x l) -> (key h <= key y)%Q.
Proof.
  destruct l as [|z l]; cbn [insert_by]; intros Hmin h rest Heq y Hy.
  - injection Heq as <- <-. destruct Hy as [<- | []]. apply Qle_refl.
  - specialize (Hmin z l eq_refl).
    destruct (Qle_bool (key x) (key z)) eqn:E.
    + apply Qle_bool_true in E. injection Heq as <- <-.
      destruct Hy as [<- | Hy]; [apply Qle_refl |].
      eapply Qle_trans; [exact E | now apply Hmin].
    + apply Qle_bool_false in E. injection Heq as <- <-.
      destruct Hy as [<- | Hy]; [apply Qle_refl |].
      apply insert_by_In in Hy as [-> | Hy];
        [now apply Qlt_le_weak | apply Hmin; now right].
Qed.

Lemma sort_by_head_min {A} (key : A -> Q) (l : list A) :
  forall h rest, sort_by key l = h :: rest ->
    forall y, In y l -> (key h <= key y)%Q.
Proof.
  assert (H : forall h rest, sort_by key l = h :: rest ->
              forall y, In y (sort_by key l) -> (key h <= key y)%Q).
  { induction l as [|x l IH]; cbn [sort_by]; [discriminate |].
    now apply insert_by_head_min. }
  intros h rest Heq y Hy. apply (H h rest Heq). now apply sort_by_In.
Qed.

Section Release.
Variable overlaps : loc -> sref -> nat -> bool.
Variable centreDistance : loc -> sref -> nat -> Q.

Lemma findShelfSlot_nearest (st : store) (r : sref) (product : loc)
    (result : SlotResult) :
  findShelfSlot overlaps centreDistance st r product = Some result ->
  distance result = centreDistance product r (slotIndex result)
  /\ forall index, (index < slotCount (st r))%nat ->
       eligibleSlot overlaps st product r index = true ->
       (distance result <= centreDistance product r index)%Q.
Proof.
  intros H.
  assert (Hbase : Shelf_findShelfSlot overlaps centreDistance st r product
                  = Some result).
  { unfold findShelfSlot in H. now destruct (kind (st r)). }
  unfold Shelf_findShelfSlot in Hbase.
  set (slots := map _ _) in Hbase.
  pose proof (head_sort_by distance slots) as Hhead.
  rewrite Hbase in Hhead.
  destruct (sort_by distance slots) as [|x rest] eqn:Es; [discriminate |].
  injection Hbase as ->. split.
  - subst slots. apply in_map_iff in Hhead as (index & <- & _). reflexivity.
  - intros index Hlt He. unfold eligibleSlot in He.
    apply andb_true_iff in He as [Hc Ho].
    apply (sort_by_head_min distance slots result rest Es
             (mkSlot index (js_get (products (st r)) (Z.of_nat index))
                     (centreDistance product r index))).
    subst slots. apply in_map_iff. exists index. split; [reflexivity |].
    apply filter_In. split; [| assumption].
    apply filter_In. split; [| assumption].
    apply in_seq. lia.
Qed.

(** X13. The released product goes to a nearest slot: when
    [isValidDropPosition] answers with a shelf and a slot, no slot of any
    shelf of the level that is willing to take the product and overlaps it
    is nearer to the product than the chosen one. *)
Theorem Level_isValidDropPosition_nearest (L : Level) (product : loc)
    (destination : sref) (destinationSlot : nat) :
  Level_isValidDropPosition overlaps centreDistance L product
  = Some (destination, destinationSlot) ->
  forall (r : sref) (index : nat),
    In r (shelves L) ->
    (index < slotCount (shelfHeap L r))%nat ->
    eligibleSlot overlaps (shelfHeap L) product r index = true ->
    (centreDistance product destination destinationSlot
     <= centreDistance product r index)%Q.
Proof.
  unfold Level_isValidDropPosition.
  set (results := flat_map _ _).
  pose proof (head_sort_by (fun r : sref * SlotResult => distance (snd r))
                results) as Hhead.
  destruct (sort_by _ results) as [|closest rest] eqn:E; cbn in Hhead;
    [discriminate |].
  intros Heq r index Hr Hlt He. injection Heq as <- <-.
  assert (Hclosest : distance (snd closest)
                     = centreDistance product (fst closest)
                         (slotIndex (snd closest))).
  { subst results. apply in_flat_map in Hhead as (r' & _ & Hin).
    destruct (findShelfSlot overlaps centreDistance (shelfHeap L) r' product)
      as [result|] eqn:Ef; [| destruct Hin].
    destruct Hin as [<- | []]. cbn [fst snd].
    now apply findShelfSlot_nearest in Ef as [-> _]. }
  rewrite <- Hclosest.
  destruct (findShelfSlot overlaps centreDistance (shelfHeap L) r product)
    as [result|] eqn:Ef.
  - eapply Qle_trans.
    + apply (sort_by_head_min _ results closest rest E (r, result)).
      subst results. apply in_flat_map. exists r. split; [assumption |].
      rewrite Ef. now left.
    + cbn [snd]. now apply (findShelfSlot_nearest _ _ _ _ Ef).
  - pose proof (proj1 (findShelfSlot_None overlaps centreDistance
                         (shelfHeap L) r product) Ef index Hlt) as Hf.
    rewrite Hf in He. discriminate.
Qed.


(** The level after a release over a slot that takes the product. *)
Lemma Level_finishDraggingProduct_valid (L : Level) (origin : sref)
    (originSlot : Z) (product : loc) (destination : sref)
    (destinationSlot : nat) :
  draggingProduct L = Some (origin, originSlot, product) ->
  Level_isValidDropPosition overlaps centreDistance L product
  = Some (destination, destinationSlot) ->
  let L' := Level_finishDraggingProduct overlaps centreDistance L in
  let st := moveProduct (shelfHeap L) origin originSlot destination
                        destinationSlot product in
  shelfHeap L' = st
  /\ stats L'
     = (if hasReference (st destination)
        then logPlacement (stats L)
               (destination, Z.of_nat destinationSlot, product)
        else stats L)
  /\ productHeap L'
     = heap_set (productHeap L) product
         (set_dragging (productHeap L product) false)
  /\ draggingProduct L' = None.
Proof.
  intros Hd Hv. cbn zeta. unfold Level_finishDraggingProduct.
  rewrite Hd, Hv.
  destruct (hasReference _); cbn; auto.
Qed.

(** The level after a release over no slot that takes the product. *)
Lemma Level_finishDraggingProduct_invalid (L : Level) (origin : sref)
    (originSlot : Z) (product : loc) :
  draggingProduct L = Some (origin, originSlot, product) ->
  Level_isValidDropPosition overlaps centreDistance L product = None ->
  let L' := Level_finishDraggingProduct overlaps centreDistance L in
  shelfHeap L' = shelfHeap L
  /\ stats L' = stats L
  /\ productHeap L'
     = heap_set (productHeap L) product
         (set_dragging (productHeap L product) false)
  /\ draggingProduct L' = None.
Proof.
  intros Hd Hv. cbn zeta. unfold Level_finishDraggingProduct.
  rewrite Hd, Hv. cbn. auto.
Qed.

(** X14. A valid drop moves the product. The dragged product is in the slot
    it was dragged from, and is released over a slot that takes it; the
    shelves involved, when deep, have a layer. Afterwards the product is
    in the chosen slot, the slot it came from holds [null], and every
    other slot of every shelf reads as before (also when the product
    moves within one shelf). *)
Theorem Level_finishDraggingProduct_moves (L : Level) (origin : sref)
    (originSlot : Z) (product : loc) (destination : sref)
    (destinationSlot : nat) :
  draggingProduct L = Some (origin, originSlot, product) ->
  invalidIndex (shelfHeap L origin) originSlot = false ->
  js_get (products (shelfHeap L origin)) originSlot = Prod product ->
  Level_isValidDropPosition overlaps centreDistance L product
  = Some (destination, destinationSlot) ->
  (forall d, kind (shelfHeap L origin) = KDeep d -> layers d <> []) ->
  (forall d, kind (shelfHeap L destination) = KDeep d -> layers d <> []) ->
  let L' := Level_finishDraggingProduct overlaps centreDistance L in
  js_get (products (shelfHeap L' destination)) (Z.of_nat destinationSlot)
  = Prod product
  /\ js_get (products (shelfHeap L' origin)) originSlot = Null
  /\ forall (r : sref) (j : Z),
       (r <> destination \/ j <> Z.of_nat destinationSlot) ->
       (r <> origin \/ j <> originSlot) ->
       js_get (products (shelfHeap L' r)) j
       = js_get (products (shelfHeap L r)) j.
Proof.
  intros Hd Hio Hgo Hv Hlo Hld.
  pose proof (Level_finishDraggingProduct_valid L _ _ _ _ _ Hd Hv) as Hval.
  cbn zeta in Hval. destruct Hval as (Hst & _).
  cbn zeta. rewrite Hst.
  apply moveProduct_slots; try assumption.
  apply Level_isValidDropPosition_Some in Hv as (_ & _ & He).
  unfold eligibleSlot in He. now apply andb_true_iff in He as [Hc _].
Qed.

(** X15. A shelf that refuses the drop gains nothing on release: whatever
    is being dragged and wherever it is released, every product in a slot
    of such a shelf afterwards was in that slot before. (By
    [closed_refuses] a closed or completed shelf and a wrapper are such
    shelves.) *)
Theorem Level_finishDraggingProduct_refused (L : Level) (r : sref) :
  refusesDrop (shelfHeap L) r ->
  let L' := Level_finishDraggingProduct overlaps centreDistance L in
  forall (j : Z) (p : loc),
    js_get (products (shelfHeap L' r)) j = Prod p ->
    js_get (products (shelfHeap L r)) j = Prod p.
Proof.
  intros Hno. cbn zeta.
  destruct (draggingProduct L) as [[[origin originSlot] product]|] eqn:Hd;
    [| unfold Level_finishDraggingProduct; rewrite Hd; auto].
  destruct (Level_isValidDropPosition overlaps centreDistance L product)
    as [[destination destinationSlot]|] eqn:Hv.
  - pose proof (Level_finishDraggingProduct_valid L _ _ _ _ _ Hd Hv) as Hval.
    cbn zeta in Hval. destruct Hval as (-> & _).
    apply Level_isValidDropPosition_Some in Hv as (_ & _ & He).
    unfold eligibleSlot in He. apply andb_true_iff in He as [Hc _].
    assert (Hne : r <> destination).
    { intros ->. rewrite Hno in Hc. discriminate. }
    unfold moveProduct. rewrite store_set_other by assumption.
    destruct (Nat.eq_dec r origin) as [-> | Hno'];
      [| now rewrite store_set_other].
    rewrite store_set_same.
    destruct (removeProductAtIndex_products (shelfHeap L origin) originSlot)
      as (_ & [-> | (Hpos & ->)]); [auto |].
    intros j p Hj.
    destruct (Z.eq_dec j originSlot) as [-> | Hne'].
    + rewrite js_get_js_set_same in Hj by assumption. discriminate.
    + now rewrite js_get_js_set_other in Hj.
  - pose proof (Level_finishDraggingProduct_invalid L _ _ _ Hd Hv) as Hinv.
    cbn zeta in Hinv. destruct Hinv as (-> & _). auto.
Qed.


(** X17. A deep shelf without layers takes the drop and keeps nothing. Its
    slots hold [null], so it is willing to take a product, but
    [addProductAtIndex] answers [false] for want of a layer, and the
    answer is not looked at: released over such a shelf, the product
    leaves the slot it was dragged from, the deep shelf is as before, and
    so is every other shelf. *)
Theorem Level_finishDraggingProduct_no_layer (L : Level) (origin : sref)
    (originSlot : Z) (product : loc) (destination : sref)
    (destinationSlot : nat) (d : DeepState) :
  draggingProduct L = Some (origin, originSlot, product) ->
  invalidIndex (shelfHeap L origin) originSlot = false ->
  (forall d', kind (shelfHeap L origin) = KDeep d' -> layers d' <> []) ->
  Level_isValidDropPosition overlaps centreDistance L product
  = Some (destination, destinationSlot) ->
  kind (shelfHeap L destination) = KDeep d ->
  layers d = [] ->
  let L' := Level_finishDraggingProduct overlaps centreDistance L in
  js_get (products (shelfHeap L' origin)) originSlot = Null
  /\ shelfHeap L' destination = shelfHeap L destination
  /\ forall r, r <> origin -> shelfHeap L' r = shelfHeap L r.
Proof.
  intros Hd Hio Hlo Hv Hk Hnil.
  pose proof (Level_finishDraggingProduct_valid L _ _ _ _ _ Hd Hv) as Hval.
  cbn zeta in Hval. destruct Hval as (Hst & _).
  cbn zeta. rewrite Hst. clear Hst.
  assert (Hne : destination <> origin).
  { intros ->. apply (Hlo d Hk Hnil). }
  pose proof (invalidIndex_false _ _ Hio) as [Hpo _].
  pose proof (removeProductAtIndex_effect (shelfHeap L origin) originSlot
                Hio Hlo) as Hrem.
  cbn zeta in Hrem. destruct Hrem as (_ & Hpso & _).
  unfold moveProduct.
  set (st1 := store_set (shelfHeap L) origin _).
  assert (H1 : st1 destination = shelfHeap L destination)
    by (subst st1; now apply store_set_other).
  assert (Hadd : snd (addProductAtIndex (st1 destination)
                        (Z.of_nat destinationSlot) product)
                 = shelfHeap L destination).
  { rewrite H1. apply addProductAtIndex_refused.
    destruct (fst (addProductAtIndex (shelfHeap L destination)
                     (Z.of_nat destinationSlot) product)) eqn:Ea;
      [| reflexivity].
    apply addProductAtIndex_true in Ea as (_ & _ & Hl).
    now destruct (Hl d Hk). }
  rewrite Hadd. split; [| split].
  - rewrite store_set_other by congruence.
    subst st1. rewrite store_set_same, Hpso.
    now apply js_get_js_set_same.
  - apply store_set_same.
  - intros r Hr. destruct (Nat.eq_dec r destination) as [-> | Hnd].
    + apply store_set_same.
    + rewrite store_set_other by assumption.
      subst st1. now apply store_set_other.
Qed.

End Release.

Lemma Level_isValidDropPosition_nearest_witness :
  (nearerToSlotOne 0%nat 1%nat 1%nat <= nearerToSlotOne 0%nat 1%nat 2%nat)%Q.
Proof.
  apply (Level_isValidDropPosition_nearest overSecondShelf nearerToSlotOne
           twoShelfLevel 0%nat 1%nat 1%nat);
    [reflexivity | right; now left | cbn; lia | reflexivity].
Defined.

Lemma Level_finishDraggingProduct_moves_witness :
  let L' := Level_finishDraggingProduct overSecondShelf nearerToSlotOne
              twoShelfLevel in
  js_get (products (shelfHeap L' 1%nat)) (Z.of_nat 1) = Prod 0%nat
  /\ js_get (products (shelfHeap L' 0%nat)) 0 = Null
  /\ forall (r : sref) (j : Z),
       (r <> 1%nat \/ j <> Z.of_nat 1) ->
       (r <> 0%nat \/ j <> 0) ->
       js_get (products (shelfHeap L' r)) j
       = js_get (products (shelfHeap twoShelfLevel r)) j.
Proof.
  apply (Level_finishDraggingProduct_moves overSecondShelf nearerToSlotOne
           twoShelfLevel 0%nat 0 0%nat 1%nat 1%nat); try reflexivity;
    intros d H; vm_compute in H; discriminate H.
Defined.

Lemma Level_finishDraggingProduct_refused_witness :
  js_get (products (shelfHeap closedOriginLevel 0%nat)) 1 = Prod 1%nat.
Proof.
  apply (Level_finishDraggingProduct_refused overSecondShelf nearerToSlotOne
           closedOriginLevel 0%nat).
  - intros product index. reflexivity.
  - reflexivity.
Defined.

Lemma Level_finishDraggingProduct_no_layer_witness :
  let L' := Level_finishDraggingProduct overSecondShelf nearerToSlotOne
              noLayerLevel in
  js_get (products (shelfHeap L' 0%nat)) 0 = Null
  /\ shelfHeap L' 1%nat = shelfHeap noLayerLevel 1%nat
  /\ forall r, r <> 0%nat -> shelfHeap L' r = shelfHeap noLayerLevel r.
Proof.
  apply (Level_finishDraggingProduct_no_layer overSecondShelf nearerToSlotOne
           noLayerLevel 0%nat 0 0%nat 1%nat 1%nat (mkDeep [] false 0));
    try reflexivity.
  intros d H. vm_compute in H. discriminate H.
Defined.

(** ** Picking up and locking *)

(** A shelf that allows a pick-up has the slot in range and not holding
    [null]. *)
Lemma canPickUpProductAtIndex_true (st : store) (r : sref) (product : loc)
    (index : Z) :
  canPickUpProductAtIndex st r product index = true ->
  invalidIndex (st r) index = false /\ js_get (products (st r)) index <> Null.
Proof.
  assert (Hbase : Shelf_canPickUpProductAtIndex (st r) product index = true ->
                  invalidIndex (st r) index = false
                  /\ js_get (products (st r)) index <> Null).
  { unfold Shelf_canPickUpProductAtIndex.
    destruct (invalidIndex (st r) index); [discriminate |].
    destruct (js_get (products (st r)) index); cbn; try discriminate;
      split; congruence. }
  assert (Hclass : class_canPickUpProductAtIndex (st r) product index = true ->
                   invalidIndex (st r) index = false
                   /\ js_get (products (st r)) index <> Null).
  { unfold class_canPickUpProductAtIndex.
    destruct (kind (st r)) as [|c ? ?|? c ? ?| | | |]; try exact Hbase;
      try discriminate; destruct c; try discriminate; exact Hbase. }
  unfold canPickUpProductAtIndex.
  destruct (canPickUpOverride (st r)) as [w|]; [| exact Hclass].
  destruct (wrapperLocked st w); [discriminate | exact Hclass].
Qed.

Lemma updateProducts_locked (i : Input) (self : sref) (cells : list cell) :
  forall (index : nat) (L : Level) (q : loc),
    locked (productHeap (updateProducts i self index cells L) q)
    = locked (productHeap L q).
Proof.
  induction cells as [|c rest IH]; intros index L q; cbn [updateProducts];
    [reflexivity |].
  destruct c as [| |p]; try apply IH.
  rewrite IH.
  set (r := Product_update i p _ _).
  assert (Hh : productHeap
                 (if snd r
                  then Level_startDraggingProduct
                         (set_product L p (fst r)) self (Z.of_nat index) p
                  else set_product L p (fst r))
               = heap_set (productHeap L) p (fst r))
    by now destruct (snd r).
  rewrite Hh. destruct (Nat.eq_dec q p) as [-> | Hne].
  - rewrite heap_set_same. subst r.
    unfold Product_update, Product_updateDisappearing. cbn.
    now destruct (disappearing (productHeap L p)).
  - now rewrite heap_set_other.
Qed.

Lemma updateProducts_drag (i : Input) (self : sref) (all : list cell)
    (cells : list cell) :
  forall (index : nat) (L : Level),
    (forall (j : nat) (c : cell),
        cells !! j = Some c -> all !! (index + j)%nat = Some c) ->
    let L' := updateProducts i self index cells L in
    draggingProduct L' = draggingProduct L
    \/ exists (k : nat) (p : loc),
         draggingProduct L' = Some (self, Z.of_nat k, p)
         /\ all !! k = Some (Prod p)
         /\ locked (productHeap L p) = false
         /\ mousePressed i = true
         /\ intersects i p = true
         /\ canPickUpProductAtIndex (shelfHeap L) self p (Z.of_nat k) = true.
Proof.
  induction cells as [|c rest IH]; intros index L Hall;
    cbn [updateProducts]; [now left |].
  assert (Hrest : forall (j : nat) (c' : cell),
             rest !! j = Some c' -> all !! (S index + j)%nat = Some c').
  { intros j c' Hj. replace (S index + j)%nat with (index + S j)%nat by lia.
    now apply Hall. }
  destruct c as [| |p]; try (apply IH; assumption).
  set (r := Product_update i p _ _).
  set (L1 := if snd r then _ else _).
  assert (H1 : shelfHeap L1 = shelfHeap L
               /\ (forall q, locked (productHeap L1 q) = locked (productHeap L q))).
  { assert (Hh : productHeap L1 = heap_set (productHeap L) p (fst r))
      by (subst L1; now destruct (snd r)).
    split; [subst L1; now destruct (snd r) |].
    intros q. rewrite Hh. destruct (Nat.eq_dec q p) as [-> | Hne].
    - rewrite heap_set_same. subst r.
      unfold Product_update, Product_updateDisappearing. cbn.
      now destruct (disappearing (productHeap L p)).
    - now rewrite heap_set_other. }
  destruct H1 as (Hst1 & Hlock1).
  destruct (IH (S index) L1 Hrest) as [Hsame | (k & q & Hd & Hk & Hl & Hrestq)].
  - cbn zeta in Hsame. rewrite Hsame.
    destruct (snd r) eqn:Eg; [| now left].
    right. exists index, p.
    split; [reflexivity |].
    split; [rewrite <- (Nat.add_0_r index); now apply Hall |].
    subst r. unfold Product_update in Eg. cbn [snd] in Eg.
    apply andb_true_iff in Eg as [Eg Hl]. apply negb_true_iff in Hl.
    apply andb_true_iff in Eg as [Eg Hc].
    apply andb_true_iff in Eg as [Hm Hi]. auto.
  - right. exists k, q. rewrite Hst1, Hlock1 in *. auto.
Qed.

(** X18. Only what can be picked up is ever dragged. After a tick of a
    shelf, the level drags what it dragged before, or a product of that
    shelf: one that was in a slot of the shelf, in range, that was not
    locked, under the pressed pointer, and that the shelf (and a wrapper
    in front of it) allowed to be picked up. *)
Theorem Shelf_update_drag (c : Shelf -> bool) (i : Input) (L L' : Level)
    (self : sref) :
  Shelf_update c i L self = Ret L' ->
  draggingProduct L' = draggingProduct L
  \/ exists (index : nat) (p : loc),
       draggingProduct L' = Some (self, Z.of_nat index, p)
       /\ js_get (products (shelfHeap L self)) (Z.of_nat index) = Prod p
       /\ invalidIndex (shelfHeap L self) (Z.of_nat index) = false
       /\ locked (productHeap L p) = false
       /\ mousePressed i = true
       /\ intersects i p = true
       /\ canPickUpProductAtIndex (shelfHeap L) self p (Z.of_nat index) = true.
Proof.
  unfold Shelf_update. intros Hrun.
  apply Shelf_update_stats_frame in Hrun as (_ & -> & _).
  unfold Shelf_update_match. cbn [fst snd].
  set (L1 := Shelf_update_products i L self).
  assert (Hd1 : draggingProduct
                  (if found (Shelf_checkForMatches (productHeap L1)
                               (shelfHeap L1 self))
                   then set_productHeap L1
                          (disappearAll (productHeap L1) 0
                             (default [] (matched
                                (Shelf_checkForMatches (productHeap L1)
                                   (shelfHeap L1 self)))))
                   else L1)
                = draggingProduct
                    (updateProducts i self 0 (products (shelfHeap L self)) L))
    by now destruct (found _).
  rewrite Hd1.
  destruct (updateProducts_drag i self (products (shelfHeap L self))
              (products (shelfHeap L self)) 0 L)
    as [Hsame | (k & p & Hd & Hk & Hl & Hm & Hi & Hc)];
    [auto | now left |].
  right. exists k, p.
  pose proof (canPickUpProductAtIndex_true _ _ _ _ Hc) as [Hinv _].
  rewrite js_get_lookup by lia. rewrite Nat2Z.id, Hk. auto 10.
Qed.

Lemma Shelf_update_drag_witness :
  draggingProduct applesLevelPressed = Some (0%nat, 0, 0%nat)
  /\ (draggingProduct applesLevelPressed = draggingProduct applesLevel
      \/ exists (index : nat) (p : loc),
           draggingProduct applesLevelPressed = Some (0%nat, Z.of_nat index, p)
           /\ js_get (products (shelfHeap applesLevel 0%nat)) (Z.of_nat index)
              = Prod p
           /\ invalidIndex (shelfHeap applesLevel 0%nat) (Z.of_nat index)
              = false
           /\ locked (productHeap applesLevel p) = false
           /\ mousePressed (pressOn 0%nat) = true
           /\ intersects (pressOn 0%nat) p = true
           /\ canPickUpProductAtIndex (shelfHeap applesLevel) 0%nat p
                                      (Z.of_nat index) = true).
Proof.
  split; [vm_compute; reflexivity |].
  apply (Shelf_update_drag Shelf_shelfIsEmpty (pressOn 0%nat) applesLevel
           applesLevelPressed 0%nat).
  vm_compute; reflexivity.
Defined.

(** X19. Locking the product of a slot. On a shelf that is not deep,
    [lockProductAtIndex] at an index in range whose slot holds a product
    completes, answers the flag it was given, sets [locked] of that
    product to it and changes nothing else: no other product, and no
    other field of this one. *)
Theorem lockProductAtIndex_locks (h : heap) (s : Shelf) (index : Z)
    (lockedArg : bool) (p : loc) :
  (forall d, kind s <> KDeep d) ->
  invalidIndex s index = false ->
  js_get (products s) index = Prod p ->
  exists h',
    lockProductAtIndex h s index lockedArg = Ret (Some lockedArg, h')
    /\ h' p = set_locked (h p) lockedArg
    /\ locked (h' p) = lockedArg
    /\ forall q, q <> p -> h' q = h q.
Proof.
  intros Hk Hi Hg.
  exists (heap_set h p (set_locked (h p) lockedArg)).
  split; [| split; [| split]].
  - unfold lockProductAtIndex, Shelf_lockProductAtIndex.
    destruct (kind s) as [| | | d | | |] eqn:Ek;
      try (now destruct (Hk d)); now rewrite Hi, Hg.
  - apply heap_set_same.
  - now rewrite heap_set_same.
  - intros q Hq. now apply heap_set_other.
Qed.

Lemma lockProductAtIndex_locks_witness :
  exists h',
    lockProductAtIndex applesHeap singleShelf 0 true = Ret (Some true, h')
    /\ h' 0%nat = set_locked (applesHeap 0%nat) true
    /\ locked (h' 0%nat) = true
    /\ forall q, q <> 0%nat -> h' q = applesHeap q.
Proof.
  apply (lockProductAtIndex_locks applesHeap singleShelf 0 true 0%nat);
    [intros d; discriminate | reflexivity | reflexivity].
Defined.

(** X20. On a deep shelf the index of [lockProductAtIndex] counts the slots
    of all layers, bottom layer first: index [layer * slotCount + k], with
    [k] below [slotCount], addresses slot [k] of layer [layer]. When that
    slot holds a product the call completes, answers the flag it was
    given, sets [locked] of that product and changes no other product;
    the [products] array of the shelf is not consulted. *)
Theorem DeepShelf_lockProductAtIndex_addresses (h : heap) (s : Shelf)
    (d : DeepState) (layer k : nat) (l : list cell) (lockedArg : bool)
    (p : loc) :
  kind s = KDeep d ->
  (k < slotCount s)%nat ->
  layers d !! layer = Some l ->
  js_get l (Z.of_nat k) = Prod p ->
  exists h',
    lockProductAtIndex h s (Z.of_nat (layer * slotCount s + k)) lockedArg
    = Ret (Some lockedArg, h')
    /\ h' p = set_locked (h p) lockedArg
    /\ forall q, q <> p -> h' q = h q.
Proof.
  intros Hk Hlt Hl Hg.
  exists (heap_set h p (set_locked (h p) lockedArg)).
  split; [| split; [apply heap_set_same |
                    intros q Hq; now apply heap_set_other]].
  unfold lockProductAtIndex, DeepShelf_lockProductAtIndex. rewrite Hk.
  destruct (Nat.eqb_spec (slotCount s) 0) as [H0 | _]; [lia |].
  pose proof (lookup_lt_Some _ _ _ Hl) as Hlayer.
  set (n := Z.of_nat (slotCount s)).
  assert (Hn : 0 < n) by (subst n; lia).
  assert (Hidx : Z.of_nat (layer * slotCount s + k)
                 = Z.of_nat layer * n + Z.of_nat k) by (subst n; lia).
  rewrite Hidx.
  assert (Hdiv : (Z.of_nat layer * n + Z.of_nat k) / n = Z.of_nat layer).
  { rewrite Z.div_add_l by lia. rewrite Z.div_small by (subst n; lia). lia. }
  assert (Hrem : Z.rem (Z.of_nat layer * n + Z.of_nat k) n = Z.of_nat k).
  { rewrite Z.rem_mod_nonneg by nia.
    rewrite Z.add_comm, Z.mod_add by lia.
    apply Z.mod_small. subst n. lia. }
  rewrite Hdiv, Hrem.
  destruct (Z.ltb_spec (Z.of_nat layer) 0); [lia |].
  destruct (Z.geb_spec (Z.of_nat layer) (Z.of_nat (length (layers d))));
    [lia |].
  destruct (Z.ltb_spec (Z.of_nat k) 0); [lia |].
  destruct (Z.geb_spec (Z.of_nat k) n); [subst n; lia |].
  cbn [orb]. rewrite Nat2Z.id.
  rewrite (nth_lookup_Some _ _ _ _ Hl), Hg. reflexivity.
Qed.

Lemma DeepShelf_lockProductAtIndex_addresses_witness :
  exists h',
    lockProductAtIndex applesHeap stockedDeepShelf
      (Z.of_nat (1 * slotCount stockedDeepShelf + 1)) true
    = Ret (Some true, h')
    /\ h' 1%nat = set_locked (applesHeap 1%nat) true
    /\ forall q, q <> 1%nat -> h' q = applesHeap q.
Proof.
  apply (DeepShelf_lockProductAtIndex_addresses applesHeap stockedDeepShelf
           (mkDeep [[Prod 0%nat; Null; Null]; [Null; Prod 1%nat; Null]]
                   false 0)
           1%nat 1%nat [Null; Prod 1%nat; Null] true 1%nat);
    [reflexivity | cbn; lia | reflexivity | reflexivity].
Defined.

(** ** Building a shelf from its definition *)

Lemma createProducts_spec (defs : gmap string (list string))
    (ids : list (option string)) :
  forall (L : Level) (cells : list cell) (L' : Level),
    createProducts defs L ids = Ret (cells, L') ->
    shelfHeap L' = shelfHeap L /\ nextShelf L' = nextShelf L
    /\ shelves L' = shelves L /\ stats L' = stats L
    /\ draggingProduct L' = draggingProduct L
    /\ (nextProduct L <= nextProduct L')%nat
    /\ (forall p, (p < nextProduct L)%nat -> productHeap L' p = productHeap L p)
    /\ length cells = length ids
    /\ (forall k, ids !! k = Some None -> cells !! k = Some Null)
    /\ (forall k pid, ids !! k = Some (Some pid) ->
          exists p ms,
            cells !! k = Some (Prod p) /\ defs !! pid = Some ms
            /\ (nextProduct L <= p < nextProduct L')%nat
            /\ productHeap L' p = Product_new pid ms)
    /\ (forall k k' p, cells !! k = Some (Prod p) ->
          cells !! k' = Some (Prod p) -> k = k')
    /\ (forall k p, cells !! k = Some (Prod p) ->
          (nextProduct L <= p)%nat).
Proof.
  induction ids as [|a rest IH]; intros L cells L' H; cbn [createProducts] in H.
  - injection H as <- <-. repeat split; auto; intros; discriminate.
  - destruct a as [pid|].
    + unfold ProductFactory_createProduct in H.
      destruct (defs !! pid) as [ms|] eqn:Edef; [| discriminate].
      cbn [bind fst snd] in H.
      set (L1 := mkLevel _ _ _ _ _ _ _ _ _) in H.
      destruct (createProducts defs L1 rest) as [[cells1 L2]|e] eqn:Er;
        [| discriminate].
      cbn [bind fst snd] in H. injection H as <- <-.
      destruct (IH L1 cells1 L2 Er)
        as (Hst & Hns & Hsh & Hstats & Hdr & Hnp & Hold & Hlen & Hnull
            & Hprod & Hinj & Hge).
      subst L1. cbn in Hst, Hns, Hsh, Hstats, Hdr, Hnp, Hold, Hprod, Hge.
      split; [assumption |]. split; [assumption |]. split; [assumption |].
      split; [assumption |]. split; [assumption |]. split; [lia |].
      split.
      { intros p Hp. rewrite Hold by lia. apply heap_set_other. lia. }
      split; [cbn; lia |]. split.
      { intros [|k] Hk; [discriminate | apply (Hnull k Hk)]. }
      split.
      { intros [|k] pid' Hk.
        - injection Hk as <-. exists (nextProduct L), ms.
          split; [reflexivity |]. split; [assumption |]. split; [lia |].
          rewrite Hold by lia. apply heap_set_same.
        - destruct (Hprod k pid' Hk) as (p & ms' & Hc & Hd & Hr & Hp).
          exists p, ms'. repeat split; auto; lia. }
      split.
      { intros [|k] [|k'] p Hk Hk'; cbn in Hk, Hk'.
        - reflexivity.
        - injection Hk as <-. apply Hge in Hk'. lia.
        - injection Hk' as <-. apply Hge in Hk. lia.
        - f_equal. eapply Hinj; eassumption. }
      { intros [|k] p Hk; cbn in Hk.
        - injection Hk as <-. lia.
        - apply Hge in Hk. lia. }
    + destruct (createProducts defs L rest) as [[cells1 L2]|e] eqn:Er;
        [| discriminate].
      cbn [bind fst snd] in H. injection H as <- <-.
      destruct (IH L cells1 L2 Er)
        as (Hst & Hns & Hsh & Hstats & Hdr & Hnp & Hold & Hlen & Hnull
            & Hprod & Hinj & Hge).
      split; [assumption |]. split; [assumption |]. split; [assumption |].
      split; [assumption |]. split; [assumption |]. split; [assumption |].
      split; [assumption |]. split; [cbn; lia |]. split.
      { intros [|k] Hk; [reflexivity | apply (Hnull k Hk)]. }
      split.
      { intros [|k] pid' Hk; [discriminate | apply (Hprod k pid' Hk)]. }
      split.
      { intros [|k] [|k'] p Hk Hk'; cbn in Hk, Hk'; try discriminate.
        f_equal. eapply Hinj; eassumption. }
      { intros [|k] p Hk; cbn in Hk; [discriminate | eapply Hge; eassumption]. }
Qed.

Lemma createProducts_returns (defs : gmap string (list string))
    (ids : list (option string)) :
  forall L : Level,
    (exists r, createProducts defs L ids = Ret r)
    <-> forall pid, In (Some pid) ids -> is_Some (defs !! pid).
Proof.
  induction ids as [|a rest IH]; intros L; cbn [createProducts].
  - split; [intros _ pid [] | eauto].
  - destruct a as [pid|].
    + unfold ProductFactory_createProduct.
      destruct (defs !! pid) as [ms|] eqn:Edef; cbn [bind fst snd].
      * set (L1 := mkLevel _ _ _ _ _ _ _ _ _).
        specialize (IH L1).
        destruct (createProducts defs L1 rest) as [r|e]; cbn [bind].
        -- split; [| eauto]. intros _ pid' [[= <-] | Hin]; [eauto |].
           apply (proj1 IH); eauto.
        -- split; [intros [r [=]] |]. intros Hall.
           destruct (proj2 IH) as [r [=]].
           intros pid' Hin. apply Hall. now right.
      * split; [intros [r [=]] |]. intros Hall.
        destruct (Hall pid (or_introl eq_refl)) as [ms Hms]. congruence.
    + specialize (IH L).
      destruct (createProducts defs L rest) as [r|e]; cbn [bind].
      * split; [| eauto]. intros _ pid' [[=] | Hin]. apply (proj1 IH); eauto.
      * split; [intros [r [=]] |]. intros Hall.
        destruct (proj2 IH) as [r [=]].
        intros pid' Hin. apply Hall. now right.
Qed.

(** X21. Building a shelf from its definition. On a definition of the
    right shape [Shelf.fromData] completes exactly when every product
    identifier of the definition is known. On success the new shelf is the next object of the level and
    the last of [level.shelves]; it has one slot entry per entry of the
    definition, [null] where the definition says [null] and elsewhere a
    product made for this slot alone: new, of the identifier asked for,
    with the matches of its definition, not locked and not disappearing;
    slot and match counts are at least 1, and the statistics flag is not
    set. Products and shelves that existed before are untouched. *)
Theorem Shelf_fromData_builds (defs : gmap string (list string)) (L : Level)
    (data : ShelfData) :
  ((exists r, Shelf_fromData defs L data = Ret r)
   <-> forall pid, In (Some pid) (data_products data) -> is_Some (defs !! pid))
  /\ forall (self : sref) (L' : Level),
       Shelf_fromData defs L data = Ret (self, L') ->
       let s := shelfHeap L' self in
       self = nextShelf L /\ nextShelf L' = S self
       /\ shelves L' = shelves L ++ [self]
       /\ length (products s) = length (data_products data)
       /\ (forall k, data_products data !! k = Some None ->
             products s !! k = Some Null)
       /\ (forall k pid, data_products data !! k = Some (Some pid) ->
             exists p ms,
               products s !! k = Some (Prod p) /\ defs !! pid = Some ms
               /\ (nextProduct L <= p < nextProduct L')%nat
               /\ productHeap L' p = Product_new pid ms)
       /\ (forall k k' p, products s !! k = Some (Prod p) ->
             products s !! k' = Some (Prod p) -> k = k')
       /\ (1 <= slotCount s)%nat /\ (1 <= matchCount s)%nat
       /\ statsUpdated s = false /\ kind s = KShelf
       /\ (forall p, (p < nextProduct L)%nat ->
             productHeap L' p = productHeap L p)
       /\ (forall r, r <> self -> shelfHeap L' r = shelfHeap L r)
       /\ stats L' = stats L.
Proof.
  split.
  - rewrite <- (createProducts_returns defs (data_products data) L).
    unfold Shelf_fromData.
    destruct (createProducts defs L (data_products data)) as [r|e];
      cbn [bind]; split; eauto; intros [r' [=]].
  - intros self L'. unfold Shelf_fromData.
    destruct (createProducts defs L (data_products data)) as [[cells L1]|e]
      eqn:Ec; [| discriminate].
    cbn [bind fst snd]. unfold Shelf_constructor. intros [= <- <-].
    destruct (createProducts_spec defs _ _ _ _ Ec)
      as (Hst & Hns & Hsh & Hstats & _ & Hnp & Hold & Hlen & Hnull
          & Hprod & Hinj & _).
    cbn zeta. cbn [shelfHeap nextShelf shelves productHeap stats nextProduct].
    rewrite store_set_same.
    cbn [products slotCount matchCount statsUpdated kind].
    split; [congruence |]. split; [reflexivity |].
    split; [now rewrite Hsh, Hns |]. split; [assumption |].
    split; [assumption |]. split; [assumption |]. split; [assumption |].
    split; [unfold or_default, DEFAULT_SLOT_COUNT;
            destruct (data_slotCount data) as [[|n]|]; lia |].
    split; [unfold or_default, DEFAULT_MATCH_COUNT;
            destruct (data_matchCount data) as [[|n]|]; lia |].
    split; [reflexivity |]. split; [reflexivity |].
    split; [assumption |]. split; [| assumption].
    intros r Hr. rewrite store_set_other by assumption. now rewrite Hst.
Qed.

Lemma Shelf_fromData_builds_witness :
  (exists r, Shelf_fromData appleDefs emptyLevel twoApplesData = Ret r)
  /\ let self := fst twoApplesBuilt in
     let L' := snd twoApplesBuilt in
     let s := shelfHeap L' self in
     self = nextShelf emptyLevel /\ nextShelf L' = S self
     /\ shelves L' = shelves emptyLevel ++ [self]
     /\ length (products s) = length (data_products twoApplesData)
     /\ (forall k, data_products twoApplesData !! k = Some None ->
           products s !! k = Some Null)
     /\ (forall k pid, data_products twoApplesData !! k = Some (Some pid) ->
           exists p ms,
             products s !! k = Some (Prod p) /\ appleDefs !! pid = Some ms
             /\ (nextProduct emptyLevel <= p < nextProduct L')%nat
             /\ productHeap L' p = Product_new pid ms)
     /\ (forall k k' p, products s !! k = Some (Prod p) ->
           products s !! k' = Some (Prod p) -> k = k')
     /\ (1 <= slotCount s)%nat /\ (1 <= matchCount s)%nat
     /\ statsUpdated s = false /\ kind s = KShelf
     /\ (forall p, (p < nextProduct emptyLevel)%nat ->
           productHeap L' p = productHeap emptyLevel p)
     /\ (forall r, r <> self -> shelfHeap L' r = shelfHeap emptyLevel r)
     /\ stats L' = stats emptyLevel.
Proof.
  destruct (Shelf_fromData_builds appleDefs emptyLevel twoApplesData)
    as [Hiff Hok].
  split.
  - apply Hiff. intros pid [[= <-] | [[=] | [[= <-] | []]]];
      exists ["apple"]; vm_compute; reflexivity.
  - apply (Hok (fst twoApplesBuilt) (snd twoApplesBuilt)). vm_compute; reflexivity.
Defined.

(** ** Wrapping a shelf *)

Lemma wrapperLocked_kind (st st' : store) (w : sref) :
  kind (st' w) = kind (st w) -> wrapperLocked st' w = wrapperLocked st w.
Proof. unfold wrapperLocked. now intros ->. Qed.

(** X22. A supplied shelf only gives. After [new SupplyShelf(level, shelf)]
    on an existing shelf, the wrapped shelf refuses every drop, and allows
    the pick-ups it allowed before; the wrapper, a new object that is not
    put in [level.shelves], refuses drops and pick-ups alike; the slots of
    the wrapped shelf and every other shelf are untouched. *)
Theorem SupplyShelf_constructor_supplies (L : Level) (shelf : sref) :
  (shelf < nextShelf L)%nat ->
  (forall w, canPickUpOverride (shelfHeap L shelf) = Some w ->
             (w < nextShelf L)%nat) ->
  let wrapper := fst (SupplyShelf_constructor L shelf) in
  let L' := snd (SupplyShelf_constructor L shelf) in
  wrapper = nextShelf L
  /\ refusesDrop (shelfHeap L') shelf
  /\ (forall product index,
         canPickUpProductAtIndex (shelfHeap L') shelf product index
         = canPickUpProductAtIndex (shelfHeap L) shelf product index)
  /\ refusesDrop (shelfHeap L') wrapper
  /\ refusesPickUp (shelfHeap L') wrapper
  /\ kind (shelfHeap L' wrapper) = KSupply shelf
  /\ shelves L' = shelves L
  /\ products (shelfHeap L' shelf) = products (shelfHeap L shelf)
  /\ forall r, r <> shelf -> r <> wrapper -> shelfHeap L' r = shelfHeap L r.
Proof.
  intros Hlt Hw. cbn zeta.
  unfold SupplyShelf_constructor, wrapper_super, Shelf_constructor.
  cbn [fst snd shelfHeap nextShelf shelves set_shelf set_shelfHeap].
  set (inner := set_canDropOverride (shelfHeap L shelf) (Some DropNever)).
  set (st1 := store_set (shelfHeap L) shelf inner).
  set (obj := mkShelf _ _ _ _ _ _ _ _ _ (KSupply shelf)).
  set (st' := store_set st1 (nextShelf L) obj).
  assert (Hinner : st' shelf = inner).
  { subst st' st1. rewrite store_set_other by lia. apply store_set_same. }
  assert (Hobj : st' (nextShelf L) = obj) by apply store_set_same.
  split; [reflexivity |]. split.
  { intros product index. unfold canDropProductAtIndex.
    now rewrite Hinner. }
  split.
  { intros product index. unfold canPickUpProductAtIndex.
    rewrite Hinner. cbn [canPickUpOverride inner set_canDropOverride].
    assert (Hclass : class_canPickUpProductAtIndex inner product index
                     = class_canPickUpProductAtIndex (shelfHeap L shelf)
                         product index) by reflexivity.
    rewrite Hclass.
    destruct (canPickUpOverride (shelfHeap L shelf)) as [w|] eqn:Eo;
      [| reflexivity].
    specialize (Hw w eq_refl).
    rewrite (wrapperLocked_kind (shelfHeap L) st' w); [reflexivity |].
    subst st' st1. rewrite store_set_other by lia.
    destruct (Nat.eq_dec w shelf) as [-> | Hne].
    - now rewrite store_set_same.
    - now rewrite store_set_other. }
  assert (Hwrap : refusesPickUp st' (nextShelf L)
                  /\ refusesDrop st' (nextShelf L)).
  { apply closed_refuses. now rewrite Hobj. }
  split; [apply Hwrap |]. split; [apply Hwrap |].
  split; [now rewrite Hobj |]. split; [reflexivity |].
  split; [now rewrite Hinner |].
  intros r Hr Hr'. subst st' st1.
  rewrite store_set_other by assumption. now apply store_set_other.
Qed.

Lemma SupplyShelf_constructor_supplies_witness :
  let wrapper := fst (SupplyShelf_constructor oneShelfLevel 0%nat) in
  let L' := snd (SupplyShelf_constructor oneShelfLevel 0%nat) in
  wrapper = nextShelf oneShelfLevel
  /\ refusesDrop (shelfHeap L') 0%nat
  /\ (forall product index,
         canPickUpProductAtIndex (shelfHeap L') 0%nat product index
         = canPickUpProductAtIndex (shelfHeap oneShelfLevel) 0%nat product
                                   index)
  /\ refusesDrop (shelfHeap L') wrapper
  /\ refusesPickUp (shelfHeap L') wrapper
  /\ kind (shelfHeap L' wrapper) = KSupply 0%nat
  /\ shelves L' = shelves oneShelfLevel
  /\ products (shelfHeap L' 0%nat) = products (shelfHeap oneShelfLevel 0%nat)
  /\ forall r, r <> 0%nat -> r <> wrapper ->
               shelfHeap L' r = shelfHeap oneShelfLevel r.
Proof.
  apply (SupplyShelf_constructor_supplies oneShelfLevel 0%nat).
  - cbn. lia.
  - intros w H. vm_compute in H. discriminate H.
Defined.

(** X23. A locking shelf gates the shelf it wraps. After
    [new LockingShelf(level, shelf, locking)] on an existing shelf that no
    wrapper has touched, the wrapper is a new, unlocked object that is not
    put in [level.shelves], and the wrapped shelf answers drops and
    pick-ups as its class does; and in every later state in which the
    wrapped shelf still carries the two closures, it refuses every drop
    and every pick-up whenever the wrapper is locked. *)
Theorem LockingShelf_constructor_gates (L : Level) (shelf : sref)
    (locking : LockingMode) :
  (shelf < nextShelf L)%nat ->
  canDropOverride (shelfHeap L shelf) = None ->
  canPickUpOverride (shelfHeap L shelf) = None ->
  let wrapper := fst (LockingShelf_constructor L shelf locking) in
  let L' := snd (LockingShelf_constructor L shelf locking) in
  wrapper = nextShelf L
  /\ kind (shelfHeap L' wrapper) = KLocking shelf locking false 0
  /\ shelves L' = shelves L
  /\ products (shelfHeap L' shelf) = products (shelfHeap L shelf)
  /\ (forall product index,
         canDropProductAtIndex (shelfHeap L') shelf product index
         = canDropProductAtIndex (shelfHeap L) shelf product index
         /\ canPickUpProductAtIndex (shelfHeap L') shelf product index
            = canPickUpProductAtIndex (shelfHeap L) shelf product index)
  /\ (forall st : store,
         canDropOverride (st shelf) = canDropOverride (shelfHeap L' shelf) ->
         canPickUpOverride (st shelf)
         = canPickUpOverride (shelfHeap L' shelf) ->
         wrapperLocked st wrapper = true ->
         refusesDrop st shelf /\ refusesPickUp st shelf)
  /\ forall r, r <> shelf -> r <> wrapper -> shelfHeap L' r = shelfHeap L r.
Proof.
  intros Hlt Hdo Hpo. cbn zeta.
  unfold LockingShelf_constructor, wrapper_super, Shelf_constructor.
  cbn [fst snd shelfHeap nextShelf shelves set_shelf set_shelfHeap].
  set (w := nextShelf L).
  set (inner := set_canPickUpOverride
                  (set_canDropOverride (shelfHeap L shelf)
                     (Some (DropUnlessLocked w))) (Some w)).
  set (st1 := store_set (shelfHeap L) shelf inner).
  set (obj := mkShelf _ _ _ _ _ _ _ _ _ (KLocking shelf locking false 0)).
  set (st' := store_set st1 w obj).
  assert (Hinner : st' shelf = inner).
  { subst st' st1 w. rewrite store_set_other by lia. apply store_set_same. }
  assert (Hobj : st' w = obj) by apply store_set_same.
  assert (Hunlocked : wrapperLocked st' w = false).
  { unfold wrapperLocked. now rewrite Hobj. }
  split; [reflexivity |]. split; [now rewrite Hobj |].
  split; [reflexivity |]. split; [now rewrite Hinner |].
  split.
  { intros product index.
    unfold canDropProductAtIndex, canPickUpProductAtIndex.
    rewrite Hinner, Hdo, Hpo. cbn [canDropOverride canPickUpOverride inner
      set_canDropOverride set_canPickUpOverride].
    rewrite Hunlocked. split; reflexivity. }
  split.
  { intros st Hd Hp Hlocked. rewrite Hinner in Hd, Hp.
    cbn [canDropOverride canPickUpOverride inner set_canDropOverride
         set_canPickUpOverride] in Hd, Hp.
    split; intros product index.
    - unfold canDropProductAtIndex. now rewrite Hd, Hlocked.
    - unfold canPickUpProductAtIndex. now rewrite Hp, Hlocked. }
  intros r Hr Hr'. subst st' st1.
  rewrite store_set_other by assumption. now apply store_set_other.
Qed.

Lemma LockingShelf_constructor_gates_witness :
  let wrapper :=
    fst (LockingShelf_constructor oneShelfLevel 0%nat (CompleteShelves 2)) in
  let L' :=
    snd (LockingShelf_constructor oneShelfLevel 0%nat (CompleteShelves 2)) in
  wrapper = nextShelf oneShelfLevel
  /\ kind (shelfHeap L' wrapper) = KLocking 0%nat (CompleteShelves 2) false 0
  /\ shelves L' = shelves oneShelfLevel
  /\ products (shelfHeap L' 0%nat) = products (shelfHeap oneShelfLevel 0%nat)
  /\ (forall product index,
         canDropProductAtIndex (shelfHeap L') 0%nat product index
         = canDropProductAtIndex (shelfHeap oneShelfLevel) 0%nat product index
         /\ canPickUpProductAtIndex (shelfHeap L') 0%nat product index
            = canPickUpProductAtIndex (shelfHeap oneShelfLevel) 0%nat product
                                      index)
  /\ (forall st : store,
         canDropOverride (st 0%nat) = canDropOverride (shelfHeap L' 0%nat) ->
         canPickUpOverride (st 0%nat)
         = canPickUpOverride (shelfHeap L' 0%nat) ->
         wrapperLocked st wrapper = true ->
         refusesDrop st 0%nat /\ refusesPickUp st 0%nat)
  /\ forall r, r <> 0%nat -> r <> wrapper ->
               shelfHeap L' r = shelfHeap oneShelfLevel r.
Proof.
  apply (LockingShelf_constructor_gates oneShelfLevel 0%nat
           (CompleteShelves 2)); [cbn; lia | reflexivity | reflexivity].
Defined.

(** ** The conditions of a locking shelf *)

(** X24. The toggle timer at its ends. The condition never fails. With
    the period 0 the shelf is never locked. With another period and no
    final countdown the shelf is locked at time 0, whatever
    [initiallyLocked] says. With a final countdown and a time limit the
    shelf is unlocked whenever the time left is at most the countdown;
    without a time limit the countdown is ignored. *)
Theorem LockingShelf_toggle_timer (L : Level) (period : Q)
    (initiallyLocked : bool) (finalCountdownUnlock : option Q) :
  (exists b,
      LockingShelf_shelfIsLocked L
        (ToggleTimer period initiallyLocked finalCountdownUnlock) = Ret b)
  /\ ((period == 0)%Q ->
      LockingShelf_shelfIsLocked L
        (ToggleTimer period initiallyLocked finalCountdownUnlock)
      = Ret false)
  /\ (~ (period == 0)%Q -> (time (stats L) == 0)%Q ->
      LockingShelf_shelfIsLocked L (ToggleTimer period initiallyLocked None)
      = Ret true)
  /\ (forall (countdown limit : Q),
         timeLimit L = Some limit ->
         (limit - time (stats L) <= countdown)%Q ->
         LockingShelf_shelfIsLocked L
           (ToggleTimer period initiallyLocked (Some countdown)) = Ret false)
  /\ (timeLimit L = None ->
      LockingShelf_shelfIsLocked L
        (ToggleTimer period initiallyLocked finalCountdownUnlock)
      = LockingShelf_shelfIsLocked L
          (ToggleTimer period initiallyLocked None)).
Proof.
  split; [| split; [| split; [| split]]].
  - unfold LockingShelf_shelfIsLocked.
    destruct (match finalCountdownUnlock with
              | Some f => _ | None => _ end); [now exists false |].
    destruct (Qeq_bool period 0); eauto.
  - intros Hp. apply Qeq_bool_iff in Hp.
    unfold LockingShelf_shelfIsLocked. rewrite Hp.
    now destruct (match finalCountdownUnlock with
                  | Some f => _ | None => _ end).
  - intros Hp H0.
    assert (Hq : Qeq_bool period 0 = false).
    { destruct (Qeq_bool period 0) eqn:E; [| reflexivity].
      apply Qeq_bool_iff in E. contradiction. }
    unfold LockingShelf_shelfIsLocked. rewrite Hq. f_equal.
    assert (He : (time (stats L) / period
                  + (if initiallyLocked then 0 else 1 # 2)
                  == (if initiallyLocked then 0 else 1 # 2))%Q).
    { rewrite H0. destruct initiallyLocked; field; assumption. }
    rewrite (Qfloor_comp _ _ He). now destruct initiallyLocked.
  - intros countdown limit Hl Hle. unfold LockingShelf_shelfIsLocked.
    rewrite Hl. apply Qle_bool_iff in Hle. now rewrite Hle.
  - intros Hl. unfold LockingShelf_shelfIsLocked. rewrite Hl.
    now destruct finalCountdownUnlock.
Qed.

Lemma LockingShelf_toggle_timer_witness :
  LockingShelf_shelfIsLocked emptyLevel (ToggleTimer 2 false None) = Ret true
  /\ LockingShelf_shelfIsLocked emptyLevel (ToggleTimer 0 true None)
     = Ret false.
Proof.
  destruct (LockingShelf_toggle_timer emptyLevel 2 false None)
    as (_ & _ & Hstart & _).
  destruct (LockingShelf_toggle_timer emptyLevel 0 true None)
    as (_ & Hzero & _).
  split.
  - apply Hstart; [intros H; discriminate H | reflexivity].
  - apply Hzero. reflexivity.
Defined.

(** X25. The counting conditions only ever lock. The conditions
    countdown-timer, match-products without a product, and
    complete-shelves never fail, and once one of them answers locked it
    answers locked in every state whose clock and counters are at least
    as large. *)
Theorem LockingShelf_counters_monotone (L L2 : Level) (locking : LockingMode) :
  match locking with
  | CountdownTimer _ | MatchProducts None _ | CompleteShelves _ => True
  | _ => False
  end ->
  (time (stats L) <= time (stats L2))%Q ->
  totalMatches (stats L) <= totalMatches (stats L2) ->
  totalCompletedShelves (stats L) <= totalCompletedShelves (stats L2) ->
  (exists b, LockingShelf_shelfIsLocked L locking = Ret b)
  /\ (LockingShelf_shelfIsLocked L locking = Ret true ->
      LockingShelf_shelfIsLocked L2 locking = Ret true).
Proof.
  intros Hmode Ht Hm Hc.
  destruct locking as [| after | [lp|] n | n | |]; try contradiction;
    cbn [LockingShelf_shelfIsLocked]; (split; [eauto |]); intros [= H];
    f_equal.
  - unfold Qlt_bool in *. apply negb_true_iff in H. apply negb_true_iff.
    apply Qle_bool_false in H.
    destruct (Qle_bool (time (stats L2)) after) eqn:E; [| reflexivity].
    apply Qle_bool_true in E. lra.
  - apply Z.geb_le in H. apply Z.geb_le. lia.
  - apply Z.geb_le in H. apply Z.geb_le. lia.
Qed.

Lemma LockingShelf_counters_monotone_witness :
  (exists b,
      LockingShelf_shelfIsLocked (levelWithCompleted 2) (CompleteShelves 2)
      = Ret b)
  /\ LockingShelf_shelfIsLocked (levelWithCompleted 3) (CompleteShelves 2)
     = Ret true.
Proof.
  destruct (LockingShelf_counters_monotone (levelWithCompleted 2)
              (levelWithCompleted 3) (CompleteShelves 2)) as [Hret Hmono].
  - exact I.
  - apply Qle_refl.
  - cbn. lia.
  - cbn. lia.
  - split; [exact Hret | apply Hmono; reflexivity].
Defined.

(** ** The slots of a deep shelf are its top layer *)

Lemma peek_map {A B} (f : A -> B) (l : list A) :
  peek (map f l) = option_map f (peek l).
Proof.
  unfold peek. induction l as [|x l IH]; [reflexivity |].
  destruct l as [|y l]; [reflexivity |].
  cbn [map] in *. now rewrite !last_cons_cons.
Qed.

Lemma peek_set_in_top (ls : list (list cell)) (index : nat) (v : cell) :
  peek (set_in_top ls index v)
  = option_map (fun top => js_set top index v) (peek ls).
Proof.
  unfold peek. induction ls as [|l ls IH]; [reflexivity |].
  destruct ls as [|l' ls]; [reflexivity |].
  change (set_in_top (l :: l' :: ls) index v)
    with (l :: set_in_top (l' :: ls) index v).
  rewrite last_cons_cons.
  destruct (set_in_top (l' :: ls) index v) as [|x xs] eqn:E.
  - destruct ls; discriminate.
  - now rewrite last_cons_cons.
Qed.

Lemma removeFinished_filled (h : heap) (n : nat) :
  removeFinished h (js_filled_null n) = js_filled_null n.
Proof.
  unfold removeFinished, js_filled_null.
  induction n as [|n IH]; [reflexivity |]. cbn [repeat map]. now rewrite IH.
Qed.

Lemma removeFinished_ext (h h' : heap) (ps : list cell) :
  (forall p, finishedDisappearing (h' p) = finishedDisappearing (h p)) ->
  removeFinished h' ps = removeFinished h ps.
Proof.
  intros H. unfold removeFinished. apply map_ext. intros [| |p]; try reflexivity.
  now rewrite H.
Qed.

Lemma placeLayer_finished (layer : list cell) :
  forall (h : heap) (p : loc),
    finishedDisappearing (placeLayer h layer p) = finishedDisappearing (h p).
Proof.
  unfold placeLayer.
  induction layer as [|c rest IH]; intros h p; [reflexivity |].
  cbn [fold_left]. rewrite IH. destruct c as [| |q]; try reflexivity.
  destruct (Nat.eq_dec p q) as [-> | Hne].
  - now rewrite heap_set_same.
  - now rewrite heap_set_other.
Qed.

Lemma placeLowerLayers_finished (ls : list (list cell)) (h : heap) (p : loc) :
  finishedDisappearing (placeLowerLayers h ls p) = finishedDisappearing (h p).
Proof.
  unfold placeLowerLayers. revert h.
  induction (removelast ls) as [|l rest IH]; intros h; [reflexivity |].
  cbn [fold_left]. now rewrite IH, placeLayer_finished.
Qed.

Lemma disappearAll_notin (group : list loc) :
  forall (h : heap) (index : nat) (q : loc),
    ~ In q group -> disappearAll h index group q = h q.
Proof.
  induction group as [|p rest IH]; intros h index q Hq; [reflexivity |].
  cbn [disappearAll]. rewrite IH by (intros Hin; apply Hq; now right).
  apply heap_set_other. intros ->. apply Hq. now left.
Qed.

Lemma removeFinished_kept (h : heap) (ps : list cell) (p : loc) :
  In (Prod p) (removeFinished h ps) -> finishedDisappearing (h p) = false.
Proof.
  unfold removeFinished. rewrite in_map_iff. intros (c & Hc & _).
  destruct c as [| |q]; try discriminate.
  destruct (finishedDisappearing (h q)) eqn:E; [discriminate |]. congruence.
Qed.

(** The shelf after [Shelf.update], in terms of the products as the
    product updates leave them. *)
Lemma Shelf_update_shape (c : Shelf -> bool) (i : Input) (L L' : Level)
    (self : sref) :
  Shelf_update c i L self = Ret L' ->
  let hu :=
    productHeap (updateProducts i self 0 (products (shelfHeap L self)) L) in
  products (shelfHeap L' self) = removeFinished hu (products (shelfHeap L self))
  /\ kind (shelfHeap L' self) = kind (shelfHeap L self)
  /\ slotCount (shelfHeap L' self) = slotCount (shelfHeap L self)
  /\ forall p,
       finishedDisappearing (productHeap L' p) = finishedDisappearing (hu p).
Proof.
  unfold Shelf_update. intros Hrun.
  apply Shelf_update_stats_frame in Hrun
    as (Hh & _ & _ & _ & Hps & Hk & _ & Hsc).
  cbn zeta. rewrite Hps, Hh, Hk, Hsc. clear Hps Hh Hk Hsc L'.
  unfold Shelf_update_match. cbn [fst snd].
  pose proof (updateProducts_frame i self (products (shelfHeap L self)) 0 L)
    as Hframe. cbn zeta in Hframe. destruct Hframe as (_ & Hst & _).
  set (L1 := Shelf_update_products i L self).
  assert (H1 : products (shelfHeap L1 self)
               = removeFinished
                   (productHeap
                      (updateProducts i self 0 (products (shelfHeap L self)) L))
                   (products (shelfHeap L self))
               /\ kind (shelfHeap L1 self) = kind (shelfHeap L self)
               /\ slotCount (shelfHeap L1 self) = slotCount (shelfHeap L self)
               /\ productHeap L1
                  = productHeap
                      (updateProducts i self 0 (products (shelfHeap L self)) L)).
  { subst L1. unfold Shelf_update_products. cbn zeta.
    rewrite shelfHeap_set_shelf. cbn [products set_products kind slotCount].
    now rewrite Hst. }
  destruct H1 as (Hps1 & Hk1 & Hsc1 & Hh1).
  set (hu := productHeap (updateProducts i self 0 _ L)) in *.
  pose proof (Shelf_update_match_keeps L1 self) as Hm. cbn zeta in Hm.
  unfold Shelf_update_match in Hm. cbn [fst snd] in Hm.
  destruct Hm as (_ & Hst2 & Hgroup).
  set (m := Shelf_checkForMatches (productHeap L1) (shelfHeap L1 self)) in *.
  clearbody L1 m hu.
  rewrite Hst2, Hps1, Hk1, Hsc1.
  split; [reflexivity |]. split; [reflexivity |]. split; [reflexivity |].
  intros p. destruct (found m); [| now rewrite Hh1].
  cbn [productHeap set_productHeap]. rewrite Hh1.
  destruct (finishedDisappearing (hu p)) eqn:Ef.
  - rewrite disappearAll_notin; [assumption |].
    intros Hin. apply Hgroup in Hin. rewrite Hps1 in Hin.
    apply removeFinished_kept in Hin. congruence.
  - apply not_true_iff_false. intros Hf%disappearAll_finished. congruence.
Qed.

Lemma DeepShelf_step_synced (op : ShelfOp) (L L' : Level) (self : sref) :
  isDeep (shelfHeap L self) -> topLayerSynced (shelfHeap L self) ->
  DeepShelf_step op L self = Ret L' ->
  isDeep (shelfHeap L' self) /\ topLayerSynced (shelfHeap L' self).
Proof.
  intros [d Hd] Hsync. unfold topLayerSynced, deepLayers in Hsync.
  rewrite Hd in Hsync.
  destruct op as [i | index product | index]; cbn [DeepShelf_step].
  - unfold DeepShelf_update.
    destruct (Shelf_update DeepShelf_shelfIsComplete i L self) as [L1|e]
      eqn:Eu; [| discriminate].
    cbn [bind]. apply Shelf_update_shape in Eu. cbn zeta in Eu.
    destruct Eu as (Hps & Hk & Hsc & Hfin).
    set (hu := productHeap (updateProducts i self 0 _ L)) in *.
    rewrite Hk, Hd. intros [= <-]. rewrite shelfHeap_set_shelf.
    set (h := placeLowerLayers (productHeap L1) (layers d)).
    assert (Hh : forall p,
               finishedDisappearing (h p) = finishedDisappearing (hu p)).
    { intros p. subst h. now rewrite placeLowerLayers_finished. }
    unfold DeepShelf_update_layers.
    set (ls := map (removeFinished h) (layers d)).
    destruct (_ && Qle_bool _ 0).
    + split; [eexists; reflexivity |].
      unfold topLayerSynced, deepLayers. reflexivity.
    + split; [eexists; reflexivity |].
      unfold topLayerSynced, deepLayers.
      cbn [kind set_deep set_kind products slotCount layers].
      rewrite Hps, Hsc, Hsync. unfold topLayerOrEmpty. subst ls.
      rewrite peek_map.
      destruct (peek (layers d)) as [top|]; cbn [option_map].
      * symmetry. now apply removeFinished_ext.
      * apply removeFinished_filled.
  - intros [= <-]. rewrite shelfHeap_set_shelf.
    assert (Hsame : isDeep (shelfHeap L self)
                    /\ topLayerSynced (shelfHeap L self)).
    { split; [now exists d |].
      unfold topLayerSynced, deepLayers. now rewrite Hd. }
    unfold addProductAtIndex, DeepShelf_addProductAtIndex. rewrite Hd.
    destruct (invalidIndex _ index); [exact Hsame |].
    destruct (negb _); [exact Hsame |].
    destruct (Nat.eqb_spec (length (layers d)) 0) as [H0 | H0];
      [exact Hsame |].
    cbn [snd]. split; [eexists; reflexivity |].
    unfold topLayerSynced, deepLayers.
    cbn [kind set_deep set_kind products set_products slotCount layers].
    rewrite Hsync. unfold topLayerOrEmpty. rewrite peek_set_in_top.
    destruct (peek_is_Some (layers d)) as [top ->]; [lia |].
    reflexivity.
  - intros [= <-]. rewrite shelfHeap_set_shelf.
    assert (Hsame : isDeep (shelfHeap L self)
                    /\ topLayerSynced (shelfHeap L self)).
    { split; [now exists d |].
      unfold topLayerSynced, deepLayers. now rewrite Hd. }
    unfold removeProductAtIndex, DeepShelf_removeProductAtIndex. rewrite Hd.
    destruct (invalidIndex _ index); [exact Hsame |].
    destruct (Nat.eqb_spec (length (layers d)) 0) as [H0 | H0];
      [exact Hsame |].
    cbn [snd]. split; [eexists; reflexivity |].
    unfold topLayerSynced, deepLayers.
    cbn [kind set_deep set_kind products set_products slotCount layers].
    rewrite Hsync. unfold topLayerOrEmpty. rewrite peek_set_in_top.
    destruct (peek_is_Some (layers d)) as [top ->]; [lia |].
    reflexivity.
Qed.

(** X26. The slots of a deep shelf are those of its top layer. A deep shelf
    is built with its slots reading as its top layer ([null]s when there
    is no layer), and every tick, every product placed and every product
    taken keeps it so: whenever a run of such steps completes, the
    [products] array and the top layer hold the same cells. *)
Theorem DeepShelf_top_layer_synced :
  (forall (L : Level) (ls : list (list cell)) (slots matchN : nat)
          (ign : bool) (ref : option string),
      let s := constructed (DeepShelf_constructor L ls slots matchN ign ref) in
      isDeep s /\ topLayerSynced s)
  /\ forall (ops : list ShelfOp) (L L' : Level) (self : sref),
       isDeep (shelfHeap L self) -> topLayerSynced (shelfHeap L self) ->
       DeepShelf_run ops L self = Ret L' ->
       isDeep (shelfHeap L' self) /\ topLayerSynced (shelfHeap L' self).
Proof.
  split.
  - intros L ls slots matchN ign ref. cbn zeta.
    unfold constructed, DeepShelf_constructor, Shelf_constructor.
    cbn [fst snd shelfHeap]. rewrite store_set_same.
    split; [eexists; reflexivity | reflexivity].
  - induction ops as [|op rest IH]; intros L L' self Hdeep Hsync;
      cbn [DeepShelf_run].
    + now intros [= <-].
    + destruct (DeepShelf_step op L self) as [L1|e] eqn:Es; [| discriminate].
      cbn [bind]. apply DeepShelf_step_synced in Es as [Hd1 Hs1];
        [| assumption | assumption].
      now apply IH.
Qed.

Lemma DeepShelf_top_layer_synced_witness :
  (let s := constructed (DeepShelf_constructor emptyLevel
                           [[Prod 0%nat; Null; Null]] 3 3 false None) in
   isDeep s /\ topLayerSynced s)
  /\ isDeep (shelfHeap twoLayerLevelRun 0%nat)
  /\ topLayerSynced (shelfHeap twoLayerLevelRun 0%nat).
Proof.
  destruct DeepShelf_top_layer_synced as [Hnew Hrun].
  split; [apply Hnew |].
  apply (Hrun deepRun twoLayerLevel twoLayerLevelRun 0%nat).
  - eexists. vm_compute; reflexivity.
  - vm_compute; reflexivity.
  - vm_compute; reflexivity.
Defined.

(** ** Wrappers: delegation *)

Lemma Shelf_update_others (c : Shelf -> bool) (i : Input) (L L' : Level)
    (self : sref) :
  Shelf_update c i L self = Ret L' ->
  forall r, r <> self -> shelfHeap L' r = shelfHeap L r.
Proof.
  unfold Shelf_update. intros Hrun r Hr.
  apply Shelf_update_stats_frame in Hrun as (_ & _ & _ & Hoth & _).
  rewrite (Hoth r Hr).
  pose proof (Shelf_update_match_keeps (Shelf_update_products i L self) self)
    as Hm. cbn zeta in Hm. destruct Hm as (_ & -> & _).
  unfold Shelf_update_products. cbn zeta. cbn [shelfHeap set_shelf set_shelfHeap].
  rewrite store_set_other by assumption.
  now destruct (updateProducts_frame i self (products (shelfHeap L self)) 0 L)
    as (_ & -> & _).
Qed.

Lemma wrapped_kind (s s' : Shelf) : kind s' = kind s -> wrapped s' = wrapped s.
Proof. unfold wrapped. now intros ->. Qed.

(** The update of a shelf that is no wrapper writes no other shelf and
    turns no shelf into a wrapper. *)
Lemma plain_update_frame (i : Input) (L L' : Level) (self : sref) :
  wrapped (shelfHeap L self) = None ->
  match kind (shelfHeap L self) with
  | KClosing _ _ _ => ClosingShelf_update i L self
  | KDisplay _ _ _ _ => DisplayShelf_update i L self
  | KDeep _ => DeepShelf_update i L self
  | _ => Shelf_update Shelf_shelfIsEmpty i L self
  end = Ret L' ->
  (forall r, r <> self -> shelfHeap L' r = shelfHeap L r)
  /\ wrapped (shelfHeap L' self) = None.
Proof.
  intros Hw.
  destruct (kind (shelfHeap L self)) as [|cl ct cf|al co ct cf|d|w|w ? ? ?|w ? ?]
    eqn:Hk; try (unfold wrapped in Hw; rewrite Hk in Hw; discriminate).
  - intros Hrun. split; [now apply (Shelf_update_others _ _ _ _ _ Hrun) |].
    apply Shelf_update_shape in Hrun as (_ & Hk' & _).
    unfold wrapped. now rewrite Hk', Hk.
  - unfold ClosingShelf_update. rewrite Hk. cbn zeta.
    destruct (updateProducts_frame i self (products (shelfHeap L self)) 0 L)
      as (_ & Hst & _).
    intros Hrun. apply Shelf_update_stats_frame in Hrun
      as (_ & _ & _ & Hoth & _ & Hk' & _).
    rewrite shelfHeap_set_shelf in Hk'. split.
    + intros r Hr. rewrite (Hoth r Hr). cbn [shelfHeap set_shelf set_shelfHeap].
      rewrite store_set_other by assumption. now rewrite Hst.
    + unfold wrapped. now rewrite Hk'.
  - unfold DisplayShelf_update. rewrite Hk. cbn zeta.
    set (L0 := set_productHeap L _).
    destruct (updateProducts_frame i self (products (shelfHeap L0 self)) 0 L0)
      as (_ & Hst & _).
    intros Hrun. apply Shelf_update_stats_frame in Hrun
      as (_ & _ & _ & Hoth & _ & Hk' & _).
    rewrite shelfHeap_set_shelf in Hk'. split.
    + intros r Hr. rewrite (Hoth r Hr). cbn [shelfHeap set_shelf set_shelfHeap].
      rewrite store_set_other by assumption. now rewrite Hst.
    + unfold wrapped. now rewrite Hk'.
  - unfold DeepShelf_update.
    destruct (Shelf_update DeepShelf_shelfIsComplete i L self) as [L1|e] eqn:Eu;
      [| discriminate].
    cbn [bind].
    pose proof (Shelf_update_others _ _ _ _ _ Eu) as Hoth.
    apply Shelf_update_shape in Eu as (_ & Hk1 & _).
    rewrite Hk1, Hk. intros [= <-]. split.
    + intros r Hr. cbn [shelfHeap set_shelf set_shelfHeap set_productHeap].
      rewrite store_set_other by assumption. now apply Hoth.
    + rewrite shelfHeap_set_shelf. unfold wrapped, DeepShelf_update_layers.
      now destruct (_ && Qle_bool _ 0).
Qed.

Lemma shelfIsComplete_stable (st : store) :
  wrapsOlder st ->
  forall (depth : nat) (r : sref),
    (r < depth)%nat ->
    shelfIsComplete depth st r = shelfIsComplete (S r) st r
    /\ exists b, shelfIsComplete depth st r = Ret b.
Proof.
  intros Hw.
  assert (H : forall (n : nat) (depth : nat) (r : sref),
             (r < n)%nat -> (r < depth)%nat ->
             exists b, shelfIsComplete depth st r = Ret b
                       /\ shelfIsComplete (S r) st r = Ret b).
  { induction n as [|n IH]; intros depth r Hn Hd; [lia |].
    destruct depth as [|depth]; [lia |]. cbn [shelfIsComplete].
    pose proof (Hw r) as Hr. unfold wrapped in Hr.
    destruct (kind (st r)) as [| | | |w|w ? ? ?|w ? ?]; eauto;
      specialize (Hr w eq_refl);
      destruct (IH depth w ltac:(lia) ltac:(lia)) as (b & H1 & H2);
      destruct (IH r w ltac:(lia) ltac:(lia)) as (b' & H1' & H2');
      exists b; split; congruence. }
  intros depth r Hd.
  destruct (H (S r) depth r ltac:(lia) Hd) as (b & H1 & H2).
  split; [congruence | eauto].
Qed.

Lemma LockingShelf_update_own_frame (i : Input) (L L' : Level) (self : sref) :
  LockingShelf_update_own i L self = Ret L' ->
  (forall r, r <> self -> shelfHeap L' r = shelfHeap L r)
  /\ wrapped (shelfHeap L' self) = wrapped (shelfHeap L self).
Proof.
  unfold LockingShelf_update_own.
  destruct (kind (shelfHeap L self)) as [| | | | |w lk b t|] eqn:Hk;
    try (intros [= <-]; split; auto).
  destruct (LockingShelf_shelfIsLocked L lk) as [b'|e]; [| discriminate].
  cbn [bind]. intros [= <-]. split.
  - intros r Hr. cbn. now rewrite store_set_other.
  - rewrite shelfHeap_set_shelf. unfold wrapped. now rewrite Hk.
Qed.

Lemma DisappearingShelf_update_own_frame (depth : nat) (i : Input)
    (L L' : Level) (self : sref) :
  DisappearingShelf_update_own depth i L self = Ret L' ->
  (forall r, wrapped (shelfHeap L' r) = wrapped (shelfHeap L r))
  /\ (forall r, r <> self -> wrapped (shelfHeap L self) <> Some r ->
                shelfHeap L' r = shelfHeap L r).
Proof.
  unfold DisappearingShelf_update_own.
  destruct (kind (shelfHeap L self)) as [| | | | | |w dis t] eqn:Hk;
    try (intros [= <-]; split; auto).
  destruct (shelfIsComplete depth (shelfHeap L) self) as [complete|e];
    [| discriminate].
  cbn [bind].
  set (start := complete && negb dis).
  set (L1 := if start then _ else L).
  assert (H1 : shelfHeap L1 = shelfHeap L) by (subst L1; now destruct start).
  destruct (start || dis); [| intros [= <-]; rewrite H1; split; auto].
  set (tm := clamp _ 0 _).
  assert (Hself : forall s, kind s = kind (shelfHeap L self) \/
                            kind s = KDisappearing w true tm ->
                            wrapped s = Some w).
  { intros s [Hs | Hs]; unfold wrapped; rewrite Hs, ?Hk; reflexivity. }
  assert (Hwself : wrapped (shelfHeap L self) = Some w)
    by (apply Hself; now left).
  destruct (Qle_bool tm 0); intros [= <-]; split.
  - intros r. cbn [shelfHeap set_shelf set_shelfHeap]. rewrite H1.
    destruct (Nat.eq_dec r self) as [-> | Hr].
    + rewrite store_set_same. cbn [kind set_disposed wrapped].
      destruct (Nat.eq_dec self w) as [<- | Hne].
      * rewrite store_set_same. cbn. rewrite store_set_same. cbn.
        now rewrite Hwself.
      * rewrite store_set_other by assumption. rewrite store_set_same. cbn.
        now rewrite Hwself.
    + rewrite store_set_other by assumption.
      destruct (Nat.eq_dec r w) as [-> | Hrw].
      * rewrite store_set_same. cbn. now rewrite store_set_other.
      * rewrite !store_set_other by assumption. reflexivity.
  - intros r Hr Hrw. rewrite Hwself in Hrw.
    cbn [shelfHeap set_shelf set_shelfHeap]. rewrite H1.
    rewrite !store_set_other by congruence. reflexivity.
  - intros r. cbn [shelfHeap set_shelf set_shelfHeap]. rewrite H1.
    destruct (Nat.eq_dec r self) as [-> | Hr].
    + rewrite store_set_same. cbn. now rewrite Hwself.
    + now rewrite store_set_other.
  - intros r Hr _. cbn [shelfHeap set_shelf set_shelfHeap]. rewrite H1.
    now rewrite store_set_other.
Qed.

(** An update writes the shelf it is called on and, through the wrappers,
    older shelves only; no shelf becomes or ceases to be a wrapper. *)
Lemma update_frame (i : Input) :
  forall (depth : nat) (L L' : Level) (self : sref),
    wrapsOlder (shelfHeap L) ->
    update depth i L self = Ret L' ->
    (forall r, wrapped (shelfHeap L' r) = wrapped (shelfHeap L r))
    /\ (forall r, (self < r)%nat -> shelfHeap L' r = shelfHeap L r).
Proof.
  induction depth as [|depth IH]; intros L L' self Hw Hrun;
    [discriminate |].
  cbn [update] in Hrun.
  assert (Hplain : wrapped (shelfHeap L self) = None ->
            match kind (shelfHeap L self) with
            | KClosing _ _ _ => ClosingShelf_update i L self
            | KDisplay _ _ _ _ => DisplayShelf_update i L self
            | KDeep _ => DeepShelf_update i L self
            | _ => Shelf_update Shelf_shelfIsEmpty i L self
            end = Ret L' ->
            (forall r, wrapped (shelfHeap L' r) = wrapped (shelfHeap L r))
            /\ (forall r, (self < r)%nat -> shelfHeap L' r = shelfHeap L r)).
  { intros Hn Hr. destruct (plain_update_frame i L L' self Hn Hr) as [Hoth Hs].
    split.
    - intros r. destruct (Nat.eq_dec r self) as [-> | Hne];
        [congruence | now rewrite Hoth].
    - intros r Hlt. apply Hoth. lia. }
  pose proof (Hw self) as Hself. unfold wrapped in Hself, Hplain.
  destruct (kind (shelfHeap L self)) as [| | | |w|w lk b t|w dis t] eqn:Hk;
    try (apply Hplain; [reflexivity | exact Hrun]);
    specialize (Hself w eq_refl).
  - destruct (IH L L' w Hw Hrun) as [Hwr Hab]. split; [assumption |].
    intros r Hr. apply Hab. lia.
  - destruct (update depth i L w) as [L1|e] eqn:E1; [| discriminate].
    cbn [bind] in Hrun. destruct (IH L L1 w Hw E1) as [Hwr Hab].
    apply LockingShelf_update_own_frame in Hrun as [Hoth Hs]. split.
    + intros r. destruct (Nat.eq_dec r self) as [-> | Hne].
      * now rewrite Hs, Hwr.
      * now rewrite Hoth, Hwr.
    + intros r Hr. rewrite Hoth by lia. apply Hab. lia.
  - destruct (update depth i L w) as [L1|e] eqn:E1; [| discriminate].
    cbn [bind] in Hrun. destruct (IH L L1 w Hw E1) as [Hwr Hab].
    apply DisappearingShelf_update_own_frame in Hrun as [Hwr2 Hoth]. split.
    + intros r. now rewrite Hwr2, Hwr.
    + intros r Hr. rewrite Hoth; [apply Hab; lia | lia |].
      rewrite Hwr. unfold wrapped. rewrite Hk. intros [= ->]. lia.
Qed.

Lemma wrapsOlder_preserved (st st' : store) :
  (forall r, wrapped (st' r) = wrapped (st r)) -> wrapsOlder st -> wrapsOlder st'.
Proof. intros H Hw r shelf Hr. apply Hw. now rewrite <- H. Qed.

Lemma DisappearingShelf_update_own_stable (depth : nat) (i : Input)
    (L : Level) (self : sref) :
  wrapsOlder (shelfHeap L) -> (self < depth)%nat ->
  DisappearingShelf_update_own depth i L self
  = DisappearingShelf_update_own (S self) i L self
  /\ exists L', DisappearingShelf_update_own depth i L self = Ret L'.
Proof.
  intros Hw Hd. unfold DisappearingShelf_update_own.
  destruct (kind (shelfHeap L self)); eauto.
  destruct (shelfIsComplete_stable (shelfHeap L) Hw depth self Hd)
    as [Heq [b Hb]].
  rewrite <- Heq, Hb. cbn [bind]. split; [reflexivity |].
  destruct (_ || _); [| eauto]. destruct (Qle_bool _ 0); eauto.
Qed.

Lemma update_S (depth : nat) (i : Input) (L : Level) (self : sref) :
  update (S depth) i L self
  = match kind (shelfHeap L self) with
    | KShelf => Shelf_update Shelf_shelfIsEmpty i L self
    | KClosing _ _ _ => ClosingShelf_update i L self
    | KDisplay _ _ _ _ => DisplayShelf_update i L self
    | KDeep _ => DeepShelf_update i L self
    | KSupply shelf => update depth i L shelf
    | KLocking shelf _ _ _ =>
        do L1 <- update depth i L shelf; LockingShelf_update_own i L1 self
    | KDisappearing shelf _ _ =>
        do L1 <- update depth i L shelf;
        DisappearingShelf_update_own depth i L1 self
    end.
Proof. reflexivity. Qed.

Lemma update_stable (i : Input) :
  forall (n depth : nat) (L : Level) (self : sref),
    wrapsOlder (shelfHeap L) -> (self < n)%nat -> (S self < depth)%nat ->
    update depth i L self = update (S (S self)) i L self.
Proof.
  induction n as [|n IH]; intros depth L self Hw Hn Hd; [lia |].
  destruct depth as [|depth]; [lia |].
  rewrite (update_S depth), (update_S (S self)).
  pose proof (Hw self) as Hself. unfold wrapped in Hself.
  destruct (kind (shelfHeap L self)) as [| | | |w|w lk b t|w dis t] eqn:Hk;
    try reflexivity; specialize (Hself w eq_refl).
  - rewrite (IH depth L w) by (assumption || lia).
    now rewrite (IH (S self) L w) by (assumption || lia).
  - rewrite (IH depth L w) by (assumption || lia).
    now rewrite (IH (S self) L w) by (assumption || lia).
  - rewrite (IH depth L w) by (assumption || lia).
    rewrite (IH (S self) L w) by (assumption || lia).
    destruct (update (S (S w)) i L w) as [L1|e] eqn:E1; [| reflexivity].
    cbn [bind].
    assert (Hw1 : wrapsOlder (shelfHeap L1)).
    { destruct (update_frame i _ _ _ _ Hw E1) as [Hwr _].
      exact (wrapsOlder_preserved _ _ Hwr Hw). }
    now destruct (DisappearingShelf_update_own_stable depth i L1 self Hw1)
      as [-> _]; [lia |].
Qed.

Lemma recordMatches_error (h : heap) (group : list loc) :
  forall (s : Stats) (e : JsError),
    recordMatches h s group = Throw e -> isTypeError e.
Proof.
  induction group as [|p rest IH]; intros s e H; cbn [recordMatches] in H;
    [discriminate |].
  unfold recordMatch in H.
  destruct (productMatches s !! id (h p)) as [[proto total]|];
    [| injection H as <-; exact I].
  cbn [bind] in H. eapply IH. exact H.
Qed.

Lemma Shelf_update_stats_error (c : Shelf -> bool) (m : MatchResult)
    (L : Level) (self : sref) (e : JsError) :
  Shelf_update_stats c m L self = Throw e -> isTypeError e.
Proof.
  unfold Shelf_update_stats.
  destruct (statsUpdated (shelfHeap L self)); [discriminate |].
  destruct (found m).
  - destruct (recordMatches _ _ _) as [s1|e1] eqn:Er; cbn [bind].
    + destruct (c _); discriminate.
    + intros [= <-]. eapply recordMatches_error. exact Er.
  - cbn [bind]. destruct (c _); discriminate.
Qed.

Lemma some_r_error {A} (f : A -> Result bool) (l : list A) (e : JsError) :
  (forall x e', f x = Throw e' -> isTypeError e') ->
  some_r f l = Throw e -> isTypeError e.
Proof.
  intros Hf. induction l as [|x rest IH]; cbn [some_r]; [discriminate |].
  destruct (f x) as [b|e'] eqn:Ex; cbn [bind].
  - destruct b; [discriminate | exact IH].
  - intros [= <-]. eapply Hf. exact Ex.
Qed.

Lemma some_cells_error (f : cell -> nat -> Result bool) (l : list cell)
    (e : JsError) :
  (forall c k e', f c k = Throw e' -> isTypeError e') ->
  forall index, some_cells f index l = Throw e -> isTypeError e.
Proof.
  intros Hf. induction l as [|c rest IH]; intros index; cbn [some_cells];
    [discriminate |].
  destruct c as [| |p]; [apply IH | |];
    (destruct (f _ index) as [b|e'] eqn:Ex; cbn [bind];
     [destruct b; [discriminate | apply IH]
     | intros [= <-]; eapply Hf; exact Ex]).
Qed.

Lemma LockingShelf_shelfIsLocked_error (L : Level) (locking : LockingMode)
    (e : JsError) :
  LockingShelf_shelfIsLocked L locking = Throw e -> isTypeError e.
Proof.
  unfold LockingShelf_shelfIsLocked.
  destruct locking as [period il fcu | after | [lp|] n | n | ref
                       | ref slot latch inverted required].
  - destruct (match fcu with Some _ => _ | None => _ end); [discriminate |].
    destruct (Qeq_bool period 0); discriminate.
  - discriminate.
  - discriminate.
  - discriminate.
  - discriminate.
  - discriminate.
  - destruct latch.
    + destruct (some_r _ (productPlacements (stats L))) as [b|e'] eqn:Es;
        cbn [bind]; [discriminate |].
      intros [= <-]. eapply some_r_error; [| exact Es].
      intros [[shelf sl] product] e''.
      destruct (reference_is _ shelf ref); [| discriminate].
      cbn. intros [= <-]. exact I.
    + destruct (some_r _ (currentProductPlacement (stats L))) as [b|e'] eqn:Es;
        cbn [bind]; [discriminate |].
      intros [= <-]. eapply some_r_error; [| exact Es].
      intros [key [shelf current | rows]] e''; cbn [snd].
      * destruct (reference_is _ shelf ref); [| discriminate].
        apply some_cells_error. intros c k e3.
        destruct c; try discriminate. cbn. intros [= <-]. exact I.
      * intros [= <-]. exact I.
Qed.

Lemma plain_update_error (i : Input) (L : Level) (self : sref) (e : JsError) :
  match kind (shelfHeap L self) with
  | KClosing _ _ _ => ClosingShelf_update i L self
  | KDisplay _ _ _ _ => DisplayShelf_update i L self
  | KDeep _ => DeepShelf_update i L self
  | _ => Shelf_update Shelf_shelfIsEmpty i L self
  end = Throw e ->
  isTypeError e.
Proof.
  assert (Hbase : forall c, Shelf_update c i L self = Throw e -> isTypeError e).
  { intros c. unfold Shelf_update. apply Shelf_update_stats_error. }
  destruct (kind (shelfHeap L self)) eqn:Hk; try apply Hbase.
  - unfold ClosingShelf_update. rewrite Hk. apply Shelf_update_stats_error.
  - unfold DisplayShelf_update. rewrite Hk. apply Shelf_update_stats_error.
  - unfold DeepShelf_update.
    destruct (Shelf_update DeepShelf_shelfIsComplete i L self) as [L1|e1]
      eqn:Eu; cbn [bind].
    + destruct (kind (shelfHeap L1 self)); discriminate.
    + intros [= <-]. now apply (Hbase DeepShelf_shelfIsComplete).
Qed.

Lemma update_error (i : Input) :
  forall (depth : nat) (L : Level) (self : sref) (e : JsError),
    wrapsOlder (shelfHeap L) -> (S self < depth)%nat ->
    update depth i L self = Throw e -> isTypeError e.
Proof.
  induction depth as [|depth IH]; intros L self e Hw Hd; [lia |].
  cbn [update].
  pose proof (Hw self) as Hself. unfold wrapped in Hself.
  pose proof (plain_update_error i L self e) as Hplain.
  destruct (kind (shelfHeap L self)) as [| | | |w|w lk b t|w dis t] eqn:Hk;
    try exact Hplain; specialize (Hself w eq_refl).
  - apply IH; [assumption | lia].
  - destruct (update depth i L w) as [L1|e1] eqn:E1; cbn [bind].
    + unfold LockingShelf_update_own.
      destruct (kind (shelfHeap L1 self)); try discriminate.
      destruct (LockingShelf_shelfIsLocked L1 _) as [b'|e2] eqn:El;
        cbn [bind]; [discriminate |].
      intros [= <-]. eapply LockingShelf_shelfIsLocked_error. exact El.
    + intros [= <-]. eapply (IH L w); [assumption | lia | exact E1].
  - destruct (update depth i L w) as [L1|e1] eqn:E1; cbn [bind].
    + assert (Hw1 : wrapsOlder (shelfHeap L1)).
      { destruct (update_frame i _ _ _ _ Hw E1) as [Hwr _].
        exact (wrapsOlder_preserved _ _ Hwr Hw). }
      destruct (DisappearingShelf_update_own_stable depth i L1 self Hw1)
        as [_ [L' ->]]; [lia | discriminate].
    + intros [= <-]. eapply (IH L w); [assumption | lia | exact E1].
Qed.

Lemma Shelf_constructor_wrapsOlder (L : Level) (ps : list cell)
    (slots matchN : nat) (ign : bool) (ref : option string) (add : bool)
    (k : ShelfKind) (st : store) :
  wrapsOlder st ->
  (forall shelf, wrapped (mkShelf ps slots matchN ign ref false false None
                            None k) = Some shelf ->
                 (shelf < nextShelf L)%nat) ->
  wrapsOlder
    (shelfHeap (snd (Shelf_constructor (set_shelfHeap L st) ps slots matchN
                       ign ref add k))).
Proof.
  intros Hw Hk r shelf. unfold Shelf_constructor.
  cbn [snd shelfHeap set_shelfHeap nextShelf].
  destruct (Nat.eq_dec r (nextShelf L)) as [-> | Hne].
  - rewrite store_set_same. apply Hk.
  - rewrite store_set_other by assumption. apply Hw.
Qed.

(** X27. Delegation through wrappers ends. In a level in which every
    wrapper wraps an older object, [shelfIsComplete] always has an answer,
    and [update] of a shelf needs a bounded number of nested calls: with
    more allowed the result is the same, and when it fails it fails with a
    [TypeError] (of the statistics or of the lock condition), never for
    want of call depth. The three wrapper constructors, called on an
    existing shelf, keep the level such. *)
Theorem wrappers_delegate_to_older (i : Input) (L : Level) :
  wrapsOlder (shelfHeap L) ->
  (forall (r : sref) (depth : nat),
      (r < depth)%nat ->
      exists b, shelfIsComplete depth (shelfHeap L) r = Ret b)
  /\ (forall (self : sref) (depth : nat),
         (S self < depth)%nat ->
         update depth i L self = update (S (S self)) i L self
         /\ forall e, update depth i L self = Throw e -> isTypeError e)
  /\ (forall (shelf : sref) (locking : LockingMode),
         (shelf < nextShelf L)%nat ->
         wrapsOlder (shelfHeap (snd (SupplyShelf_constructor L shelf)))
         /\ wrapsOlder
              (shelfHeap (snd (LockingShelf_constructor L shelf locking)))
         /\ wrapsOlder
              (shelfHeap (snd (DisappearingShelf_constructor L shelf)))).
Proof.
  intros Hw. split; [| split].
  - intros r depth Hd. now apply shelfIsComplete_stable.
  - intros self depth Hd. split.
    + apply (update_stable i (S self)); [assumption | lia | assumption].
    + intros e. now apply update_error.
  - intros shelf locking Hlt.
    assert (Hinner : forall s', kind s' = kind (shelfHeap L shelf) ->
              wrapsOlder (store_set (shelfHeap L) shelf s')).
    { intros s' Hs r w. destruct (Nat.eq_dec r shelf) as [-> | Hne].
      - rewrite store_set_same. unfold wrapped. rewrite Hs. apply Hw.
      - rewrite store_set_other by assumption. apply Hw. }
    split; [| split].
    + unfold SupplyShelf_constructor, wrapper_super.
      apply Shelf_constructor_wrapsOlder.
      * now apply Hinner.
      * intros w [= <-]. exact Hlt.
    + unfold LockingShelf_constructor, wrapper_super.
      apply Shelf_constructor_wrapsOlder.
      * now apply Hinner.
      * intros w [= <-]. exact Hlt.
    + unfold DisappearingShelf_constructor, wrapper_super.
      replace L with (set_shelfHeap L (shelfHeap L)) at 1 by now destruct L.
      apply Shelf_constructor_wrapsOlder.
      * exact Hw.
      * intros w [= <-]. exact Hlt.
Qed.

Lemma wrappers_delegate_to_older_witness :
  (exists b, shelfIsComplete 2 (shelfHeap disappearingLevel) 1%nat = Ret b)
  /\ (update 5 (idleTick (1 # 60)) disappearingLevel 1%nat
      = update 3 (idleTick (1 # 60)) disappearingLevel 1%nat
      /\ forall e,
           update 5 (idleTick (1 # 60)) disappearingLevel 1%nat = Throw e ->
           isTypeError e)
  /\ wrapsOlder
       (shelfHeap (snd (SupplyShelf_constructor disappearingLevel 1%nat)))
  /\ wrapsOlder
       (shelfHeap (snd (LockingShelf_constructor disappearingLevel 1%nat
                          (CompleteShelves 1))))
  /\ wrapsOlder
       (shelfHeap (snd (DisappearingShelf_constructor disappearingLevel
                          1%nat))).
Proof.
  destruct (wrappers_delegate_to_older (idleTick (1 # 60)) disappearingLevel)
    as (H1 & H2 & H3).
  - intros r shelf H. destruct r as [|[|r]]; vm_compute in H;
      [discriminate H | injection H as <-; lia | discriminate H].
  - split; [apply H1; lia |]. split; [apply H2; lia |].
    apply H3. vm_compute. lia.
Defined.

(** Reads a store after writes at other or the same references. *)
Ltac store_simpl :=
  repeat (first [rewrite store_set_same | rewrite store_set_other by lia];
          cbn [kind set_disposed set_kind disposed products]).

Lemma clamp_bounds (a lo hi : Q) :
  (lo <= hi)%Q -> (lo <= clamp a lo hi <= hi)%Q.
Proof.
  intros H. unfold clamp, Qlt_bool. qcases; cbn [negb]; lra.
Qed.

(** X28. A locking shelf follows its condition. A tick of a locking
    shelf first updates the shelf it wraps, which does not touch the
    wrapper; then the wrapper is locked exactly when the condition,
    evaluated on the level as that update leaves it, says so. The tick
    writes nothing else but the locking animation time, which stays
    between 0 and [LOCKING_TIME]; and when the wrapped shelf carries the
    closures of the constructor it refuses, after a tick that locks,
    every drop and every pick-up. *)
Theorem LockingShelf_update_follows_condition (i : Input) (L L' : Level)
    (self inner : sref) (locking : LockingMode) (wasLocked : bool)
    (lockingTime : Q) (depth : nat) :
  wrapsOlder (shelfHeap L) ->
  kind (shelfHeap L self) = KLocking inner locking wasLocked lockingTime ->
  update (S depth) i L self = Ret L' ->
  exists (L1 : Level) (isLocked : bool) (t : Q),
    update depth i L inner = Ret L1
    /\ shelfHeap L1 self = shelfHeap L self
    /\ LockingShelf_shelfIsLocked L1 locking = Ret isLocked
    /\ kind (shelfHeap L' self) = KLocking inner locking isLocked t
    /\ (0 <= t <= LOCKING_TIME)%Q
    /\ stats L' = stats L1 /\ productHeap L' = productHeap L1
    /\ (forall r, r <> self -> shelfHeap L' r = shelfHeap L1 r)
    /\ (canDropOverride (shelfHeap L1 inner) = Some (DropUnlessLocked self) ->
        canPickUpOverride (shelfHeap L1 inner) = Some self ->
        isLocked = true ->
        refusesDrop (shelfHeap L') inner /\ refusesPickUp (shelfHeap L') inner).
Proof.
  intros Hw Hk. rewrite update_S, Hk.
  assert (Hlt : (inner < self)%nat).
  { apply (Hw self inner). unfold wrapped. now rewrite Hk. }
  destruct (update depth i L inner) as [L1|e] eqn:E1; [| discriminate].
  cbn [bind].
  destruct (update_frame i _ _ _ _ Hw E1) as [_ Hab].
  pose proof (Hab self Hlt) as Hself.
  unfold LockingShelf_update_own. rewrite Hself, Hk.
  destruct (LockingShelf_shelfIsLocked L1 locking) as [b|e] eqn:El;
    [| discriminate].
  cbn [bind]. intros [= <-].
  exists L1, b. eexists.
  split; [reflexivity |]. split; [assumption |]. split; [exact El |].
  rewrite shelfHeap_set_shelf.
  split; [reflexivity |].
  split; [apply clamp_bounds; unfold LOCKING_TIME; lra |].
  split; [reflexivity |]. split; [reflexivity |].
  split.
  { intros r Hr. cbn. now rewrite store_set_other. }
  intros Hdo Hpo ->.
  assert (Hin : shelfHeap (set_shelf L1 self
                  (set_kind (shelfHeap L self)
                     (KLocking inner locking true
                        (clamp (lockingTime + dt i) 0 LOCKING_TIME)))) inner
                = shelfHeap L1 inner).
  { cbn. apply store_set_other. lia. }
  assert (Hlocked : wrapperLocked
                      (shelfHeap (set_shelf L1 self
                         (set_kind (shelfHeap L self)
                            (KLocking inner locking true
                               (clamp (lockingTime + dt i) 0 LOCKING_TIME)))))
                      self = true).
  { unfold wrapperLocked. now rewrite shelfHeap_set_shelf. }
  split; intros product index.
  - unfold canDropProductAtIndex. now rewrite Hin, Hdo, Hlocked.
  - unfold canPickUpProductAtIndex. now rewrite Hin, Hpo, Hlocked.
Qed.

Lemma LockingShelf_update_follows_condition_witness :
  exists (L1 : Level) (isLocked : bool) (t : Q),
    update 1 (idleTick (1 # 60)) lockingLevel 0%nat = Ret L1
    /\ shelfHeap L1 1%nat = shelfHeap lockingLevel 1%nat
    /\ LockingShelf_shelfIsLocked L1 (CompleteShelves 1) = Ret isLocked
    /\ kind (shelfHeap lockingLevelTicked 1%nat)
       = KLocking 0%nat (CompleteShelves 1) isLocked t
    /\ (0 <= t <= LOCKING_TIME)%Q
    /\ stats lockingLevelTicked = stats L1
    /\ productHeap lockingLevelTicked = productHeap L1
    /\ (forall r, r <> 1%nat -> shelfHeap lockingLevelTicked r = shelfHeap L1 r)
    /\ (canDropOverride (shelfHeap L1 0%nat) = Some (DropUnlessLocked 1%nat) ->
        canPickUpOverride (shelfHeap L1 0%nat) = Some 1%nat ->
        isLocked = true ->
        refusesDrop (shelfHeap lockingLevelTicked) 0%nat
        /\ refusesPickUp (shelfHeap lockingLevelTicked) 0%nat).
Proof.
  apply (LockingShelf_update_follows_condition (idleTick (1 # 60))
           lockingLevel lockingLevelTicked 1%nat 0%nat (CompleteShelves 1)
           false 0 1%nat).
  - intros r shelf H. destruct r as [|[|r]]; vm_compute in H;
      [discriminate H | injection H as <-; lia | discriminate H].
  - reflexivity.
  - vm_compute. reflexivity.
Defined.

(** X29. A disappearing shelf counts its completion once and goes with the
    shelf it wraps. A tick of a disappearing shelf first updates the
    wrapped shelf, which does not touch the wrapper. Then: the wrapper is
    disappearing exactly when it was or the wrapped shelf is complete;
    [totalCompletedShelves] grows by one in the tick in which it starts to
    disappear and the statistics are not written otherwise; while it is
    not disappearing nothing is written at all; when the animation time
    reaches 0 the wrapper and the wrapped shelf are both disposed of, and
    before that their [disposed] flags are not written; products and the
    slots of the wrapped shelf are as its own update left them. *)
Theorem DisappearingShelf_update_counts_once (i : Input) (L L' : Level)
    (self inner : sref) (wasDisappearing : bool) (timer : Q) (depth : nat) :
  wrapsOlder (shelfHeap L) ->
  kind (shelfHeap L self) = KDisappearing inner wasDisappearing timer ->
  update (S depth) i L self = Ret L' ->
  exists (L1 : Level) (complete : bool),
    update depth i L inner = Ret L1
    /\ shelfHeap L1 self = shelfHeap L self
    /\ shelfIsComplete depth (shelfHeap L1) self = Ret complete
    /\ stats L'
       = (if complete && negb wasDisappearing
          then countCompletedShelf (stats L1) else stats L1)
    /\ productHeap L' = productHeap L1
    /\ products (shelfHeap L' inner) = products (shelfHeap L1 inner)
    /\ (wasDisappearing || complete = false -> shelfHeap L' = shelfHeap L1)
    /\ (wasDisappearing || complete = true ->
        exists t : Q,
          kind (shelfHeap L' self) = KDisappearing inner true t
          /\ ((t <= 0)%Q ->
              disposed (shelfHeap L' self) = true
              /\ disposed (shelfHeap L' inner) = true)
          /\ ((0 < t)%Q ->
              disposed (shelfHeap L' self) = disposed (shelfHeap L1 self)
              /\ disposed (shelfHeap L' inner) = disposed (shelfHeap L1 inner))).
Proof.
  intros Hw Hk. rewrite update_S, Hk.
  assert (Hlt : (inner < self)%nat).
  { apply (Hw self inner). unfold wrapped. now rewrite Hk. }
  destruct (update depth i L inner) as [L1|e] eqn:E1; [| discriminate].
  cbn [bind].
  destruct (update_frame i _ _ _ _ Hw E1) as [_ Hab].
  pose proof (Hab self Hlt) as Hself.
  unfold DisappearingShelf_update_own. rewrite Hself, Hk.
  destruct (shelfIsComplete depth (shelfHeap L1) self) as [complete|e] eqn:Ec;
    [| discriminate].
  cbn [bind]. intros Hrun.
  exists L1, complete.
  split; [reflexivity |]. split; [assumption |]. split; [exact Ec |].
  revert Hrun.
  set (start := complete && negb wasDisappearing).
  set (L2 := if start then _ else L1).
  assert (H2 : shelfHeap L2 = shelfHeap L1 /\ productHeap L2 = productHeap L1
               /\ stats L2 = (if start then countCompletedShelf (stats L1)
                              else stats L1)).
  { subst L2. destruct start; cbn; auto. }
  destruct H2 as (Hst2 & Hh2 & Hstats2).
  assert (Hor : start || wasDisappearing = wasDisappearing || complete).
  { subst start. now destruct complete, wasDisappearing. }
  rewrite Hor.
  destruct (wasDisappearing || complete) eqn:Ed.
  - set (t := clamp _ 0 _).
    destruct (Qle_bool t 0) eqn:Et; intros [= <-];
      cbn [stats productHeap shelfHeap set_shelf set_shelfHeap];
      rewrite ?Hst2, ?Hself;
      (split; [assumption |]); (split; [assumption |]);
      (split; [store_simpl; reflexivity |]); (split; [discriminate |]);
      intros _; exists t; store_simpl.
    + split; [reflexivity |]. split; [auto |].
      intros Hpos. apply Qle_bool_iff in Et. lra.
    + split; [reflexivity |]. split; [| auto].
      intros Hle. apply Qle_bool_iff in Hle. congruence.
  - intros [= <-]. rewrite Hst2.
    split; [assumption |]. split; [assumption |].
    split; [reflexivity |]. split; [reflexivity |]. discriminate.
Qed.

Lemma DisappearingShelf_update_counts_once_witness :
  exists (L1 : Level) (complete : bool),
    update 2 (idleTick (1 # 60)) disappearingLevel 0%nat = Ret L1
    /\ shelfHeap L1 1%nat = shelfHeap disappearingLevel 1%nat
    /\ shelfIsComplete 2 (shelfHeap L1) 1%nat = Ret complete
    /\ stats disappearingLevelTicked
       = (if complete && negb false
          then countCompletedShelf (stats L1) else stats L1)
    /\ productHeap disappearingLevelTicked = productHeap L1
    /\ products (shelfHeap disappearingLevelTicked 0%nat)
       = products (shelfHeap L1 0%nat)
    /\ (false || complete = false ->
        shelfHeap disappearingLevelTicked = shelfHeap L1)
    /\ (false || complete = true ->
        exists t : Q,
          kind (shelfHeap disappearingLevelTicked 1%nat)
          = KDisappearing 0%nat true t
          /\ ((t <= 0)%Q ->
              disposed (shelfHeap disappearingLevelTicked 1%nat) = true
              /\ disposed (shelfHeap disappearingLevelTicked 0%nat) = true)
          /\ ((0 < t)%Q ->
              disposed (shelfHeap disappearingLevelTicked 1%nat)
              = disposed (shelfHeap L1 1%nat)
              /\ disposed (shelfHeap disappearingLevelTicked 0%nat)
                 = disposed (shelfHeap L1 0%nat))).
Proof.
  apply (DisappearingShelf_update_counts_once (idleTick (1 # 60))
           disappearingLevel disappearingLevelTicked 1%nat 0%nat false 0
           2%nat).
  - intros r shelf H. destruct r as [|[|r]]; vm_compute in H;
      [discriminate H | injection H as <-; lia | discriminate H].
  - reflexivity.
  - vm_compute. reflexivity.
Defined.

Lemma updateProducts_empty (i : Input) (self : sref) (cells : list cell) :
  layerIsEmpty cells = true ->
  forall (index : nat) (L : Level), updateProducts i self index cells L = L.
Proof.
  induction cells as [|c rest IH]; intros He index L; [reflexivity |].
  cbn [layerIsEmpty forallb] in He. apply andb_true_iff in He as [Hc Hrest].
  cbn [updateProducts]. destruct c; try discriminate; now apply IH.
Qed.

Lemma removeFinished_empty (h : heap) (cells : list cell) :
  layerIsEmpty cells = true -> removeFinished h cells = cells.
Proof.
  intros He. apply removeFinished_id. intros p Hp.
  unfold layerIsEmpty in He. rewrite forallb_forall in He.
  specialize (He _ Hp). discriminate.
Qed.

Lemma validProducts_empty (h : heap) (cells : list cell) :
  layerIsEmpty cells = true -> validProducts h cells = [].
Proof.
  unfold validProducts.
  induction cells as [|c rest IH]; intros He; [reflexivity |].
  cbn [layerIsEmpty forallb] in He. apply andb_true_iff in He as [Hc Hrest].
  cbn [flat_map]. rewrite (IH Hrest). now destruct c.
Qed.

(** The tick of an empty shelf whose statistics are not up to date. *)
Lemma Shelf_update_empty (i : Input) (L : Level) (self : sref) :
  Shelf_shelfIsEmpty (shelfHeap L self) = true ->
  statsUpdated (shelfHeap L self) = false ->
  exists L1,
    Shelf_update Shelf_shelfIsEmpty i L self = Ret L1
    /\ stats L1 = countCompletedShelf (stats L)
    /\ productHeap L1 = productHeap L
    /\ shelfHeap L1 self = set_statsUpdated (shelfHeap L self) true
    /\ forall r, r <> self -> shelfHeap L1 r = shelfHeap L r.
Proof.
  intros He Hs. unfold Shelf_shelfIsEmpty in He.
  unfold Shelf_update, Shelf_update_products.
  rewrite (updateProducts_empty i self _ He). cbn zeta.
  rewrite (removeFinished_empty _ _ He), set_products_same.
  unfold Shelf_update_match. cbn [fst snd].
  cbn [productHeap set_shelf set_shelfHeap shelfHeap].
  rewrite store_set_same.
  unfold Shelf_checkForMatches, Shelf_findMatchingGroups.
  rewrite (validProducts_empty _ _ He).
  cbn [findMatchingGroups_loop length Nat.eqb negb found matched head].
  unfold Shelf_update_stats.
  cbn [shelfHeap set_shelf set_shelfHeap found bind].
  rewrite store_set_same, Hs. cbn [bind].
  unfold Shelf_shelfIsEmpty at 1. rewrite He.
  eexists. split; [reflexivity |].
  cbn [stats productHeap shelfHeap set_stats set_shelf set_shelfHeap].
  split; [reflexivity |]. split; [reflexivity |].
  split; [now rewrite store_set_same |].
  intros r Hr. now rewrite !store_set_other.
Qed.

(** X30. A base shelf inside a disappearing shelf is counted twice. When a
    disappearing shelf that is not yet disappearing wraps a base shelf
    that holds no product and whose statistics are not up to date, one
    tick of the wrapper completes and adds 2 to [totalCompletedShelves]:
    one in the statistics step of the wrapped shelf and one when the
    wrapper starts to disappear; afterwards the wrapper is disappearing
    and the statistics flag of the wrapped shelf is set. *)
Theorem DisappearingShelf_counts_twice (i : Input) (L : Level)
    (self inner : sref) (timer : Q) (depth : nat) :
  kind (shelfHeap L self) = KDisappearing inner false timer ->
  kind (shelfHeap L inner) = KShelf ->
  Shelf_shelfIsEmpty (shelfHeap L inner) = true ->
  statsUpdated (shelfHeap L inner) = false ->
  exists (L' : Level) (t : Q),
    update (3 + depth) i L self = Ret L'
    /\ totalCompletedShelves (stats L') = totalCompletedShelves (stats L) + 2
    /\ kind (shelfHeap L' self) = KDisappearing inner true t
    /\ statsUpdated (shelfHeap L' inner) = true.
Proof.
  intros Hk Hki He Hs.
  assert (Hne : self <> inner) by (intros ->; congruence).
  change (3 + depth)%nat with (S (S (S depth))).
  rewrite update_S, Hk, update_S, Hki.
  destruct (Shelf_update_empty i L inner He Hs)
    as (L1 & -> & Hstats & _ & Hin & Hoth).
  cbn [bind]. unfold DisappearingShelf_update_own.
  rewrite (Hoth self Hne), Hk.
  assert (Hc : shelfIsComplete (S (S depth)) (shelfHeap L1) self = Ret true).
  { cbn [shelfIsComplete]. rewrite (Hoth self Hne), Hk, Hin.
    cbn [kind set_statsUpdated]. rewrite Hki. now f_equal. }
  rewrite Hc. cbn [bind andb negb orb].
  set (t := clamp _ 0 _).
  destruct (Qle_bool t 0); eexists; exists t; (split; [reflexivity |]);
    cbn [stats set_stats set_shelf set_shelfHeap shelfHeap];
    rewrite ?Hstats, ?(Hoth self Hne), ?Hin; store_simpl;
    (split; [cbn; lia |]); (split; [reflexivity |]);
    rewrite ?Hin; reflexivity.
Qed.

Lemma DisappearingShelf_counts_twice_witness :
  exists (L' : Level) (t : Q),
    update (3 + 0) (idleTick (1 # 60)) disappearingLevel 1%nat = Ret L'
    /\ totalCompletedShelves (stats L')
       = totalCompletedShelves (stats disappearingLevel) + 2
    /\ kind (shelfHeap L' 1%nat) = KDisappearing 0%nat true t
    /\ statsUpdated (shelfHeap L' 0%nat) = true.
Proof.
  apply (DisappearingShelf_counts_twice (idleTick (1 # 60)) disappearingLevel
           1%nat 0%nat 0 0%nat); reflexivity.
Defined.
